(** * db-connect-checker: readiness prober and availability exporter

    A shallow embedding of the Go packages [types], [util], [mysqlcheck]
    and [metrics], followed by the properties established about them.

    Conventions of the embedding:
    - Go's [int] (on a 64-bit platform) and [time.Duration] are 64-bit
      signed integers; they are values of [Z] and every arithmetic
      operation wraps ([GoInt.wrap]).
    - A Go [error] is its message; [nil] is [None].
    - Network and file I/O are answers supplied by the environment
      (a [Driver] answer per probe call, a [FileReader] per read).
    - Goroutines are threads of a transition system; a schedule (a list of
      thread picks) selects one interleaving, and statements about every
      interleaving quantify over every schedule. *)

From Stdlib Require Import ZArith Lia.
From stdpp Require Import base tactics option list strings pretty gmap.

(** ** Machine integers *)

Module GoInt.
Local Open Scope Z_scope.

Definition min_int : Z := - 2 ^ 63.
Definition max_int : Z := 2 ^ 63 - 1.

(** Two's-complement reduction of a mathematical integer to int64. *)
Definition wrap (z : Z) : Z := (z + 2 ^ 63) mod 2 ^ 64 - 2 ^ 63.

Definition add (a b : Z) : Z := wrap (a + b).
Definition mul (a b : Z) : Z := wrap (a * b).

Definition in_range (z : Z) : Prop := min_int <= z <= max_int.
End GoInt.

(** ** Values shared by the packages *)

(** A Go result pair [(value, error)] with exactly one side meaningful. *)
Inductive result (A : Type) : Type :=
| Ok (a : A)
| Err (msg : string).
Arguments Ok {A} a.
Arguments Err {A} msg.

(** The line feed written as a backslash-n escape in the Go sources. *)
Definition newline : string := String (Ascii.ascii_of_nat 10) EmptyString.

(** ** package time *)

Module time.
Local Open Scope Z_scope.

(** [time.Duration] counts nanoseconds in an int64. *)
Definition Second : Z := 1000000000.

(** [time.Duration(n) * time.Second] *)
Definition seconds (n : Z) : Z := GoInt.mul n Second.

(** Time actually spent in [time.Sleep d]: a negative or zero duration
    returns immediately. *)
Definition slept (d : Z) : Z := Z.max 0 d.
End time.

(** ** package crypto/tls and crypto/x509 (the part the program touches) *)

Module tls.
(** A certificate pool is the list of certificates that were appended. *)
Definition CertPool := list string.

(** [tls.Config]; the program sets the two fields below and leaves every
    other field (ServerName, VerifyPeerCertificate, VerifyConnection, ...)
    at its zero value. *)
Record Config := {
  InsecureSkipVerify : bool;
  RootCAs : option CertPool;
}.

(** What a server presents during the handshake, seen through the two
    checks [x509.Certificate.Verify] performs. *)
Record Peer := {
  chains_to : CertPool → bool;   (* a chain from the leaf ends in the pool *)
  valid_for : string → bool;     (* the leaf names this host *)
}.

(** Client side of the handshake, [verifyServerCertificate] of
    crypto/tls, for a configuration without verification callbacks:
    unless [InsecureSkipVerify] is set, the chain is verified against
    [RootCAs] (the system pool when nil, passed as [system]) and the
    leaf against the server name. *)
Definition verifyServerCertificate
    (system : CertPool) (serverName : string) (c : Config) (p : Peer) : bool :=
  if InsecureSkipVerify c then true
  else chains_to p (default system (RootCAs c)) && valid_for p serverName.
End tls.

(** ** package types *)

Module types.
Record MysqlConfig := {
  Name : string;
  User : string;
  Pass : string;
  Host : string;
  Port : string;
  TLS : bool;
  TLSConfig : option tls.Config;
}.

End types.

(** ** package util *)

Module util.
Import types.

(** A call either returns or ends the process through [os.Exit]. *)
Inductive outcome (A : Type) : Type :=
| Ret (a : A)
| Exit (code : Z) (stderr : string).
Arguments Ret {A} a.
Arguments Exit {A} code stderr.

(** [FileReader.ReadFile]: the file's contents or an error. *)
Definition FileReader := string → result string.

Section WithPEM.
(** [x509.CertPool.AppendCertsFromPEM]: the certificates found in the
    PEM text; the call reports [ok = false] when there is none. *)
Variable parsePEM : string → list string.

Definition mysqlTLSConfig (capath : string) (reader : FileReader)
    : outcome tls.Config :=
  let rootCertPool : tls.CertPool := [] in
  match reader capath with
  | Err err => Exit 1 ("Error reading CA file: " +:+ err +:+ newline)
  | Ok pem =>
      match parsePEM pem with
      | [] => Exit 1 ("Error appending CA cert" +:+ newline)
      | certs =>
          Ret {| tls.InsecureSkipVerify := true;
                 tls.RootCAs := Some (rootCertPool ++ certs) |}
      end
  end.

(** [os.Getenv]: unset variables read as the empty string. *)
Definition Getenv (env : gmap string string) (key : string) : string :=
  default "" (env !! key).

Definition GetEnvString (env : gmap string string)
    (key defaultValue : string) : string :=
  let value := Getenv env key in
  if decide (value = "") then defaultValue else value.

Definition GetEnvBool (env : gmap string string)
    (key : string) (defaultValue : bool) : bool :=
  let value := Getenv env key in
  if decide (value = "") then defaultValue
  else bool_decide (value = "true").

Definition getMysqlConfigFromEnvs (env : gmap string string)
    (reader : FileReader) : outcome MysqlConfig :=
  let name := GetEnvString env "MYSQL_NAME" "" in
  let user := GetEnvString env "MYSQL_USER" "" in
  let pass := GetEnvString env "MYSQL_PASS" "" in
  let host := GetEnvString env "MYSQL_HOST" "" in
  let port := GetEnvString env "MYSQL_PORT" "3306" in
  let tlsOn := GetEnvBool env "MYSQL_TLS" false in
  let capath :=
    GetEnvString env "MYSQL_TLS_CA_FILE" "/etc/ssl/certs/ca-certificates.crt" in
  let finish (c : option tls.Config) :=
    {| Name := name; User := user; Pass := pass; Host := host;
       Port := port; TLS := tlsOn; TLSConfig := c |} in
  if tlsOn then
    match mysqlTLSConfig capath reader with
    | Ret c => Ret (finish (Some c))
    | Exit code msg => Exit code msg
    end
  else Ret (finish None).

(** [getMysqlConfigFromEnvsByIndex]; [Err] is the returned error. *)
Definition getMysqlConfigFromEnvsByIndex (env : gmap string string)
    (reader : FileReader) (index : Z) : outcome (result MysqlConfig) :=
  let sfx := pretty index in
  let name := GetEnvString env ("MYSQL_NAME_" +:+ sfx) "" in
  let user := GetEnvString env ("MYSQL_USER_" +:+ sfx) "" in
  let pass := GetEnvString env ("MYSQL_PASS_" +:+ sfx) "" in
  let host := GetEnvString env ("MYSQL_HOST_" +:+ sfx) "" in
  let port := GetEnvString env ("MYSQL_PORT_" +:+ sfx) "3306" in
  let tlsOn := GetEnvBool env ("MYSQL_TLS_" +:+ sfx) false in
  let capath :=
    GetEnvString env ("MYSQL_TLS_CA_FILE_" +:+ sfx)
                 "/etc/ssl/certs/ca-certificates.crt" in
  let finish (c : option tls.Config) : result MysqlConfig :=
    if bool_decide (name = "" ∨ user = "" ∨ pass = "" ∨ host = "" ∨ port = "")
    then Err ("no MySQL config found for index " +:+ sfx)
    else Ok {| Name := name; User := user; Pass := pass; Host := host;
                Port := port; TLS := tlsOn; TLSConfig := c |} in
  if tlsOn then
    match mysqlTLSConfig capath reader with
    | Ret c => Ret (finish (Some c))
    | Exit code msg => Exit code msg
    end
  else Ret (finish None).
End WithPEM.
End util.

(** ** package mysqlcheck *)

Module mysqlcheck.
Import types.
Local Open Scope Z_scope.

(** The answers of the MySQL driver to one probe. *)
Record Driver := {
  (* mysql.RegisterTLSConfig(name, config) *)
  RegisterTLSConfig : string → option tls.Config → option string;
  (* sql.Open("mysql", dsn) *)
  Open : string → option string;
  (* db.QueryContext(ctx, query) under the 5 s deadline: an error, or the
     rows, each of which scans to a table name or to an error *)
  QueryContext : string → result (list (result string));
}.

Definition errorFuncName : string := "Func GetSQLTables() error".
Definition query : string := "SHOW TABLES".

Fixpoint scanRows (rows : list (result string)) (tables : list string)
    : result (list string) :=
  match rows with
  | [] => Ok tables
  | Ok table :: rest => scanRows rest (tables ++ [table])
  | Err err :: _ =>
      Err (errorFuncName +:+ ": for query '" +:+ query
           +:+ "', cannot read table. Error: " +:+ err)
  end.

Definition getSQLTables (db : Driver) : result (list string) :=
  match QueryContext db query with
  | Err err =>
      Err (errorFuncName +:+ ": query: '" +:+ query +:+ "': " +:+ err)
  | Ok tableRows => scanRows tableRows []
  end.

(** One probe: [None] is the nil error. *)
Definition CheckConnection (config : MysqlConfig) (db : Driver)
    : option string :=
  let connectString :=
    User config +:+ ":" +:+ Pass config +:+ "@tcp(" +:+ Host config
    +:+ ":" +:+ Port config +:+ ")/" +:+ Name config in
  let tlsConfigName :=
    "custom-tls-" +:+ Host config +:+ "-" +:+ Name config in
  let afterOpen (connectString : string) :=
    match Open db connectString with
    | Some err => Some ("error connect: " +:+ err)
    | None =>
        match getSQLTables db with
        | Err err => Some ("error getting tables: " +:+ err)
        | Ok _ => None
        end
    end in
  if TLS config then
    match RegisterTLSConfig db tlsConfigName (TLSConfig config) with
    | Some err =>
        Some ("cannot register TLS config for MySQL connection: " +:+ err)
    | None => afterOpen (connectString +:+ "?tls=" +:+ tlsConfigName)
    end
  else afterOpen connectString.

(** *** The goroutine launched for one target *)

Inductive GoPc :=
| AtLoop (i : Z)    (* at the loop test [i <= tries] *)
| AtSend (i : Z)    (* the loop is left with this [i]; about to send *)
| GoDone.           (* the goroutine has returned *)

Record Runner := {
  cfg : MysqlConfig;
  pc : GoPc;
  calls : nat;             (* CheckConnection calls made so far *)
  sleeps : list Z;         (* arguments of time.Sleep, oldest first *)
  stderr : list string;
  stdout : list string;
}.

Definition launch (c : MysqlConfig) : Runner :=
  {| cfg := c; pc := AtLoop 1; calls := 0;
     sleeps := []; stderr := []; stdout := [] |}.

(** The line printed for a failed attempt. *)
Definition tryLine (c : MysqlConfig) (i tries sleepS : Z) (err : string)
    : string :=
  "[" +:+ Host c +:+ ":" +:+ Port c +:+ "/" +:+ Name c +:+ "] Try ("
  +:+ pretty i +:+ "/" +:+ pretty tries +:+ ") sleep " +:+ pretty sleepS
  +:+ " seconds error: " +:+ err +:+ newline.

(** The error sent when the attempts are used up; as in the source the
    arguments are passed in the order Host, Name, Port. *)
Definition attemptsFailed (c : MysqlConfig) : string :=
  "[" +:+ Host c +:+ ":" +:+ Name c +:+ "/" +:+ Port c
  +:+ "] connection attempts have failed".

Section Goroutine.
Variable tries : Z.
(** [db n] answers the goroutine's n-th probe (n = 1, 2, ...). *)
Variable db : nat → Driver.

(** One pass through the loop body, from the test to the next test. *)
Definition iteration (i : Z) (r : Runner) : Runner :=
  if i <=? tries then
    let sleepS := GoInt.add (GoInt.mul 3 i) 1 in
    let sleep := time.seconds sleepS in
    match CheckConnection (cfg r) (db (S (calls r))) with
    | Some err =>
        {| cfg := cfg r; pc := AtLoop (GoInt.add i 1);
           calls := S (calls r);
           sleeps := sleeps r ++ [sleep];
           stderr := stderr r ++ [tryLine (cfg r) i tries sleepS err];
           stdout := stdout r |}
    | None =>
        {| cfg := cfg r; pc := AtSend i;
           calls := S (calls r);
           sleeps := sleeps r;
           stderr := stderr r;
           stdout := stdout r ++ ["Connect success" +:+ newline] |}
    end
  else
    {| cfg := cfg r; pc := AtSend i; calls := calls r;
       sleeps := sleeps r; stderr := stderr r; stdout := stdout r |}.

(** The value sent on [errChan] after the loop. *)
Definition verdict (c : MysqlConfig) (i : Z) : option string :=
  if i =? GoInt.add tries 1 then Some (attemptsFailed c) else None.

Definition finished (r : Runner) : Runner :=
  {| cfg := cfg r; pc := GoDone; calls := calls r;
     sleeps := sleeps r; stderr := stderr r; stdout := stdout r |}.

(** One step of the goroutine: its next state and what it sends. *)
Definition gstep (r : Runner) : option (Runner * list (option string)) :=
  match pc r with
  | AtLoop i => Some (iteration i r, [])
  | AtSend i => Some (finished r, [verdict (cfg r) i])
  | GoDone => None
  end.

(** The goroutine run alone until it returns: its final state and the
    value it sent, or [None] when the fuel does not suffice. *)
Fixpoint goroutine (fuel : nat) (r : Runner)
    : option (Runner * option string) :=
  match fuel with
  | O => None
  | S fuel' =>
      match pc r with
      | AtLoop i => goroutine fuel' (iteration i r)
      | AtSend i => Some (finished r, verdict (cfg r) i)
      | GoDone => None
      end
  end.
End Goroutine.

(** *** CheckConnections: the coordinator and its goroutines *)

Inductive CoPc :=
| CoLaunch (rest : list MysqlConfig)   (* first loop: targets still to launch *)
| CoRecv (rest : list MysqlConfig)     (* second loop: iterations still to run *)
| CoReturned (err : option string).    (* CheckConnections has returned *)

Record State := {
  co : CoPc;
  goroutines : list Runner;            (* in launch order *)
  errChan : list (option string);      (* buffered values, oldest first *)
  received : list (option string);     (* what the coordinator has read *)
}.

Inductive Thread :=
| Coordinator
| Goroutine (k : nat).

Section CheckConnections.
Variable config : list MysqlConfig.
Variable tries : Z.
(** [db k n] answers the n-th probe of the k-th launched goroutine. *)
Variable db : nat → nat → Driver.

(** [make(chan error, len(config))] *)
Definition capacity : nat := length config.

Definition init : State :=
  {| co := CoLaunch config; goroutines := []; errChan := [];
     received := [] |}.

Definition coStep (s : State) : option State :=
  match co s with
  | CoLaunch (c :: rest) =>
      Some {| co := CoLaunch rest;
              goroutines := goroutines s ++ [launch c];
              errChan := errChan s; received := received s |}
  | CoLaunch [] =>
      Some {| co := CoRecv config; goroutines := goroutines s;
              errChan := errChan s; received := received s |}
  | CoRecv (_ :: rest) =>
      match errChan s with
      | [] => None                   (* blocked on the receive *)
      | err :: queue =>
          Some {| co := match err with
                        | Some e => CoReturned (Some e)
                        | None => CoRecv rest
                        end;
                  goroutines := goroutines s;
                  errChan := queue;
                  received := received s ++ [err] |}
      end
  | CoRecv [] =>
      Some {| co := CoReturned None; goroutines := goroutines s;
              errChan := errChan s; received := received s |}
  | CoReturned _ => None
  end.

Definition goStep (k : nat) (s : State) : option State :=
  match goroutines s !! k with
  | None => None
  | Some r =>
      match gstep tries (db k) r with
      | None => None
      | Some (r', sent) =>
          if bool_decide (length (errChan s) + length sent ≤ capacity)%nat
          then Some {| co := co s;
                       goroutines := <[k := r']> (goroutines s);
                       errChan := errChan s ++ sent;
                       received := received s |}
          else None                  (* blocked on the send *)
      end
  end.

Definition step (t : Thread) (s : State) : option State :=
  match t with
  | Coordinator => coStep s
  | Goroutine k => goStep k s
  end.

(** Running a schedule; a pick of a blocked or finished thread leaves
    the state as it is. *)
Definition exec (sched : list Thread) (s : State) : State :=
  foldl (λ s t, default s (step t s)) s sched.

Definition probeCalls (s : State) : nat :=
  sum_list (calls <$> goroutines s).

(** The result of CheckConnections, once it has returned. *)
Definition returned (s : State) : option (option string) :=
  match co s with
  | CoReturned r => Some r
  | _ => None
  end.

(** CheckConnections under the schedule [sched]: the error it has
    returned ([Some None] for nil), or [None] while it is running. *)
Definition CheckConnections (sched : list Thread)
    : option (option string) :=
  returned (exec sched init).
End CheckConnections.
End mysqlcheck.

(** ** package metrics *)

Module metrics.
Import types.
Local Open Scope Z_scope.

(** The values of the labels "host", "port", "database". *)
Definition Labels : Type := string * string * string.

Definition labelsOf (c : MysqlConfig) : Labels := (Host c, Port c, Name c).

(** One child of a GaugeVec.  [stamp] is not program state: it records
    which check cycle wrote the value, so that statements about cycles
    can be made.  Durations are kept as elapsed nanoseconds (the float
    conversion of [Seconds()] is not modelled). *)
Record Gauge := {
  value : Z;
  stamp : nat;
}.

(** The fields of the exporter that never change after construction. *)
Record MultiMySQLExporter := {
  configs : list MysqlConfig;
  checkInterval : Z;
}.

Definition NewMultiMySQLExporter (configs : list MysqlConfig)
    (checkInterval : Z) : MultiMySQLExporter :=
  let checkInterval :=
    if decide (checkInterval = 0) then 30 * time.Second else checkInterval in
  {| configs := configs; checkInterval := checkInterval |}.

(** Control points of [performChecks]. *)
Inductive ChecksPc :=
| CLock                                (* about to e.mu.Lock() *)
| CResetA                              (* about to reset availabilityMetric *)
| CResetD                              (* about to reset durationMetric *)
| CSpawn (rest : list MysqlConfig)     (* range loop: targets still to launch *)
| CWait                                (* wg.Wait() *)
| CUnlock.                             (* the deferred e.mu.Unlock() *)

(** The caller of [Start]. *)
Inductive MainPc :=
| MStart                               (* about to call Start() *)
| MChecks (c : ChecksPc)               (* in the first performChecks *)
| MGo                                  (* about to run the go statement *)
| MRet                                 (* about to return from Start *)
| MReturned.                           (* Start() has returned *)

Definition hasReturned (m : MainPc) : bool :=
  match m with MReturned => true | _ => false end.

(** The goroutine started by [Start]. *)
Inductive LoopPc :=
| LNone                                (* not started *)
| LTicker                              (* about to call time.NewTicker *)
| LSelect                              (* waiting in the select *)
| LChecks (c : ChecksPc)               (* in performChecks after a tick *)
| LExit                                (* returned after ctx.Done() *)
| LPanic.                              (* time.NewTicker panicked *)

Definition hasPanicked (l : LoopPc) : bool :=
  match l with LPanic => true | _ => false end.

(** A goroutine launched by [performChecks] for one target. *)
Inductive WorkerPc :=
| WProbe                               (* about to call CheckConnection *)
| WSetA (err : option string) (elapsed : Z)
| WSetD (elapsed : Z)
| WDone.                               (* wg.Done() has run *)

Record Worker := {
  wcfg : MysqlConfig;
  wpc : WorkerPc;
}.

Definition isDone (p : WorkerPc) : bool :=
  match p with WDone => true | _ => false end.

(** A [Collect] call that holds the read lock. *)
Inductive ReaderPc :=
| RLocked
| RGotA (a : gmap Labels Gauge)
| RGotAD (a d : gmap Labels Gauge).

(** What one finished [Collect] call delivered, and whether [Start] had
    returned when the call took the read lock. *)
Record Scrape := {
  afterStart : bool;
  availability : gmap Labels Gauge;
  duration : gmap Labels Gauge;
}.

Record State := {
  availabilityMetric : gmap Labels Gauge;
  durationMetric : gmap Labels Gauge;
  writer : bool;                       (* e.mu is held by Lock *)
  readers : gmap nat (bool * ReaderPc);  (* Collect calls holding RLock *)
  cancelled : bool;                    (* e.cancel() was called *)
  ticker : option Z;                   (* period of the running ticker *)
  main : MainPc;
  loop : LoopPc;
  workers : list Worker;               (* goroutines of the current cycle *)
  completed : nat;                     (* cycles finished so far *)
  probes : nat;                        (* CheckConnection calls so far *)
  scrapes : list Scrape;               (* finished Collect calls *)
}.

Inductive Thread :=
| Caller
| Loop
| Tick                                 (* the loop receives from ticker.C *)
| Prober (k : nat)
| Scraper (j : nat)                     (* the j-th scrape calls Collect *)
| Stopper.                               (* somebody calls Stop() *)

Section Exporter.
Variable e : MultiMySQLExporter.
(** [db c k], [elapsed c k]: the driver's answer to the probe of the
    k-th target in cycle c, and the time the probe took. *)
Variable db : nat → nat → mysqlcheck.Driver.
Variable elapsed : nat → nat → Z.

Definition init : State :=
  {| availabilityMetric := ∅; durationMetric := ∅; writer := false;
     readers := ∅; cancelled := false; ticker := None;
     main := MStart; loop := LNone; workers := [];
     completed := 0; probes := 0; scrapes := [] |}.

Definition setChecks (s : State) (a d : gmap Labels Gauge) (w : bool)
    (ws : list Worker) (n : nat) : State :=
  {| availabilityMetric := a; durationMetric := d; writer := w;
     readers := readers s; cancelled := cancelled s; ticker := ticker s;
     main := main s; loop := loop s; workers := ws;
     completed := n; probes := probes s; scrapes := scrapes s |}.

(** One step of [performChecks] for the thread that runs it: the next
    control point ([None] when the call returns) and the new state. *)
Definition performChecks (c : ChecksPc) (s : State)
    : option (option ChecksPc * State) :=
  let a := availabilityMetric s in
  let d := durationMetric s in
  match c with
  | CLock =>
      if writer s then None
      else if decide (size (readers s) = 0%nat)
      then Some (Some CResetA, setChecks s a d true (workers s) (completed s))
      else None
  | CResetA =>
      Some (Some CResetD, setChecks s ∅ d (writer s) (workers s) (completed s))
  | CResetD =>
      Some (Some (CSpawn (configs e)),
            setChecks s a ∅ (writer s) [] (completed s))
  | CSpawn (config :: rest) =>
      Some (Some (CSpawn rest),
            setChecks s a d (writer s)
              (workers s ++ [{| wcfg := config; wpc := WProbe |}])
              (completed s))
  | CSpawn [] => Some (Some CWait, s)
  | CWait =>
      if forallb (λ w, isDone (wpc w)) (workers s)
      then Some (Some CUnlock, s)
      else None
  | CUnlock =>
      Some (None, setChecks s a d false [] (S (completed s)))
  end.

Definition setMain (s : State) (m : MainPc) : State :=
  {| availabilityMetric := availabilityMetric s;
     durationMetric := durationMetric s; writer := writer s;
     readers := readers s; cancelled := cancelled s; ticker := ticker s;
     main := m; loop := loop s; workers := workers s;
     completed := completed s; probes := probes s; scrapes := scrapes s |}.

Definition setLoop (s : State) (l : LoopPc) (t : option Z) : State :=
  {| availabilityMetric := availabilityMetric s;
     durationMetric := durationMetric s; writer := writer s;
     readers := readers s; cancelled := cancelled s; ticker := t;
     main := main s; loop := l; workers := workers s;
     completed := completed s; probes := probes s; scrapes := scrapes s |}.

(** [Start], run by its caller. *)
Definition Start (s : State) : option State :=
  match main s with
  | MStart => Some (setMain s (MChecks CLock))
  | MChecks c =>
      match performChecks c s with
      | Some (Some c', s') => Some (setMain s' (MChecks c'))
      | Some (None, s') => Some (setMain s' MGo)
      | None => None
      end
  | MGo => Some (setMain (setLoop s LTicker (ticker s)) MRet)
  | MRet => Some (setMain s MReturned)
  | MReturned => None
  end.

(** The goroutine of [Start], apart from the receive from the ticker. *)
Definition loopStep (s : State) : option State :=
  match loop s with
  | LTicker =>
      if decide (checkInterval e ≤ 0) then Some (setLoop s LPanic None)
      else Some (setLoop s LSelect (Some (checkInterval e)))
  | LSelect =>
      if cancelled s then Some (setLoop s LExit None) else None
  | LChecks c =>
      match performChecks c s with
      | Some (Some c', s') => Some (setLoop s' (LChecks c') (ticker s'))
      | Some (None, s') => Some (setLoop s' LSelect (ticker s'))
      | None => None
      end
  | LNone | LExit | LPanic => None
  end.

Definition tickStep (s : State) : option State :=
  match loop s with
  | LSelect => Some (setLoop s (LChecks CLock) (ticker s))
  | _ => None
  end.

Definition setWorker (s : State) (a d : gmap Labels Gauge) (k : nat)
    (w : Worker) (n : nat) : State :=
  {| availabilityMetric := a; durationMetric := d; writer := writer s;
     readers := readers s; cancelled := cancelled s; ticker := ticker s;
     main := main s; loop := loop s; workers := <[k := w]> (workers s);
     completed := completed s; probes := n; scrapes := scrapes s |}.

(** The goroutine that probes the k-th target of the running cycle. *)
Definition workerStep (k : nat) (s : State) : option State :=
  let cyc := S (completed s) in
  let a := availabilityMetric s in
  let d := durationMetric s in
  match workers s !! k with
  | None => None
  | Some w =>
      let cfg := wcfg w in
      let labels := labelsOf cfg in
      match wpc w with
      | WProbe =>
          let err := mysqlcheck.CheckConnection cfg (db cyc k) in
          let duration := elapsed cyc k in
          Some (setWorker s a d k
                  {| wcfg := cfg; wpc := WSetA err duration |}
                  (S (probes s)))
      | WSetA err duration =>
          let v := match err with Some _ => 0 | None => 1 end in
          Some (setWorker s (<[labels := {| value := v; stamp := cyc |}]> a)
                  d k {| wcfg := cfg; wpc := WSetD duration |} (probes s))
      | WSetD duration =>
          Some (setWorker s a
                  (<[labels := {| value := duration; stamp := cyc |}]> d)
                  k {| wcfg := cfg; wpc := WDone |} (probes s))
      | WDone => None
      end
  end.

Definition setReaders (s : State) (rs : gmap nat (bool * ReaderPc))
    (sc : list Scrape) : State :=
  {| availabilityMetric := availabilityMetric s;
     durationMetric := durationMetric s; writer := writer s;
     readers := rs; cancelled := cancelled s; ticker := ticker s;
     main := main s; loop := loop s; workers := workers s;
     completed := completed s; probes := probes s; scrapes := sc |}.

(** [Collect], called for the j-th scrape.  A vector hands out its
    gauges; a gauge is written only in the cycle that created it
    (Reset drops it from the vector and the next cycle creates new
    ones), so what a scrape gets are the values present at this
    moment. *)
Definition Collect (j : nat) (s : State) : option State :=
  match readers s !! j with
  | None =>
      if writer s then None          (* blocked in e.mu.RLock() *)
      else
        let started := hasReturned (main s) in
        Some (setReaders s (<[j := (started, RLocked)]> (readers s))
                (scrapes s))
  | Some (started, RLocked) =>
      Some (setReaders s
              (<[j := (started, RGotA (availabilityMetric s))]> (readers s))
              (scrapes s))
  | Some (started, RGotA a) =>
      Some (setReaders s
              (<[j := (started, RGotAD a (durationMetric s))]> (readers s))
              (scrapes s))
  | Some (started, RGotAD a d) =>
      Some (setReaders s (delete j (readers s))
              (scrapes s ++ [{| afterStart := started;
                                availability := a; duration := d |}]))
  end.

Definition Stop (s : State) : option State :=
  Some {| availabilityMetric := availabilityMetric s;
          durationMetric := durationMetric s; writer := writer s;
          readers := readers s; cancelled := true; ticker := ticker s;
          main := main s; loop := loop s; workers := workers s;
          completed := completed s; probes := probes s;
          scrapes := scrapes s |}.

(** A panic in any goroutine ends the process: nothing runs after it. *)
Definition step (t : Thread) (s : State) : option State :=
  if hasPanicked (loop s) then None
  else match t with
       | Caller => Start s
       | Loop => loopStep s
       | Tick => tickStep s
       | Prober k => workerStep k s
       | Scraper j => Collect j s
       | Stopper => Stop s
       end.

Definition exec (sched : list Thread) (s : State) : State :=
  foldl (λ s t, default s (step t s)) s sched.
End Exporter.
End metrics.

(** ** Vocabulary of the statements *)

Module props.
Import types mysqlcheck.
Local Open Scope Z_scope.

(** [findSubstring] and [contains], the helpers with which the package's
    tests look for a text inside an error message. *)
Definition findSubstring (s substr : string) : bool :=
  if (String.length s <? String.length substr)%nat then false
  else
    existsb
      (λ i, bool_decide (String.substring i (String.length substr) s = substr))
      (seq 0 (S (String.length s - String.length substr))).

Definition contains (s substr : string) : bool :=
  (String.length substr <=? String.length s)%nat
  && (bool_decide (s = substr)
      || (String.length substr =? 0)%nat
      || ((0 <? String.length s)%nat && (0 <? String.length substr)%nat
          && findSubstring s substr)).

(** Sample targets and driver answers for the concrete runs. *)
Definition target : MysqlConfig :=
  {| Name := "app"; User := "checker"; Pass := "secret";
     Host := "db.internal"; Port := "3306"; TLS := false;
     TLSConfig := None |}.

Definition other : MysqlConfig :=
  {| Name := "shop"; User := "checker"; Pass := "secret";
     Host := "replica.internal"; Port := "3307"; TLS := false;
     TLSConfig := None |}.

Definition serving : Driver :=
  {| RegisterTLSConfig := λ _ _, None; Open := λ _, None;
     QueryContext := λ _, Ok [Ok "users"; Ok "orders"] |}.

Definition refusing : Driver :=
  {| RegisterTLSConfig := λ _ _, None; Open := λ _, None;
     QueryContext := λ _, Err "dial tcp: connection refused" |}.

(** Refuses every probe before the k-th and serves from the k-th on. *)
Definition servingFrom (k : Z) (n : nat) : Driver :=
  if (Z.of_nat n <? k)%Z then refusing else serving.

Section Goroutine.
Variable tries : Z.
Variable db : nat → Driver.

(** The seconds computed for attempt [i], and the duration slept. *)
Definition sleepS (i : Z) : Z := GoInt.add (GoInt.mul 3 i) 1.
Definition backoff (i : Z) : Z := time.seconds (sleepS i).

(** The error of the goroutine's n-th probe. *)
Definition reason (c : MysqlConfig) (n : nat) : string :=
  default "" (CheckConnection c (db n)).

Definition failsAt (c : MysqlConfig) (n : nat) : Prop :=
  is_Some (CheckConnection c (db n)).

Definition succeedsAt (c : MysqlConfig) (n : nat) : Prop :=
  CheckConnection c (db n) = None.

(** The lines written by [j] failed attempts in a row, the first being
    attempt [i] and probe number [S n]. *)
Fixpoint failureLines (c : MysqlConfig) (n : nat) (i : Z) (j : nat)
    : list string :=
  match j with
  | O => []
  | S j' =>
      tryLine c i tries (sleepS i) (reason c (S n))
      :: failureLines c (S n) (i + 1) j'
  end.

(** The arguments of time.Sleep over the same attempts. *)
Fixpoint backoffs (i : Z) (j : nat) : list Z :=
  match j with
  | O => []
  | S j' => backoff i :: backoffs (i + 1) j'
  end.

(** The goroutine after [j] failed attempts in a row from attempt [i]. *)
Definition afterFailures (r : Runner) (i : Z) (j : nat) : Runner :=
  {| cfg := cfg r; pc := AtLoop (i + Z.of_nat j);
     calls := (calls r + j)%nat;
     sleeps := sleeps r ++ backoffs i j;
     stderr := stderr r ++ failureLines (cfg r) (calls r) i j;
     stdout := stdout r |}.

(** The goroutine once it has sent a failure after [j] failed attempts. *)
Definition exhausted (c : MysqlConfig) (j : nat) : Runner :=
  {| cfg := c; pc := GoDone; calls := j;
     sleeps := backoffs 1 j;
     stderr := failureLines c 0 1 j;
     stdout := [] |}.

(** The goroutine once it has sent nil after success on attempt [S j]. *)
Definition succeeded (c : MysqlConfig) (j : nat) : Runner :=
  {| cfg := c; pc := GoDone; calls := S j;
     sleeps := backoffs 1 j;
     stderr := failureLines c 0 1 j;
     stdout := ["Connect success" +:+ newline] |}.
End Goroutine.
End props.

(** Vocabulary for CheckConnections as a whole. *)
Module coordination.
Import types mysqlcheck.

(** A goroutine running alone for [m] of its own steps. *)
Definition solo (tries : Z) (db : nat → Driver) (m : nat) (r : Runner)
    : Runner :=
  Nat.iter m (λ r, from_option fst r (gstep tries db r)) r.

(** How often a schedule picks the coordinator. *)
Fixpoint coPicks (sched : list Thread) : nat :=
  match sched with
  | [] => 0
  | Coordinator :: sched' => S (coPicks sched')
  | Goroutine _ :: sched' => coPicks sched'
  end.

Definition isGoDone (r : Runner) : bool :=
  match pc r with GoDone => true | _ => false end.

(** Goroutines that have sent their value and returned. *)
Definition doneCount (l : list Runner) : nat :=
  length (filter (λ r, isGoDone r = true) l).

(** Targets the coordinator has yet to launch a goroutine for. *)
Definition pending (s : State) : list MysqlConfig :=
  match co s with CoLaunch rest => rest | _ => [] end.

(** What the coordinator has read, by control point. *)
Definition readsSoFar (config : list MysqlConfig) (s : State) : Prop :=
  match co s with
  | CoLaunch _ => received s = []
  | CoRecv rest =>
      (length rest ≤ length config)%nat
      ∧ received s = replicate (length config - length rest) None
  | CoReturned (Some e) =>
      ∃ m, (m < length config)%nat ∧ received s = replicate m None ++ [Some e]
  | CoReturned None => received s = replicate (length config) None
  end.

(** Every goroutine is where it would be had it run alone. *)
Definition undisturbed (tries : Z) (db : nat → nat → Driver) (s : State)
    : Prop :=
  ∀ k r, goroutines s !! k = Some r →
    ∃ m, r = solo tries (db k) m (launch (cfg r)).

(** The bookkeeping that holds in every reachable state. *)
Record consistent (config : list MysqlConfig) (s : State) : Prop := {
  launched : (cfg <$> goroutines s) ++ pending s = config;
  accounted :
    (length (errChan s) + length (received s))%nat = doneCount (goroutines s);
  reads : readsSoFar config s;
  positive :
    ∀ k r i, goroutines s !! k = Some r → pc r = AtLoop i → (1 ≤ i)%Z;
}.

(** With [tries] below one no goroutine has probed, and every value in
    flight is what a goroutine sends on leaving the loop with [i = 1]. *)
Definition untried (config : list MysqlConfig) (tries : Z) (s : State)
    : Prop :=
  (∀ k r, goroutines s !! k = Some r →
     calls r = 0%nat ∧ cfg r ∈ config
     ∧ (pc r = AtLoop 1 ∨ pc r = AtSend 1 ∨ pc r = GoDone))
  ∧ (∀ m, m ∈ errChan s ++ received s →
       ∃ c, c ∈ config ∧ m = verdict tries c 1)
  ∧ (∀ c, c ∈ pending s → c ∈ config).

(** A bound on the steps left to a goroutine, to the coordinator, and to
    the whole of CheckConnections. *)
Definition stepsOfRunner (tries : Z) (r : Runner) : nat :=
  match pc r with
  | AtLoop i => 2 + Z.to_nat (tries + 1 - i)
  | AtSend _ => 1
  | GoDone => 0
  end.

Definition stepsOfCo (config : list MysqlConfig) (c : CoPc) : nat :=
  match c with
  | CoLaunch rest => length rest + 1 + (length config + 1)
  | CoRecv rest => length rest + 1
  | CoReturned _ => 0
  end.

Definition stepsLeft (config : list MysqlConfig) (tries : Z) (s : State)
    : nat :=
  stepsOfCo config (co s)
  + sum_list (stepsOfRunner tries <$> goroutines s)
  + length (pending s) * (2 + Z.to_nat tries).

(** The schedule that launches every goroutine, lets the first one run
    [m] steps and then lets the coordinator take one step. *)
Definition firstOnly (config : list MysqlConfig) (m : nat) : list Thread :=
  replicate (S (length config)) Coordinator
  ++ replicate m (Goroutine 0) ++ [Coordinator].

(** The schedule that launches every goroutine, runs each in turn for
    [m] steps and then lets the coordinator take [n + 1] steps. *)
Definition inTurn (config : list MysqlConfig) (m : nat) : list Thread :=
  replicate (S (length config)) Coordinator
  ++ (seq 0 (length config) ≫= λ k, replicate m (Goroutine k))
  ++ replicate (S (length config)) Coordinator.
End coordination.

(** Vocabulary for the exporter. *)
Module publishing.
Import types metrics.

(** The check the thread inside [performChecks], if any, is at. *)
Definition phase (s : State) : option ChecksPc :=
  match main s, loop s with
  | MChecks c, _ => Some c
  | _, LChecks c => Some c
  | _, _ => None
  end.

(** Every gauge of [m] was written in cycle [n]. *)
Definition stamped (n : nat) (m : gmap Labels Gauge) : Prop :=
  ∀ l g, m !! l = Some g → stamp g = n.

(** [m] has a gauge for the labels of every configured target and for
    nothing else. *)
Definition oneEntryPerTarget (e : MultiMySQLExporter)
    (m : gmap Labels Gauge) : Prop :=
  ∀ l, is_Some (m !! l) ↔ ∃ c, c ∈ configs e ∧ labelsOf c = l.

(** [m] is what cycle [n] left behind: nothing before the first cycle,
    and afterwards one gauge per target, each written in cycle [n]. *)
Definition resultOf (e : MultiMySQLExporter) (n : nat)
    (m : gmap Labels Gauge) : Prop :=
  stamped n m
  ∧ match n with O => m = ∅ | S _ => oneEntryPerTarget e m end.

Definition pastA (p : WorkerPc) : bool :=
  match p with WSetD _ | WDone => true | _ => false end.

(** [m] has a gauge exactly for the workers that are past [f]. *)
Definition covered (f : WorkerPc → bool) (ws : list Worker)
    (m : gmap Labels Gauge) : Prop :=
  ∀ l, is_Some (m !! l)
       ↔ ∃ k w, ws !! k = Some w ∧ f (wpc w) = true ∧ labelsOf (wcfg w) = l.

Definition published (e : MultiMySQLExporter) (s : State) : Prop :=
  resultOf e (completed s) (availabilityMetric s)
  ∧ resultOf e (completed s) (durationMetric s).

(** The vectors while the workers of a cycle fill them. *)
Definition filling (e : MultiMySQLExporter) (rest : list MysqlConfig)
    (s : State) : Prop :=
  (wcfg <$> workers s) ++ rest = configs e
  ∧ stamped (S (completed s)) (availabilityMetric s)
  ∧ stamped (S (completed s)) (durationMetric s)
  ∧ covered pastA (workers s) (availabilityMetric s)
  ∧ covered isDone (workers s) (durationMetric s).

(** The lock, the workers and the vectors at each control point. *)
Definition core (e : MultiMySQLExporter) (ph : option ChecksPc) (s : State)
    : Prop :=
  match ph with
  | None | Some CLock =>
      writer s = false ∧ workers s = [] ∧ published e s
  | Some CResetA => writer s = true ∧ workers s = []
  | Some CResetD =>
      writer s = true ∧ workers s = [] ∧ availabilityMetric s = ∅
  | Some (CSpawn rest) => writer s = true ∧ filling e rest s
  | Some CWait => writer s = true ∧ filling e [] s
  | Some CUnlock =>
      writer s = true ∧ filling e [] s
      ∧ ∀ k w, workers s !! k = Some w → wpc w = WDone
  end.

(** Collect calls in progress exclude the writer and have read the
    vectors as they still are. *)
Definition reading (s : State) : Prop :=
  (writer s = true → readers s = ∅)
  ∧ ∀ j b p, readers s !! j = Some (b, p) →
      (b = true → 1 ≤ completed s)
      ∧ match p with
        | RLocked => True
        | RGotA a => a = availabilityMetric s
        | RGotAD a d => a = availabilityMetric s ∧ d = durationMetric s
        end.

(** What a finished Collect call delivered. *)
Definition wholeCycle (e : MultiMySQLExporter) (done : nat) (sc : Scrape)
    : Prop :=
  ∃ n, n ≤ done
    ∧ resultOf e n (availability sc) ∧ resultOf e n (duration sc)
    ∧ (afterStart sc = true → 1 ≤ n).

Definition scraped (e : MultiMySQLExporter) (s : State) : Prop :=
  ∀ sc, sc ∈ scrapes s → wholeCycle e (completed s) sc.

(** Start runs its cycle before the loop exists. *)
Definition threads (s : State) : Prop :=
  match main s with
  | MStart | MChecks _ => loop s = LNone ∧ completed s = 0
  | MGo => loop s = LNone ∧ 1 ≤ completed s
  | MRet | MReturned => loop s ≠ LNone ∧ 1 ≤ completed s
  end.

Definition ticking (e : MultiMySQLExporter) (s : State) : Prop :=
  (loop s = LPanic → (checkInterval e ≤ 0)%Z)
  ∧ ∀ p, ticker s = Some p → p = checkInterval e ∧ (0 < p)%Z.

Record invariant (e : MultiMySQLExporter) (s : State) : Prop := {
  inv_core : core e (phase s) s;
  inv_reading : reading s;
  inv_scraped : scraped e s;
  inv_threads : threads s;
  inv_ticking : ticking e s;
}.

(** The schedule that runs Start alone over [n] targets: its caller up
    to wg.Wait, each worker in turn through its three steps, and the
    caller to the return of Start. *)
Definition startAlone (n : nat) : list Thread :=
  replicate (5 + n) Caller
  ++ (seq 0 n ≫= λ k, replicate 3 (Prober k))
  ++ replicate 4 Caller.

Definition fresh (c : MysqlConfig) : Worker :=
  {| wcfg := c; wpc := WProbe |}.

Definition finishedWorker (c : MysqlConfig) : Worker :=
  {| wcfg := c; wpc := WDone |}.

(** Start's caller waits in wg.Wait; the workers of [done] are through,
    those of [rest] have not begun. *)
Definition waiting (done rest : list MysqlConfig) (s : State) : Prop :=
  main s = MChecks CWait ∧ loop s = LNone ∧ completed s = 0
  ∧ workers s = (finishedWorker <$> done) ++ (fresh <$> rest).

(** The schedule that brings Start's first cycle to the point where the
    first worker is launched and has yet to probe. *)
Definition firstWorkerLaunched : list Thread :=
  [Caller; Caller; Caller; Caller; Caller].

(** A schedule that runs Start to its return over two targets and then
    serves one scrape. *)
Definition startThenScrape : list Thread :=
  [Caller; Caller; Caller; Caller; Caller; Caller; Caller;
   Prober 0; Prober 1; Prober 0; Prober 1; Prober 0; Prober 1;
   Caller; Caller; Caller; Caller;
   Scraper 0; Scraper 0; Scraper 0; Scraper 0].
End publishing.

(** * The probe, the discovery of targets and the command *)

(** ** The data source of a probe *)

Module probing.
Import types mysqlcheck.

(** The locals [connectString] and [tlsConfigName] of
    [CheckConnection], and the string handed to [sql.Open]. *)
Definition connectString (config : MysqlConfig) : string :=
  User config +:+ ":" +:+ Pass config +:+ "@tcp(" +:+ Host config
  +:+ ":" +:+ Port config +:+ ")/" +:+ Name config.

Definition tlsConfigName (config : MysqlConfig) : string :=
  "custom-tls-" +:+ Host config +:+ "-" +:+ Name config.

Definition dataSourceName (config : MysqlConfig) : string :=
  if TLS config
  then connectString config +:+ "?tls=" +:+ tlsConfigName config
  else connectString config.

(** The driver error behind a failed probe: the answer of the first
    driver call that fails, in the order register, open, query, scan. *)
Inductive cause (config : MysqlConfig) (db : Driver) (err : string) : Prop :=
| register_failed :
    TLS config = true →
    RegisterTLSConfig db (tlsConfigName config) (TLSConfig config) = Some err →
    cause config db err
| open_failed :
    (TLS config = true →
     RegisterTLSConfig db (tlsConfigName config) (TLSConfig config) = None) →
    Open db (dataSourceName config) = Some err →
    cause config db err
| query_failed :
    (TLS config = true →
     RegisterTLSConfig db (tlsConfigName config) (TLSConfig config) = None) →
    Open db (dataSourceName config) = None →
    QueryContext db query = Err err →
    cause config db err
| scan_failed (names : list string) (rest : list (result string)) :
    (TLS config = true →
     RegisterTLSConfig db (tlsConfigName config) (TLSConfig config) = None) →
    Open db (dataSourceName config) = None →
    QueryContext db query = Ok ((Ok <$> names) ++ Err err :: rest) →
    cause config db err.
End probing.

(** ** Discovery of the targets: util.GetAllMysqlConfigsFromEnvs *)

Module discovery.
Import types util.
Local Open Scope Z_scope.

Section Environment.
Variable parsePEM : string → list string.
Variable env : gmap string string.
Variable reader : FileReader.

(** The loop [for i := 0; true; i++] from index [i] on, with the
    configurations appended so far; [None] when the fuel runs out
    before the loop is left. *)
Fixpoint readIndexed (fuel : nat) (i : Z) (configs : list MysqlConfig)
    : option (outcome (list MysqlConfig)) :=
  match fuel with
  | O => None
  | S fuel' =>
      match getMysqlConfigFromEnvsByIndex parsePEM env reader i with
      | Exit code msg => Some (Exit code msg)
      | Ret (Err _) => Some (Ret configs)
      | Ret (Ok config) =>
          readIndexed fuel' (GoInt.add i 1) (configs ++ [config])
      end
  end.

(** The test on the configuration read from the plain variables. *)
Definition complete (config : MysqlConfig) : bool :=
  bool_decide (Name config ≠ "" ∧ User config ≠ "" ∧ Pass config ≠ ""
               ∧ Host config ≠ "" ∧ Port config ≠ "").

(** What is printed for the configurations found. *)
Definition listing (config : MysqlConfig) : string :=
  " - " +:+ User config +:+ "@" +:+ Host config +:+ ":" +:+ Port config
  +:+ "/" +:+ Name config +:+ newline.

Definition announce (configs : list MysqlConfig) : list string :=
  if decide (0 < length configs)%nat
  then ("Discovered MySQL configurations from environment variables:"
        +:+ newline) :: (listing <$> configs)
  else [].

(** The configurations returned and the lines written to stdout. *)
Definition GetAllMysqlConfigsFromEnvs (fuel : nat)
    : option (outcome (list MysqlConfig * list string)) :=
  match readIndexed fuel 0 [] with
  | None => None
  | Some (Exit code msg) => Some (Exit code msg)
  | Some (Ret configs) =>
      match getMysqlConfigFromEnvs parsePEM env reader with
      | Exit code msg => Some (Exit code msg)
      | Ret config =>
          let configs :=
            if complete config then configs ++ [config] else configs in
          Some (Ret (configs, announce configs))
      end
  end.

(** The variable names of the target with index [i]. *)
Definition indexedKey (field : string) (i : Z) : string :=
  field +:+ pretty i.

(** The four variables whose absence ends the indexed loop. *)
Definition present (i : Z) : Prop :=
  Getenv env (indexedKey "MYSQL_NAME_" i) ≠ ""
  ∧ Getenv env (indexedKey "MYSQL_USER_" i) ≠ ""
  ∧ Getenv env (indexedKey "MYSQL_PASS_" i) ≠ ""
  ∧ Getenv env (indexedKey "MYSQL_HOST_" i) ≠ "".

(** The path of the CA file of the target with index [i]. *)
Definition capathOf (i : Z) : string :=
  GetEnvString env (indexedKey "MYSQL_TLS_CA_FILE_" i)
               "/etc/ssl/certs/ca-certificates.crt".
End Environment.
End discovery.

(** ** What the values on the channel of CheckConnections stand for *)

Module provenance.
Import types mysqlcheck props coordination.
Local Open Scope Z_scope.

(** The goroutine has printed "Connect success". *)
Definition won (r : Runner) : bool :=
  match stdout r with [] => false | _ :: _ => true end.

(** The goroutine has returned without a successful probe. *)
Definition lost (r : Runner) : bool := isGoDone r && negb (won r).

Definition lostCount (l : list Runner) : nat :=
  length (filter (λ r, lost r = true) l).

(** The non-nil values among those sent. *)
Definition failures (l : list (option string)) : nat :=
  length (filter is_Some l).

(** What the state of a goroutine tells about the probes it made. *)
Definition story (tries : Z) (db : nat → Driver) (r : Runner) : Prop :=
  Z.of_nat (calls r) ≤ tries
  ∧ (∀ n, (1 ≤ n < calls r)%nat → failsAt db (cfg r) n)
  ∧ if won r
    then (1 ≤ calls r)%nat ∧ succeedsAt db (cfg r) (calls r)
         ∧ (pc r = AtSend (Z.of_nat (calls r)) ∨ pc r = GoDone)
    else ((1 ≤ calls r)%nat → failsAt db (cfg r) (calls r))
         ∧ match pc r with
           | AtLoop i => i = Z.of_nat (calls r) + 1
           | AtSend i => i = tries + 1 ∧ Z.of_nat (calls r) = tries
           | GoDone => Z.of_nat (calls r) = tries
           end.

(** The bookkeeping that needs no bound on [tries]. *)
Record booked (config : list MysqlConfig) (s : State) : Prop := {
  bookLaunched : (cfg <$> goroutines s) ++ pending s = config;
  bookSent :
    (length (errChan s) + length (received s))%nat
    = doneCount (goroutines s);
  bookReads : readsSoFar config s;
}.

(** Every goroutine has its story, and the failures sent so far are
    those of the goroutines that returned without success. *)
Record honest (tries : Z) (db : nat → nat → Driver) (s : State) : Prop := {
  stories : ∀ k r, goroutines s !! k = Some r → story tries (db k) r;
  failuresSent :
    failures (errChan s ++ received s) = lostCount (goroutines s);
  named :
    ∀ e, Some e ∈ errChan s ++ received s →
      ∃ k r, goroutines s !! k = Some r ∧ lost r = true
             ∧ e = attemptsFailed (cfg r);
}.
End provenance.

(** ** What the gauges of the exporter stand for *)

Module auditing.
Import types metrics publishing.

Definition pastProbe (p : WorkerPc) : bool :=
  match p with WProbe => false | _ => true end.

(** Workers of the running cycle that have called CheckConnection. *)
Definition probedNow (ws : list Worker) : nat :=
  length (filter (λ w, pastProbe (wpc w) = true) ws).

Section Audit.
Variable e : MultiMySQLExporter.
Variable db : nat → nat → mysqlcheck.Driver.
Variable elapsed : nat → nat → Z.

(** The value [Set] on the availability gauge after the probe of the
    k-th target in cycle [cyc]. *)
Definition outcome (cyc k : nat) (c : MysqlConfig) : Z :=
  match mysqlcheck.CheckConnection c (db cyc k) with
  | Some _ => 0%Z
  | None => 1%Z
  end.

(** Every gauge of [m] holds the outcome of the probe, in the cycle
    that wrote it, of a configured target with the gauge's labels. *)
Definition truthful (m : gmap Labels Gauge) : Prop :=
  ∀ l g, m !! l = Some g →
    ∃ k c, configs e !! k = Some c ∧ labelsOf c = l
           ∧ value g = outcome (stamp g) k c.

(** Likewise for the time the probe took. *)
Definition timed (m : gmap Labels Gauge) : Prop :=
  ∀ l g, m !! l = Some g →
    ∃ k c, configs e !! k = Some c ∧ labelsOf c = l
           ∧ value g = elapsed (stamp g) k.

(** The k-th worker probes the k-th target and carries what its probe
    returned. *)
Definition measured (s : State) : Prop :=
  ∀ k w, workers s !! k = Some w →
    configs e !! k = Some (wcfg w)
    ∧ match wpc w with
      | WSetA err d =>
          err = mysqlcheck.CheckConnection (wcfg w)
                  (db (S (completed s)) k)
          ∧ d = elapsed (S (completed s)) k
      | WSetD d => d = elapsed (S (completed s)) k
      | _ => True
      end.

Record audited (s : State) : Prop := {
  counted :
    probes s
    = (completed s * length (configs e) + probedNow (workers s))%nat;
  aud_measured : measured s;
  aud_availability : truthful (availabilityMetric s);
  aud_duration : timed (durationMetric s);
  aud_scrapes :
    ∀ sc, sc ∈ scrapes s →
      truthful (availability sc) ∧ timed (duration sc);
}.

(** The loop has not got past the creation of its ticker. *)
Definition tickless (s : State) : Prop :=
  (loop s = LNone ∨ loop s = LTicker ∨ loop s = LPanic)
  ∧ ticker s = None
  ∧ (completed s ≤ 1)%nat
  ∧ match main s with
    | MStart | MChecks _ => True
    | _ => completed s = 1%nat
    end.

(** What stays as it is once the loop has returned. *)
Definition frozen (s s' : State) : Prop :=
  loop s' = LExit ∧ cancelled s' = true
  ∧ completed s' = completed s ∧ probes s' = probes s
  ∧ availabilityMetric s' = availabilityMetric s
  ∧ durationMetric s' = durationMetric s.
End Audit.
End auditing.

(** ** package net/url (the part the command touches) *)

Module url.
(** [url.URL]: the two fields the command reads. *)
Record URL := {
  Path : string;
  Host : string;
}.
End url.

(** ** package main *)

Module command.
Import types util.
Local Open Scope Z_scope.

(** The double quote written as a backslash escape in the Go source. *)
Definition quote : string := String (Ascii.ascii_of_nat 34) EmptyString.

(** The byte '/'. *)
Definition slash : Ascii.ascii := Ascii.ascii_of_nat 47.

(** The answers of the libraries and servers the command talks to.  The
    index of [NewClient], [Connect] and [ListCollectionNames] is the
    number of the loop iteration that makes the call (1, 2, ...). *)
Record World := {
  (* strconv.Atoi *)
  Atoi : string → result Z;
  (* url.Parse *)
  Parse : string → result url.URL;
  (* mongo.NewClient(options.Client().ApplyURI(uri)) *)
  NewClient : nat → string → option string;
  (* client.Connect(ctx) *)
  Connect : nat → option string;
  (* client.Database(dbName).ListCollectionNames(ctx, bson.D{}) *)
  ListCollectionNames : nat → string → option string;
  (* http.ListenAndServe(addr, nil): the error it returns, or [None]
     while it keeps serving *)
  ListenAndServe : string → option string;
}.

(** How the process ends, or what it is doing. *)
Inductive ending :=
| Returned                   (* main returns: exit status 0 *)
| Exited (code : Z)          (* os.Exit(code) *)
| Panicked                   (* index out of range on an empty string *)
| Serving (e : metrics.MultiMySQLExporter) (addr : string)
                             (* Start was called and the server runs *)
| Running.                   (* CheckConnections has not returned *)

(** What the MongoDB loop has done so far. *)
Record Log := {
  stderr : list string;
  stdout : list string;
  sleeps : list Z;           (* arguments of time.Sleep *)
  contacts : nat;            (* mongo.NewClient calls *)
}.

Definition quiet : Log :=
  {| stderr := []; stdout := []; sleeps := []; contacts := 0 |}.

Definition complain (l : Log) (line : string) : Log :=
  {| stderr := stderr l ++ [line]; stdout := stdout l;
     sleeps := sleeps l; contacts := contacts l |}.

(** A failed attempt: the line on stderr and the sleep. *)
Definition retry (l : Log) (line : string) (sleep : Z) : Log :=
  {| stderr := stderr l ++ [line]; stdout := stdout l;
     sleeps := sleeps l ++ [sleep]; contacts := contacts l |}.

Definition contacted (l : Log) : Log :=
  {| stderr := stderr l; stdout := stdout l;
     sleeps := sleeps l; contacts := S (contacts l) |}.

Definition succeed (l : Log) : Log :=
  {| stderr := stderr l; stdout := stdout l ++ ["Connect success" +:+ newline];
     sleeps := sleeps l; contacts := contacts l |}.

Section Main.
Variable parsePEM : string → list string.
Variable env : gmap string string.
Variable reader : FileReader.
Variable w : World.
(** [db k n] answers the n-th probe of the k-th MySQL target. *)
Variable db : nat → nat → mysqlcheck.Driver.

(** [util.GetEnvNumber] *)
Definition GetEnvNumber (key : string) (defaultValue : Z) : outcome Z :=
  let value := Getenv env key in
  if decide (value = "") then Ret defaultValue
  else
    match Atoi w value with
    | Ok num => Ret num
    | Err err =>
        Exit 1 ("Error converting env " +:+ key +:+ " value " +:+ value
                +:+ " to number: " +:+ err +:+ newline)
    end.

Section Mongo.
Variable mongoUri : string.
Variable tries : Z.

(** After the loop: the test [i == tries+1]. *)
Definition afterLoop (i : Z) (l : Log) : ending * Log :=
  if i =? GoInt.add tries 1
  then (Exited 2, complain l "Connection attempts have failed")
  else (Returned, l).

(** The loop [for i = 1; i <= tries; i += 1] from the test on;
    [n] iterations have been run.  [None] when the fuel runs out. *)
Fixpoint mongoLoop (fuel : nat) (i : Z) (n : nat) (l : Log)
    : option (ending * Log) :=
  match fuel with
  | O => None
  | S fuel' =>
      if i <=? tries then
        let sleepS := GoInt.add (GoInt.mul 3 i) 1 in
        let sleep := time.seconds sleepS in
        match Parse w mongoUri with
        | Err err =>
            Some (Exited 1,
                  complain l ("Error: cannot get db from uri: "
                              +:+ err +:+ newline))
        | Ok u =>
            match url.Path u with
            | EmptyString => Some (Panicked, l)
            | String c rest =>
                let dbName :=
                  if decide (c = slash) then rest else url.Path u in
                match NewClient w (S n) mongoUri with
                | Some err =>
                    mongoLoop fuel' (GoInt.add i 1) (S n)
                      (retry (contacted l)
                         ("Try (" +:+ pretty i +:+ "/" +:+ pretty tries
                          +:+ ") sleep " +:+ pretty sleepS
                          +:+ " seconds error mongodb connect to '"
                          +:+ url.Host u +:+ "': " +:+ err +:+ newline)
                         sleep)
                | None =>
                    match Connect w (S n) with
                    | Some err =>
                        Some (Exited 1,
                              complain (contacted l)
                                ("Error cannot create context "
                                 +:+ err +:+ newline))
                    | None =>
                        match ListCollectionNames w (S n) dbName with
                        | Some err =>
                            mongoLoop fuel' (GoInt.add i 1) (S n)
                              (retry (contacted l)
                                 ("Try (" +:+ pretty i +:+ "/"
                                  +:+ pretty tries +:+ ") sleep "
                                  +:+ pretty sleepS
                                  +:+ " seconds error list collections: "
                                  +:+ err +:+ newline)
                                 sleep)
                        | None =>
                            Some (afterLoop i (succeed (contacted l)))
                        end
                    end
                end
            end
        end
      else Some (afterLoop i l)
  end.
End Mongo.

(** [main] under the schedule [sched] of CheckConnections: how it
    ends, what it has written to stderr itself and what the MongoDB
    loop has done.  The lines of the goroutines of CheckConnections
    are in their states; the announcement of the targets and the two
    lines printed before the server starts are left out.  [None]
    when the fuel runs out. *)
Definition main (fuel : nat) (sched : list mysqlcheck.Thread)
    : option (ending * Log) :=
  let dbType := GetEnvString env "DB_TYPE" "mysql" in
  let exporterEnabled := GetEnvBool env "EXPORTER" false in
  match discovery.GetAllMysqlConfigsFromEnvs parsePEM env reader fuel with
  | None => None
  | Some (Exit code msg) => Some (Exited code, complain quiet msg)
  | Some (Ret (mysqlConfigs, _)) =>
      let mongoUri := Getenv env "MONGODB_URI" in
      if bool_decide (mongoUri = "" ∧ dbType = "mongodb") then
        Some (Exited 1,
              complain quiet
                (quote +:+ "MONGODB_URI" +:+ quote +:+ " not set, but "
                 +:+ quote +:+ "DB_TYPE" +:+ quote +:+ " is set "
                 +:+ quote +:+ "mongodb" +:+ quote))
      else
        match GetEnvNumber "TRIES" 10 with
        | Exit code msg => Some (Exited code, complain quiet msg)
        | Ret tries =>
            if exporterEnabled then
              match GetEnvNumber "CHECK_INTERVAL" 30 with
              | Exit code msg => Some (Exited code, complain quiet msg)
              | Ret checkIntervalSeconds =>
                  let checkInterval := time.seconds checkIntervalSeconds in
                  let mysqlExporter :=
                    metrics.NewMultiMySQLExporter mysqlConfigs
                                                  checkInterval in
                  let port := GetEnvString env "EXPORTER_PORT" "38080" in
                  let addr := ":" +:+ port in
                  match ListenAndServe w addr with
                  | Some err =>
                      Some (Exited 1,
                            complain quiet
                              ("Error starting HTTP server: " +:+ err
                               +:+ newline))
                  | None => Some (Serving mysqlExporter addr, quiet)
                  end
              end
            else
              match mysqlcheck.CheckConnections mysqlConfigs tries db
                                                sched with
              | None => Some (Running, quiet)
              | Some (Some err) =>
                  Some (Exited 1,
                        complain quiet ("Error: " +:+ err +:+ newline))
              | Some None =>
                  if decide (dbType = "mongodb")
                  then mongoLoop mongoUri tries fuel 1 0 quiet
                  else Some (Returned, quiet)
              end
        end
  end.
End Main.

(** Vocabulary of the statements about the MongoDB loop. *)
Section Attempts.
Variable w : World.
Variable mongoUri : string.

(** The database name taken from the path of the URI. *)
Definition dbNameOf (u : url.URL) : string :=
  match url.Path u with
  | EmptyString => EmptyString
  | String c rest => if decide (c = slash) then rest else url.Path u
  end.

(** The n-th iteration reaches the server and lists its collections. *)
Definition answers (u : url.URL) (n : nat) : Prop :=
  NewClient w n mongoUri = None
  ∧ ListCollectionNames w n (dbNameOf u) = None.
End Attempts.
End command.

(** ** Sample environments for the concrete runs *)

Module samples.
Import types util command.
Local Open Scope Z_scope.

(** No file can be read. *)
Definition noFiles : FileReader :=
  λ _, Err "open: no such file or directory".

Definition noCerts : string → list string := λ _, [].

Definition first : MysqlConfig :=
  {| Name := "app"; User := "checker"; Pass := "secret";
     Host := "db.internal"; Port := "3306"; TLS := false;
     TLSConfig := None |}.

(** Index 0 is configured, index 1 is not, index 2 is. *)
Definition gapEnv : gmap string string :=
  list_to_map
    [("MYSQL_NAME_0", "app"); ("MYSQL_USER_0", "checker");
     ("MYSQL_PASS_0", "secret"); ("MYSQL_HOST_0", "db.internal");
     ("MYSQL_NAME_2", "shop"); ("MYSQL_USER_2", "checker");
     ("MYSQL_PASS_2", "secret"); ("MYSQL_HOST_2", "replica.internal")].

(** What the plain variables of [gapEnv] give. *)
Definition unnamed : MysqlConfig :=
  {| Name := ""; User := ""; Pass := ""; Host := ""; Port := "3306";
     TLS := false; TLSConfig := None |}.

(** Nothing but the TLS switch of index 0. *)
Definition tlsOnlyEnv : gmap string string :=
  list_to_map [("MYSQL_TLS_0", "true")].

(** A MongoDB check with a negative number of tries. *)
Definition negativeTriesEnv : gmap string string :=
  list_to_map
    [("DB_TYPE", "mongodb"); ("MONGODB_URI", "mongodb://db.internal/app");
     ("TRIES", "-1");
     ("MYSQL_NAME", "app"); ("MYSQL_USER", "checker");
     ("MYSQL_PASS", "secret"); ("MYSQL_HOST", "db.internal")].


(** The exporter with a negative interval. *)
Definition negativeIntervalEnv : gmap string string :=
  list_to_map
    [("EXPORTER", "true"); ("CHECK_INTERVAL", "-5");
     ("MYSQL_NAME", "app"); ("MYSQL_USER", "checker");
     ("MYSQL_PASS", "secret"); ("MYSQL_HOST", "db.internal")].

Definition appUrl : url.URL :=
  {| url.Path := "/app"; url.Host := "db.internal" |}.

(** A world whose MongoDB server answers from the second attempt on. *)
Definition world : World :=
  {| Atoi := λ s,
       if decide (s = "0") then Ok 0
       else if decide (s = "-1") then Ok (-1)
       else if decide (s = "-5") then Ok (-5)
       else Err ("strconv.Atoi: parsing: invalid syntax");
     Parse := λ uri,
       if decide (uri = "mongodb://db.internal/app") then Ok appUrl
       else if decide (uri = "mongodb://db.internal")
       then Ok {| url.Path := ""; url.Host := "db.internal" |}
       else Err "parse: missing protocol scheme";
     NewClient := λ _ _, None;
     Connect := λ _, None;
     ListCollectionNames := λ n _,
       if decide (n < 2)%nat then Some "server selection timeout" else None;
     ListenAndServe := λ _, None |}.

(** A world in which client.Connect fails. *)
Definition refused : World :=
  {| Atoi := Atoi world; Parse := Parse world;
     NewClient := NewClient world;
     Connect := λ _, Some "connection refused";
     ListCollectionNames := ListCollectionNames world;
     ListenAndServe := ListenAndServe world |}.

(** Start run alone over two targets, the loop up to its select, Stop,
    and the loop's return. *)
Definition startThenStop : list metrics.Thread :=
  publishing.startAlone 2 ++ [metrics.Loop; metrics.Stopper; metrics.Loop].
End samples.

(** * Properties *)

(** ** Machine arithmetic *)

Section GoIntFacts.
Local Open Scope Z_scope.

Lemma wrap_in_range z : GoInt.in_range (GoInt.wrap z).
Proof.
  unfold GoInt.in_range, GoInt.wrap, GoInt.min_int, GoInt.max_int.
  pose proof (Z.mod_pos_bound (z + 2 ^ 63) (2 ^ 64)) as H. lia.
Qed.

Lemma wrap_id z : GoInt.in_range z → GoInt.wrap z = z.
Proof.
  unfold GoInt.in_range, GoInt.wrap, GoInt.min_int, GoInt.max_int.
  intros H. rewrite Z.mod_small; lia.
Qed.

Lemma add_one i : GoInt.min_int ≤ i < GoInt.max_int → GoInt.add i 1 = i + 1.
Proof.
  intros H. apply wrap_id. unfold GoInt.in_range, GoInt.min_int, GoInt.max_int in *. lia.
Qed.

Lemma add_one_max : GoInt.add GoInt.max_int 1 = GoInt.min_int.
Proof. reflexivity. Qed.

(** Up to attempt 3074457345 the backoff is the intended number of
    nanoseconds. *)
Lemma backoff_exact i :
  0 ≤ i ≤ 3074457345 → props.backoff i = (3 * i + 1) * time.Second.
Proof.
  intros H. unfold props.backoff, props.sleepS, time.seconds, GoInt.add, GoInt.mul.
  rewrite (wrap_id (3 * i)), (wrap_id (3 * i + 1)), wrap_id; [done|..];
    unfold GoInt.in_range, GoInt.min_int, GoInt.max_int, time.Second; lia.
Qed.

(** At attempt 3074457346 the multiplication by [time.Second] overflows. *)
Lemma backoff_overflow :
  props.backoff 3074457346 = -9223372034709551616.
Proof. reflexivity. Qed.
End GoIntFacts.

(** ** The goroutine of one target, run alone *)

Section GoroutineFacts.
Import types mysqlcheck props.
Local Open Scope Z_scope.

Variable tries : Z.
Variable db : nat → Driver.

Lemma afterFailures_0 r i : pc r = AtLoop i → afterFailures tries db r i 0 = r.
Proof.
  destruct r; simpl; intros ->. unfold afterFailures; simpl.
  rewrite !app_nil_r, Z.add_0_r, Nat.add_0_r. done.
Qed.

(** A failed attempt below the bound costs one unit of fuel and moves the
    goroutine to the next attempt. *)
Lemma failure_step r i :
  pc r = AtLoop i → i ≤ tries → GoInt.min_int ≤ i < GoInt.max_int →
  failsAt db (cfg r) (S (calls r)) →
  iteration tries db i r = afterFailures tries db r i 1.
Proof.
  intros Hpc Hi Hr [err Herr]. unfold iteration.
  rewrite (proj2 (Z.leb_le _ _) Hi), Herr, add_one by done.
  unfold afterFailures; simpl. unfold reason. rewrite Herr, Nat.add_1_r.
  done.
Qed.

Lemma afterFailures_S r i j :
  afterFailures tries db (afterFailures tries db r i 1) (i + 1) j
  = afterFailures tries db r i (S j).
Proof.
  unfold afterFailures; simpl. f_equal.
  - f_equal. lia.
  - lia.
  - by rewrite <- app_assoc.
  - rewrite <- app_assoc. simpl. by rewrite Nat.add_1_r.
Qed.

Lemma failures_run j : ∀ r i fuel,
  pc r = AtLoop i → GoInt.min_int ≤ i →
  i + Z.of_nat j ≤ tries + 1 → i + Z.of_nat j ≤ GoInt.max_int →
  (∀ n, (calls r < n ≤ calls r + j)%nat → failsAt db (cfg r) n) →
  goroutine tries db (j + fuel) r
  = goroutine tries db fuel (afterFailures tries db r i j).
Proof.
  induction j as [|j IH]; intros r i fuel Hpc Hlo Hhi Hmax Hfail.
  - by rewrite afterFailures_0.
  - simpl. rewrite Hpc, failure_step; [|done|lia|lia|apply Hfail; lia].
    rewrite (IH _ (i + 1)); [by rewrite afterFailures_S|simpl; f_equal; lia|lia|lia|lia|].
    simpl. intros n Hn. apply Hfail. lia.
Qed.
End GoroutineFacts.

Section RetryRunner.
Import types mysqlcheck props.
Local Open Scope Z_scope.

Lemma backoffs_fmap i j : backoffs i j = backoff <$> seqZ i (Z.of_nat j).
Proof.
  revert i. induction j as [|j IH]; intros i; [done|].
  rewrite seqZ_cons by lia. simpl. rewrite IH. do 3 f_equal. lia.
Qed.

Lemma length_backoffs i j : length (backoffs i j) = j.
Proof. rewrite backoffs_fmap, length_fmap, length_seqZ. lia. Qed.

Lemma backoffs_exact j :
  Z.of_nat j ≤ 3074457345 →
  backoffs 1 j = (λ i, (3 * i + 1) * time.Second) <$> seqZ 1 (Z.of_nat j).
Proof.
  intros Hj. rewrite backoffs_fmap. apply list_eq. intros n.
  rewrite !list_lookup_fmap.
  destruct (seqZ 1 (Z.of_nat j) !! n) as [i|] eqn:Hn; [|done].
  apply lookup_seqZ in Hn. simpl. rewrite backoff_exact; [done|lia].
Qed.

(** All attempts fail: the goroutine probes [tries] times, leaves the
    loop with [i = tries + 1] and sends the failure. *)
Lemma exhausted_run (c : MysqlConfig) (tries : Z) (db : nat → Driver) (extra : nat) :
  0 ≤ tries < GoInt.max_int →
  (∀ n, (1 ≤ n ≤ Z.to_nat tries)%nat → failsAt db c n) →
  goroutine tries db (Z.to_nat tries + (2 + extra)) (launch c)
  = Some (exhausted tries db c (Z.to_nat tries), Some (attemptsFailed c)).
Proof.
  intros Htries Hfail.
  rewrite (failures_run tries db _ _ 1); simpl;
    [|done|unfold GoInt.min_int; lia|lia|lia|intros; apply Hfail; lia].
  unfold iteration; simpl.
  destruct (Z.leb_spec (1 + Z.of_nat (Z.to_nat tries)) tries) as [?|_]; [lia|].
  simpl. unfold finished, verdict, exhausted; simpl.
  rewrite add_one by (unfold GoInt.min_int; lia).
  rewrite (proj2 (Z.eqb_eq _ _)) by lia. done.
Qed.

(** Attempts 1 .. k-1 fail and attempt k succeeds: the goroutine probes
    k times, breaks out of the loop and sends nil. *)
Lemma succeeded_run (c : MysqlConfig) (tries : Z) (db : nat → Driver) (k : Z) (extra : nat) :
  1 ≤ k ≤ tries → tries ≤ GoInt.max_int →
  (∀ n, (1 ≤ n < Z.to_nat k)%nat → failsAt db c n) →
  succeedsAt db c (Z.to_nat k) →
  goroutine tries db (Z.to_nat (k - 1) + (2 + extra)) (launch c)
  = Some (succeeded tries db c (Z.to_nat (k - 1)), None).
Proof.
  intros Hk Htries Hfail Hok. unfold succeedsAt in Hok.
  rewrite (failures_run tries db _ _ 1); simpl;
    [|done|unfold GoInt.min_int; lia|lia|lia|intros; apply Hfail; lia].
  unfold iteration; simpl.
  replace (1 + Z.of_nat (Z.to_nat (k - 1))) with k by lia.
  rewrite (proj2 (Z.leb_le _ _)) by lia.
  replace (S (Z.to_nat (k - 1))) with (Z.to_nat k) by lia.
  rewrite Hok. simpl. unfold finished, verdict, succeeded; simpl.
  assert (GoInt.add tries 1 ≠ k) as Hne.
  { destruct (decide (tries = GoInt.max_int)) as [->|].
    - rewrite add_one_max. unfold GoInt.min_int. lia.
    - rewrite add_one by (unfold GoInt.min_int; lia). lia. }
  rewrite (proj2 (Z.eqb_neq _ _)) by done.
  do 3 f_equal. lia.
Qed.

(** With [tries] at the largest int the test [i <= tries] never fails:
    while probes keep failing the goroutine never leaves the loop. *)
Lemma never_exhausted (c : MysqlConfig) (db : nat → Driver) :
  (∀ n, failsAt db c n) →
  ∀ fuel r i, cfg r = c → pc r = AtLoop i → GoInt.in_range i →
    goroutine GoInt.max_int db fuel r = None.
Proof.
  intros Hfail. induction fuel as [|fuel IH]; intros r i Hc Hpc Hi; [done|].
  simpl. rewrite Hpc. unfold iteration.
  rewrite (proj2 (Z.leb_le _ _)) by apply Hi.
  destruct (Hfail (S (calls r))) as [err Herr]. rewrite Hc, Herr.
  eapply IH; simpl; [done|done|apply wrap_in_range].
Qed.

Lemma refusing_fails (c : MysqlConfig) :
  TLS c = false → is_Some (CheckConnection c refusing).
Proof. intros H. unfold CheckConnection. rewrite H. simpl. eauto. Qed.

Lemma serving_succeeds (c : MysqlConfig) : CheckConnection c serving = None.
Proof. unfold CheckConnection. by destruct (TLS c). Qed.

Lemma servingFrom_fails (c : MysqlConfig) k n :
  TLS c = false → Z.of_nat n < k → failsAt (servingFrom k) c n.
Proof.
  intros H Hn. unfold failsAt, servingFrom.
  rewrite (proj2 (Z.ltb_lt _ _)) by done. by apply refusing_fails.
Qed.

Lemma servingFrom_succeeds (c : MysqlConfig) k n :
  k ≤ Z.of_nat n → succeedsAt (servingFrom k) c n.
Proof.
  intros Hn. unfold succeedsAt, servingFrom.
  rewrite (proj2 (Z.ltb_ge _ _)) by done. apply serving_succeeds.
Qed.
End RetryRunner.

Section RetryRunnerClaims.
Import types mysqlcheck props.
Local Open Scope Z_scope.

(** Two refused attempts out of two, run on the sample target. *)
Example two_refused_attempts :
  goroutine 2 (λ _, refusing) 4 (launch target)
  = Some ({| cfg := target; pc := GoDone; calls := 2;
             sleeps := [4 * time.Second; 7 * time.Second];
             stderr :=
               ["[db.internal:3306/app] Try (1/2) sleep 4 seconds error: "
                +:+ "error getting tables: Func GetSQLTables() error: "
                +:+ "query: 'SHOW TABLES': dial tcp: connection refused"
                +:+ newline;
                "[db.internal:3306/app] Try (2/2) sleep 7 seconds error: "
                +:+ "error getting tables: Func GetSQLTables() error: "
                +:+ "query: 'SHOW TABLES': dial tcp: connection refused"
                +:+ newline];
             stdout := [] |},
          Some "[db.internal:app/3306] connection attempts have failed").
Proof. reflexivity. Qed.

(** Success on the third attempt out of five. *)
Example third_attempt_succeeds :
  goroutine 5 (servingFrom 3) 4 (launch target)
  = Some ({| cfg := target; pc := GoDone; calls := 3;
             sleeps := [4 * time.Second; 7 * time.Second];
             stderr := failureLines 5 (servingFrom 3) target 0 1 2;
             stdout := ["Connect success" +:+ newline] |},
          None).
Proof. reflexivity. Qed.

(** C4, as amended.  When the probe of a target fails on every one of
    its [tries] attempts (0 <= tries < 2^63 - 1), the goroutine of that
    target returns, having called the probe exactly [tries] times and
    slept after each call, and it sends the failure [attemptsFailed c]:
    a text made of the target's host, port and name fields and the
    phrase "connection attempts have failed", in which no attempt's
    failure reason occurs.  The reasons are written to stderr only, one
    line per failed attempt. *)
Theorem exhausted_retries (c : MysqlConfig) (tries : Z) (db : nat → Driver)
    (fuel : nat) :
  0 ≤ tries < GoInt.max_int →
  (∀ n, (1 ≤ n ≤ Z.to_nat tries)%nat → failsAt db c n) →
  (Z.to_nat tries + 2 ≤ fuel)%nat →
  ∃ r, goroutine tries db fuel (launch c) = Some (r, Some (attemptsFailed c))
    ∧ calls r = Z.to_nat tries
    ∧ length (sleeps r) = Z.to_nat tries
    ∧ stderr r = failureLines tries db c 0 1 (Z.to_nat tries).
Proof.
  intros Htries Hfail Hfuel.
  exists (exhausted tries db c (Z.to_nat tries)).
  replace fuel with (Z.to_nat tries + (2 + (fuel - (Z.to_nat tries + 2))))%nat
    by lia.
  rewrite exhausted_run by done.
  simpl. by rewrite length_backoffs.
Qed.

Lemma exhausted_retries_witness :
  ∃ r, goroutine 2 (λ _, refusing) 4 (launch target)
       = Some (r, Some (attemptsFailed target))
    ∧ calls r = 2%nat
    ∧ length (sleeps r) = 2%nat
    ∧ stderr r = failureLines 2 (λ _, refusing) target 0 1 2.
Proof.
  apply (exhausted_retries target 2 (λ _, refusing) 4).
  - unfold GoInt.max_int. lia.
  - intros n _. by apply refusing_fails.
  - simpl. lia.
Defined.

(** C4 as stated fails twice over.  With two attempts refused, the
    failure that is sent does not contain the last attempt's reason;
    and with [tries] at the largest int the loop test never fails, so
    the goroutine never returns. *)
Lemma exhausted_retries_counterexample :
  (∃ r msg, goroutine 2 (λ _, refusing) 4 (launch target) = Some (r, Some msg)
     ∧ calls r = 2%nat
     ∧ contains (reason (λ _, refusing) target 2)
                "dial tcp: connection refused" = true
     ∧ contains msg (reason (λ _, refusing) target 2) = false)
  ∧ (∀ fuel, goroutine GoInt.max_int (λ _, refusing) fuel (launch target) = None).
Proof.
  split.
  - eexists _, _. split; [reflexivity|]. by vm_compute.
  - intros fuel. eapply (never_exhausted target (λ _, refusing)); try done.
    intros n. by apply refusing_fails.
Qed.

(** C5, as amended.  When the probe of a target fails on attempts
    1 .. k-1 and succeeds on attempt k, with 1 <= k <= tries and
    k <= 3074457346, the goroutine returns after exactly k probe calls,
    sends nil, and has slept exactly k-1 times, the i-th sleep lasting
    3*i+1 seconds.  (The bound on k keeps (3*i+1) * 10^9 nanoseconds
    inside an int64.) *)
Theorem success_on_attempt (c : MysqlConfig) (tries : Z) (db : nat → Driver)
    (k : Z) (fuel : nat) :
  1 ≤ k ≤ tries → tries ≤ GoInt.max_int → k ≤ 3074457346 →
  (∀ n, (1 ≤ n < Z.to_nat k)%nat → failsAt db c n) →
  succeedsAt db c (Z.to_nat k) →
  (Z.to_nat k + 1 ≤ fuel)%nat →
  ∃ r, goroutine tries db fuel (launch c) = Some (r, None)
    ∧ calls r = Z.to_nat k
    ∧ sleeps r = (λ i, (3 * i + 1) * time.Second) <$> seqZ 1 (k - 1)
    ∧ Forall (λ d, time.slept d = d) (sleeps r).
Proof.
  intros Hk Htries Hbound Hfail Hok Hfuel.
  exists (succeeded tries db c (Z.to_nat (k - 1))).
  replace fuel with (Z.to_nat (k - 1) + (2 + (fuel - (Z.to_nat k + 1))))%nat
    by lia.
  rewrite succeeded_run by done. simpl.
  rewrite backoffs_exact, Z2Nat.id by lia.
  repeat split; [lia|].
  apply Forall_fmap, Forall_seqZ. intros i Hi. simpl.
  unfold time.slept, time.Second. lia.
Qed.

Lemma success_on_attempt_witness :
  ∃ r, goroutine 5 (servingFrom 3) 4 (launch target) = Some (r, None)
    ∧ calls r = 3%nat
    ∧ sleeps r = (λ i, (3 * i + 1) * time.Second) <$> seqZ 1 (3 - 1)
    ∧ Forall (λ d, time.slept d = d) (sleeps r).
Proof.
  apply (success_on_attempt target 5 (servingFrom 3) 3 4).
  - lia.
  - unfold GoInt.max_int. lia.
  - lia.
  - intros n Hn. apply servingFrom_fails; [done|lia].
  - apply servingFrom_succeeds. lia.
  - simpl. lia.
Defined.

(** C5 as stated fails for large k: with success on attempt 3074457347
    the sleep after attempt 3074457346 is asked to last
    9223372039 * 10^9 nanoseconds, which wraps to a negative duration,
    and time.Sleep returns at once instead of after 3*i+1 seconds. *)
Lemma success_on_attempt_counterexample :
  let k := 3074457347 in
  let i := 3074457346 in
  (∀ n, (1 ≤ n < Z.to_nat k)%nat → failsAt (servingFrom k) target n)
  ∧ succeedsAt (servingFrom k) target (Z.to_nat k)
  ∧ ∃ r, goroutine k (servingFrom k) (Z.to_nat k + 1) (launch target)
         = Some (r, None)
      ∧ sleeps r !! Z.to_nat (i - 1) = Some (-9223372034709551616)
      ∧ time.slept (-9223372034709551616) = 0
      ∧ (3 * i + 1) * time.Second = 9223372039000000000.
Proof.
  intros k i. split; [|split].
  - intros n Hn. apply servingFrom_fails; [done|lia].
  - apply servingFrom_succeeds. lia.
  - exists (succeeded k (servingFrom k) target (Z.to_nat (k - 1))).
    split; [|split; [|done]].
    + replace (Z.to_nat k + 1)%nat with (Z.to_nat (k - 1) + (2 + 0))%nat by lia.
      apply succeeded_run.
      * lia.
      * unfold GoInt.max_int. lia.
      * intros n Hn. apply servingFrom_fails; [done|lia].
      * apply servingFrom_succeeds. lia.
    + change (sleeps (succeeded k (servingFrom k) target (Z.to_nat (k - 1))))
        with (backoffs 1 (Z.to_nat (k - 1))).
      rewrite backoffs_fmap, list_lookup_fmap, lookup_seqZ_lt by lia.
      rewrite Z2Nat.id by lia. reflexivity.
Qed.
End RetryRunnerClaims.

(** ** CheckConnections under every schedule *)

Section Coordination.
Import types mysqlcheck props coordination.
Local Open Scope Z_scope.

Variable config : list MysqlConfig.
Variable tries : Z.
Variable db : nat → nat → Driver.

Abbreviation step := (step config tries db).
Abbreviation exec := (exec config tries db).

Lemma exec_nil s : exec [] s = s.
Proof. done. Qed.

Lemma exec_cons t sched s :
  exec (t :: sched) s = exec sched (default s (step t s)).
Proof. done. Qed.

Lemma exec_app sched1 sched2 s :
  exec (sched1 ++ sched2) s = exec sched2 (exec sched1 s).
Proof. apply foldl_app. Qed.

Lemma exec_snoc sched t s :
  exec (sched ++ [t]) s = default (exec sched s) (step t (exec sched s)).
Proof. by rewrite exec_app. Qed.

(** Induction over the states a schedule can reach. *)
Lemma exec_invariant (P : State → Prop) s :
  P s →
  (∀ t s1 s2, P s1 → step t s1 = Some s2 → P s2) →
  ∀ sched, P (exec sched s).
Proof.
  intros H0 Hstep sched. revert s H0.
  induction sched as [|t sched IH]; intros s H0; [done|].
  rewrite exec_cons. apply IH.
  destruct (step t s) as [s'|] eqn:Hs; simpl; eauto.
Qed.

Lemma readsSoFar_step t s1 s2 :
  readsSoFar config s1 → step t s1 = Some s2 → readsSoFar config s2.
Proof.
  unfold readsSoFar. intros H Hstep. destruct t as [|k]; simpl in Hstep.
  - unfold coStep in Hstep.
    destruct (co s1) as [[|c rest]|[|c rest]|r] eqn:Hco; simplify_eq; simpl.
    + split; [done|]. by rewrite Nat.sub_diag.
    + done.
    + destruct H as [_ H]. by rewrite H, Nat.sub_0_r.
    + destruct H as [Hlen H]. simpl in *.
      destruct (errChan s1) as [|err queue]; simplify_eq. simpl.
      destruct err as [e|].
      * exists (length config - S (length rest))%nat. split; [lia|]. by rewrite H.
      * split; [lia|]. rewrite H.
        replace (length config - length rest)%nat
          with (S (length config - S (length rest))) by lia.
        by rewrite replicate_S_end.
  - unfold goStep in Hstep.
    destruct (goroutines s1 !! k) as [r|]; [|done].
    destruct (gstep tries (db k) r) as [[r' sent]|]; [|done].
    case_bool_decide; simplify_eq. done.
Qed.

Lemma gstep_cfg k r r' sent :
  gstep tries (db k) r = Some (r', sent) → cfg r' = cfg r.
Proof.
  unfold gstep. destruct (pc r) as [i|i|]; intros; simplify_eq; [|done].
  unfold iteration. destruct (i <=? tries); [|done].
  by destruct (CheckConnection _ _).
Qed.

Lemma undisturbed_step t s1 s2 :
  undisturbed tries db s1 → step t s1 = Some s2 → undisturbed tries db s2.
Proof.
  unfold undisturbed. intros H Hstep. destruct t as [|k]; simpl in Hstep.
  - unfold coStep in Hstep.
    destruct (co s1) as [[|c rest]|[|c rest]|r] eqn:Hco; simplify_eq; simpl;
      try done.
    + intros k r [Hk|[_ Hr]]%lookup_app_Some; [by apply H|].
      apply list_lookup_singleton_Some in Hr as [_ <-]. by exists 0%nat.
    + destruct (errChan s1); simplify_eq. done.
  - unfold goStep in Hstep.
    destruct (goroutines s1 !! k) as [r|] eqn:Hk; [|done].
    destruct (gstep tries (db k) r) as [[r' sent]|] eqn:Hg; [|done].
    case_bool_decide; simplify_eq. simpl.
    intros k' r''. destruct (decide (k = k')) as [<-|Hne].
    + rewrite list_lookup_insert_eq by by eapply lookup_lt_Some.
      intros [= <-]. destruct (H _ _ Hk) as [m Hm]. exists (S m).
      rewrite (gstep_cfg _ _ _ _ Hg). unfold solo in *. simpl.
      rewrite <- Hm, Hg. done.
    + rewrite list_lookup_insert_ne by done. apply H.
Qed.
End Coordination.

(** ** CheckConnections returns *)

Section Termination.
Import types mysqlcheck props coordination.
Local Open Scope Z_scope.

Variable config : list MysqlConfig.
Variable tries : Z.
Variable db : nat → nat → Driver.
Hypothesis tries_lt_max : tries < GoInt.max_int.

Abbreviation step := (step config tries db).
Abbreviation exec := (exec config tries db).

Lemma sum_list_insert {A} (f : A → nat) (l : list A) k x y :
  l !! k = Some x →
  (sum_list (f <$> <[k := y]> l) + f x = sum_list (f <$> l) + f y)%nat.
Proof.
  revert k. induction l as [|a l IH]; intros [|k] Hk; simplify_eq/=; [lia|].
  specialize (IH _ Hk). lia.
Qed.

Lemma doneCount_app l1 l2 : doneCount (l1 ++ l2) = (doneCount l1 + doneCount l2)%nat.
Proof. unfold doneCount. by rewrite filter_app, length_app. Qed.

Lemma doneCount_cons r l :
  doneCount (r :: l) = ((if isGoDone r then 1 else 0) + doneCount l)%nat.
Proof.
  unfold doneCount. rewrite filter_cons.
  destruct (decide _) as [->|Hn]; [done|].
  by destruct (isGoDone r).
Qed.

Lemma doneCount_insert l k r r' :
  l !! k = Some r → isGoDone r = false →
  doneCount (<[k := r']> l)
  = (doneCount l + if isGoDone r' then 1 else 0)%nat.
Proof.
  revert k. induction l as [|a l IH]; intros [|k] Hk Hr; simplify_eq/=.
  - rewrite !doneCount_cons, Hr. lia.
  - rewrite !doneCount_cons, (IH _ Hk Hr). lia.
Qed.

Lemma doneCount_le l : (doneCount l ≤ length l)%nat.
Proof.
  induction l as [|a l IH]; [done|]. rewrite doneCount_cons. simpl.
  destruct (isGoDone a); lia.
Qed.

Lemma doneCount_lt l :
  (doneCount l < length l)%nat →
  ∃ k r, l !! k = Some r ∧ isGoDone r = false.
Proof.
  induction l as [|a l IH]; simpl; [lia|]. rewrite doneCount_cons.
  destruct (isGoDone a) eqn:Ha.
  - intros H. destruct IH as (k & r & Hk & Hr); [lia|]. by exists (S k), r.
  - intros _. by exists 0%nat, a.
Qed.

Lemma consistent_init : consistent config (init config).
Proof. split; done. Qed.

Lemma gstep_sent k r r' sent :
  gstep tries (db k) r = Some (r', sent) →
  isGoDone r = false
  ∧ (length sent = if isGoDone r' then 1 else 0)%nat.
Proof.
  unfold gstep, isGoDone. destruct (pc r) as [i|i|] eqn:Hpc; intros; simplify_eq; [|done].
  split; [done|]. unfold iteration. destruct (i <=? tries); [|done].
  by destruct (CheckConnection _ _).
Qed.

Lemma consistent_step t s1 s2 :
  consistent config s1 → step t s1 = Some s2 → consistent config s2.
Proof.
  intros [HL HA HR HP] Hstep.
  assert (readsSoFar config s2) as HR2 by by eapply readsSoFar_step.
  destruct t as [|k]; simpl in Hstep.
  - unfold coStep in Hstep. unfold pending in *.
    destruct (co s1) as [[|c rest]|[|c rest]|r] eqn:Hco; simplify_eq; simpl.
    + split; simpl; try done.
    + split; simpl; try done.
      * by rewrite fmap_app, <- app_assoc.
      * by rewrite doneCount_app, doneCount_cons, Nat.add_0_r.
      * intros k r i [Hk|[_ Hr]]%lookup_app_Some; [by eapply HP|].
        apply list_lookup_singleton_Some in Hr as [_ <-]. by intros [= <-].
    + split; simpl; try done.
    + destruct (errChan s1) as [|err queue] eqn:Hch; simplify_eq.
      split; simpl; try done.
      * by destruct err.
      * rewrite length_app. simpl in *. lia.
  - unfold goStep in Hstep.
    destruct (goroutines s1 !! k) as [r|] eqn:Hk; [|done].
    destruct (gstep tries (db k) r) as [[r' sent]|] eqn:Hg; [|done].
    case_bool_decide; simplify_eq.
    destruct (gstep_sent _ _ _ _ Hg) as [Hr Hsent].
    split; simpl; try done.
    + rewrite list_fmap_insert, (gstep_cfg _ _ _ _ _ _ Hg).
      rewrite list_insert_id; [done|]. by rewrite list_lookup_fmap, Hk.
    + rewrite (doneCount_insert _ _ _ _ Hk Hr), length_app. lia.
    + intros k' r'' i. destruct (decide (k = k')) as [<-|Hne].
      * rewrite list_lookup_insert_eq by by eapply lookup_lt_Some.
        intros [= <-]. unfold gstep in Hg.
        destruct (pc r) as [i0|i0|] eqn:Hpc; simplify_eq; [|done].
        unfold iteration. destruct (Z.leb_spec i0 tries); [|done].
        destruct (CheckConnection _ _); [|done]. simpl. intros [= <-].
        specialize (HP _ _ _ Hk Hpc).
        rewrite add_one by (unfold GoInt.min_int; lia). lia.
      * rewrite list_lookup_insert_ne by done. apply HP.
Qed.

Lemma consistent_exec sched : consistent config (exec sched (init config)).
Proof.
  apply exec_invariant; [apply consistent_init|].
  intros t s1 s2. apply consistent_step.
Qed.

(** While CheckConnections has not returned, some thread can move: a
    coordinator blocked on the receive means that a goroutine has yet to
    send, and the buffered channel never blocks a send. *)
Lemma progress s :
  consistent config s → returned s = None → ∃ t s', step t s = Some s'.
Proof.
  intros [HL HA HR HP] Hret. unfold returned in Hret.
  destruct (co s) as [rest|[|c rest]|r] eqn:Hco; [| | |done].
  - exists Coordinator. simpl. unfold coStep. rewrite Hco.
    destruct rest; eauto.
  - exists Coordinator. simpl. unfold coStep. rewrite Hco. eauto.
  - destruct (errChan s) as [|err queue] eqn:Hch.
    + unfold readsSoFar, pending in *. rewrite Hco in *. simpl in *.
      destruct HR as [Hlen HR]. rewrite app_nil_r in HL.
      assert (length (goroutines s) = length config) as Hn
        by by rewrite <- HL, length_fmap.
      destruct (doneCount_lt (goroutines s)) as (k & r & Hk & Hr).
      { rewrite <- HA, HR, length_replicate. lia. }
      exists (Goroutine k). simpl. unfold goStep. rewrite Hk.
      unfold gstep. unfold isGoDone in Hr.
      destruct (pc r) as [i|i|]; [| |done];
        (rewrite bool_decide_true; [eauto|]);
        rewrite Hch; unfold capacity; simpl; lia.
    + exists Coordinator. simpl. unfold coStep. rewrite Hco, Hch. eauto.
Qed.

(** Every step uses up one of the steps left. *)
Lemma stepsLeft_step t s1 s2 :
  consistent config s1 → step t s1 = Some s2 →
  (stepsLeft config tries s2 < stepsLeft config tries s1)%nat.
Proof.
  intros [HL HA HR HP] Hstep. unfold stepsLeft, pending.
  destruct t as [|k]; simpl in Hstep.
  - unfold coStep in Hstep.
    destruct (co s1) as [[|c rest]|[|c rest]|r] eqn:Hco; simplify_eq; simpl.
    + lia.
    + rewrite fmap_app, sum_list_with_app.
      generalize (sum_list (stepsOfRunner tries <$> goroutines s1)).
      intros n. unfold stepsOfRunner. simpl.
      replace (tries + 1 - 1) with tries by lia. lia.
    + lia.
    + destruct (errChan s1) as [|err queue]; simplify_eq. simpl.
      destruct err; simpl; lia.
  - unfold goStep in Hstep.
    destruct (goroutines s1 !! k) as [r|] eqn:Hk; [|done].
    destruct (gstep tries (db k) r) as [[r' sent]|] eqn:Hg; [|done].
    case_bool_decide; simplify_eq. simpl.
    pose proof (sum_list_insert (stepsOfRunner tries) _ _ _ r' Hk) as Hsum.
    assert (stepsOfRunner tries r' < stepsOfRunner tries r)%nat; [|lia].
    unfold gstep in Hg. destruct (pc r) as [i|i|] eqn:Hpc; simplify_eq.
    + clear Hsum. unfold stepsOfRunner at 2. rewrite Hpc.
      specialize (HP _ _ _ Hk Hpc).
      unfold iteration. destruct (Z.leb_spec i tries) as [Hle|Hgt].
      * destruct (CheckConnection _ _); unfold stepsOfRunner; simpl; [|lia].
        rewrite add_one by (unfold GoInt.min_int; lia). lia.
      * unfold stepsOfRunner; simpl. lia.
    + unfold stepsOfRunner. rewrite Hpc. simpl. lia.
Qed.

Lemma returns_within n : ∀ s,
  (stepsLeft config tries s ≤ n)%nat → consistent config s →
  ∃ sched, returned (exec sched s) ≠ None.
Proof.
  induction n as [|n IH]; intros s Hn Hs.
  - exists []. simpl. intros Hret.
    destruct (progress s Hs Hret) as (t & s' & Hstep).
    pose proof (stepsLeft_step _ _ _ Hs Hstep). lia.
  - destruct (returned s) eqn:Hret; [by exists []; simpl; rewrite Hret|].
    destruct (progress s Hs Hret) as (t & s' & Hstep).
    destruct (IH s') as [sched Hsched].
    + pose proof (stepsLeft_step _ _ _ Hs Hstep). lia.
    + by eapply consistent_step.
    + exists (t :: sched). by rewrite exec_cons, Hstep.
Qed.

(** Whatever has happened so far, CheckConnections can still return, and
    since every step uses up one of finitely many, it does so as long
    as threads that can move are scheduled. *)
Lemma can_return sched :
  ∃ sched', returned (exec (sched ++ sched') (init config)) ≠ None.
Proof.
  destruct (returns_within (stepsLeft config tries (exec sched (init config)))
              (exec sched (init config))) as [sched' H];
    [done|apply consistent_exec|].
  exists sched'. by rewrite exec_app.
Qed.
End Termination.

Section CoordinationClaims.
Import types mysqlcheck props coordination.
Local Open Scope Z_scope.

(** C1, as amended.  Under every schedule: when CheckConnections returns
    a failure, that failure is the first non-nil value it read from the
    channel, every value read before it was nil, and nothing is read
    after it -- so fewer values than targets may have been read, and one
    value per target is read for certain only when nil is returned.
    The coordinator never cancels or changes a goroutine: each one is
    always in a state it reaches when run alone, so its attempt count
    does not depend on the failure of a sibling.  And with
    tries < 2^63 - 1, CheckConnections can return from every state it
    reaches. *)
Theorem first_failure_returned (config : list MysqlConfig) (tries : Z)
    (db : nat → nat → Driver) (sched : list Thread) :
  let s := exec config tries db sched (init config) in
  (∀ e, CheckConnections config tries db sched = Some (Some e) →
     ∃ m, (m < length config)%nat
       ∧ received s = replicate m None ++ [Some e])
  ∧ (CheckConnections config tries db sched = Some None →
       received s = replicate (length config) None)
  ∧ (∀ k r, goroutines s !! k = Some r →
       ∃ m, r = solo tries (db k) m (launch (cfg r)))
  ∧ (tries < GoInt.max_int →
       ∃ sched', CheckConnections config tries db (sched ++ sched') ≠ None).
Proof.
  intros s. unfold CheckConnections. fold s.
  assert (readsSoFar config s ∧ undisturbed tries db s) as [Hr Hu].
  { subst s. apply (exec_invariant config tries db
      (λ s, readsSoFar config s ∧ undisturbed tries db s)).
    - split; [done|]. intros k r Hk. done.
    - intros t s1 s2 [H1 H2] Hstep. split.
      + by eapply readsSoFar_step.
      + by eapply undisturbed_step. }
  split_and!.
  - unfold readsSoFar, returned in *.
    intros e He. destruct (co s) as [| |[e'|]]; by simplify_eq.
  - unfold readsSoFar, returned in *.
    intros He. destruct (co s) as [| |[e'|]]; by simplify_eq.
  - done.
  - intros Hmax. apply (can_return config tries db Hmax sched).
Qed.

Lemma first_failure_returned_witness :
  let s := exec [target; other] 1 (λ _ _, refusing)
             (firstOnly [target; other] 3) (init [target; other]) in
  CheckConnections [target; other] 1 (λ _ _, refusing)
    (firstOnly [target; other] 3)
  = Some (Some (attemptsFailed target))
  ∧ ∃ m, (m < 2)%nat
      ∧ received s = replicate m None ++ [Some (attemptsFailed target)].
Proof.
  split; [reflexivity|].
  apply (first_failure_returned [target; other] 1 (λ _ _, refusing)
           (firstOnly [target; other] 3)).
  reflexivity.
Defined.

(** C1 as stated fails.  Two targets, one attempt each, both refused:
    when the first goroutine runs to its end before the second starts,
    CheckConnections returns its failure after reading one value, while
    the second goroutine, though launched, has not made a probe yet. *)
Lemma first_failure_returned_counterexample :
  let s := exec [target; other] 1 (λ _ _, refusing)
             (firstOnly [target; other] 3) (init [target; other]) in
  CheckConnections [target; other] 1 (λ _ _, refusing)
    (firstOnly [target; other] 3)
  = Some (Some (attemptsFailed target))
  ∧ length (goroutines s) = 2%nat
  ∧ length (received s) = 1%nat
  ∧ pc <$> goroutines s = [GoDone; AtLoop 1]
  ∧ calls <$> goroutines s = [1%nat; 0%nat].
Proof. by vm_compute. Qed.

Lemma exec_empty_config tries db sched :
  ∀ s, (s = init [] ∨ s = {| co := CoRecv []; goroutines := [];
                             errChan := []; received := [] |}
        ∨ s = {| co := CoReturned None; goroutines := []; errChan := [];
                 received := [] |}) →
  let s' := exec [] tries db sched s in
  goroutines s' = [] ∧ errChan s' = [] ∧ received s' = []
  ∧ co s' = match co s, coPicks sched with
            | CoLaunch _, O => CoLaunch []
            | CoLaunch _, S O => CoRecv []
            | CoRecv _, O => CoRecv []
            | _, _ => CoReturned None
            end.
Proof.
  induction sched as [|t sched IH]; intros s Hs.
  - simpl. destruct Hs as [->|[->| ->]]; done.
  - intros s'. subst s'. rewrite exec_cons.
    destruct t as [|k].
    + destruct Hs as [->|[->| ->]]; simpl.
      * edestruct IH as (-> & -> & -> & ->); [right; left; done|].
        simpl. by destruct (coPicks sched).
      * edestruct IH as (-> & -> & -> & ->); [right; right; done|]. done.
      * edestruct IH as (-> & -> & -> & ->); [right; right; done|]. done.
    + assert (step [] tries db (Goroutine k) s = None) as ->.
      { destruct Hs as [->|[->| ->]]; done. }
      simpl. by apply IH.
Qed.

(** C8.  On an empty target list, whatever [tries] is and under every
    schedule, CheckConnections launches no goroutine, no probe is ever
    called, nothing is sent or received, and the coordinator's first two
    steps -- leaving the empty launch loop and the empty receive loop --
    are never blocked and end in the return of nil. *)
Theorem empty_config_succeeds (tries : Z) (db : nat → nat → Driver)
    (sched : list Thread) :
  let s := exec [] tries db sched (init []) in
  goroutines s = []
  ∧ probeCalls s = 0%nat
  ∧ received s = []
  ∧ (∀ e, CheckConnections [] tries db sched ≠ Some (Some e))
  ∧ ((2 ≤ coPicks sched)%nat →
       CheckConnections [] tries db sched = Some None).
Proof.
  destruct (exec_empty_config tries db sched (init [])) as (Hg & _ & Hr & Hco);
    [by left|].
  intros s. fold s in Hg, Hr, Hco.
  unfold CheckConnections, probeCalls, returned. fold s.
  rewrite Hg, Hr, Hco. simpl. repeat split; [|].
  - intros e. by destruct (coPicks sched) as [|[|n]].
  - intros Hn. destruct (coPicks sched) as [|[|n]]; [lia|lia|done].
Qed.

Lemma empty_config_succeeds_witness :
  CheckConnections [] 3 (λ _ _, refusing) [Coordinator; Coordinator]
  = Some None.
Proof.
  apply (empty_config_succeeds 3 (λ _ _, refusing) [Coordinator; Coordinator]).
  simpl. lia.
Defined.
End CoordinationClaims.

(** ** CheckConnections with fewer than one try *)

Section NoAttempts.
Import types mysqlcheck props coordination.
Local Open Scope Z_scope.

Variable config : list MysqlConfig.
Variable tries : Z.
Variable db : nat → nat → Driver.
Hypothesis tries_le_0 : tries ≤ 0.

Lemma untried_init : untried config tries (init config).
Proof.
  split; [|split]; simpl; [done|..]; [|done].
  intros m Hm. by apply elem_of_nil in Hm.
Qed.

Lemma untried_step t s1 s2 :
  untried config tries s1 → step config tries db t s1 = Some s2 →
  untried config tries s2.
Proof.
  intros (Hg & Hm & Hp) Hstep. destruct t as [|k]; simpl in Hstep.
  - unfold coStep in Hstep. unfold pending in Hp.
    destruct (co s1) as [[|c rest]|[|c rest]|r] eqn:Hco; simplify_eq.
    + split; [done|split; [done|]]. unfold pending; simpl.
      intros c Hc. by apply elem_of_nil in Hc.
    + split; [|split]; simpl; [|done|].
      * intros k r [Hk|[_ Hr]]%lookup_app_Some; [by eapply Hg|].
        apply list_lookup_singleton_Some in Hr as [_ <-]. simpl.
        split; [done|]. split; [|by left]. apply Hp. by left.
      * unfold pending; simpl. intros c' Hc'. apply Hp. by right.
    + split; [done|split; [done|]]. unfold pending; simpl.
      intros c Hc. by apply elem_of_nil in Hc.
    + destruct (errChan s1) as [|err queue] eqn:Hch; simplify_eq.
      split; [|split]; simpl; [done| |].
      * intros m Hin. apply Hm.
        rewrite !elem_of_app, list_elem_of_singleton in Hin.
        rewrite elem_of_app, elem_of_cons. tauto.
      * unfold pending; simpl. by destruct err.
  - unfold goStep in Hstep.
    destruct (goroutines s1 !! k) as [r|] eqn:Hk; [|done].
    destruct (gstep tries (db k) r) as [[r' sent]|] eqn:Hgs; [|done].
    case_bool_decide; simplify_eq.
    destruct (Hg _ _ Hk) as (Hcalls & Hcfg & Hpc).
    assert (calls r' = 0%nat ∧ cfg r' ∈ config
            ∧ (pc r' = AtLoop 1 ∨ pc r' = AtSend 1 ∨ pc r' = GoDone)
            ∧ ∀ m, m ∈ sent → ∃ c, c ∈ config ∧ m = verdict tries c 1)
      as (Hc' & Hcfg' & Hpc' & Hsent).
    { unfold gstep in Hgs. destruct Hpc as [Hpc|[Hpc|Hpc]]; rewrite Hpc in Hgs;
        simplify_eq.
      - unfold iteration. destruct (Z.leb_spec 1 tries); [lia|]. simpl.
        repeat split; [done|done|by right; left|].
        intros m Hin. by apply elem_of_nil in Hin.
      - simpl. repeat split; [done|done|by right; right|].
        intros m ->%list_elem_of_singleton. eauto. }
    split; [|split]; simpl; [| |done].
    + intros k' r''. destruct (decide (k = k')) as [<-|Hne].
      * rewrite list_lookup_insert_eq by by eapply lookup_lt_Some.
        by intros [= <-].
      * rewrite list_lookup_insert_ne by done. apply Hg.
    + intros m Hin. rewrite !elem_of_app in Hin.
      destruct Hin as [[Hin|Hin]|Hin]; [|by apply Hsent|];
        apply Hm; rewrite elem_of_app; tauto.
Qed.

Lemma untried_exec sched :
  untried config tries (exec config tries db sched (init config)).
Proof.
  apply exec_invariant; [apply untried_init|].
  intros t s1 s2. apply untried_step.
Qed.

Lemma untried_probeCalls s : untried config tries s → probeCalls s = 0%nat.
Proof.
  intros (Hg & _ & _). unfold probeCalls.
  assert (∀ k r, goroutines s !! k = Some r → calls r = 0%nat) as H
    by (intros k r Hk; by destruct (Hg _ _ Hk)).
  clear Hg. revert H. generalize (goroutines s).
  induction l as [|r l IH]; intros H; [done|].
  rewrite fmap_cons. simpl. rewrite (H 0%nat r) by done. simpl.
  apply IH. intros k r' Hk. by apply (H (S k)).
Qed.
End NoAttempts.

Section NoAttemptsClaim.
Import types mysqlcheck props coordination.
Local Open Scope Z_scope.

(** C10.  For a non-empty target list and under every schedule:
    with [tries = 0] no probe is ever called, and what CheckConnections
    returns is the "connection attempts have failed" error of one of the
    targets; with [tries < 0] no probe is ever called either, and what
    CheckConnections returns is nil.  In both cases CheckConnections can
    return from every state it reaches. *)
Theorem fewer_than_one_try (config : list MysqlConfig) (tries : Z)
    (db : nat → nat → Driver) (sched : list Thread) :
  config ≠ [] → GoInt.min_int ≤ tries ≤ 0 →
  let s := exec config tries db sched (init config) in
  probeCalls s = 0%nat
  ∧ (tries = 0 → ∀ r, CheckConnections config tries db sched = Some r →
       ∃ c, c ∈ config ∧ r = Some (attemptsFailed c))
  ∧ (tries < 0 → ∀ r, CheckConnections config tries db sched = Some r →
       r = None)
  ∧ ∃ sched', CheckConnections config tries db (sched ++ sched') ≠ None.
Proof.
  intros Hne Htries s. unfold CheckConnections. fold s.
  pose proof (untried_exec config tries db (proj2 Htries) sched) as Hu.
  assert (tries < GoInt.max_int) as Hmax by (unfold GoInt.max_int; lia).
  pose proof (consistent_exec config tries db Hmax sched) as Hc.
  fold s in Hu, Hc. destruct Hc as [_ _ Hr _]. pose proof Hu as (_ & Hm & _).
  unfold readsSoFar in Hr. unfold returned.
  split; [by eapply untried_probeCalls|]. split; [|split].
  - intros -> r Hret.
    destruct (co s) as [| |[e|]]; simplify_eq.
    + destruct Hr as (m & _ & Hr).
      destruct (Hm (Some e)) as (c & Hc & He).
      { rewrite Hr, !elem_of_app, list_elem_of_singleton. tauto. }
      exists c. split; [done|]. by rewrite He.
    + destruct config as [|c0 config']; [done|].
      destruct (Hm None) as (c & Hc & He); [|done].
      rewrite Hr, elem_of_app. simpl. right. by left.
  - intros Hneg r Hret.
    destruct (co s) as [| |[e|]]; simplify_eq; [|done].
    destruct Hr as (m & _ & Hr).
    destruct (Hm (Some e)) as (c & Hc & He).
    { rewrite Hr, !elem_of_app, list_elem_of_singleton. tauto. }
    unfold verdict in He. rewrite add_one in He by (unfold GoInt.max_int; lia).
    destruct (Z.eqb_spec 1 (tries + 1)); [lia|done].
  - apply (can_return config tries db Hmax sched).
Qed.

Lemma fewer_than_one_try_witness :
  let s := exec [target; other] 0 (λ _ _, serving)
             (inTurn [target; other] 2) (init [target; other]) in
  CheckConnections [target; other] 0 (λ _ _, serving)
    (inTurn [target; other] 2)
  = Some (Some (attemptsFailed target))
  ∧ probeCalls s = 0%nat
  ∧ ∃ c, c ∈ [target; other]
      ∧ Some (attemptsFailed target) = Some (attemptsFailed c).
Proof.
  pose proof (fewer_than_one_try [target; other] 0 (λ _ _, serving)
                (inTurn [target; other] 2)) as H.
  destruct H as (Hcalls & Hzero & _); [done|unfold GoInt.min_int; lia|].
  split; [reflexivity|]. split; [exact Hcalls|].
  apply Hzero; reflexivity.
Defined.
End NoAttemptsClaim.

(** ** The exporter under every schedule *)

Section Gauges.
Import types metrics publishing.

Lemma stamped_empty (n : nat) : stamped n ∅.
Proof. intros l g Hl. by rewrite lookup_empty in Hl. Qed.

Lemma stamped_insert (n : nat) (m : gmap Labels Gauge) (l : Labels) (g : Gauge) :
  stamped n m → stamp g = n → stamped n (<[l := g]> m).
Proof.
  intros Hm Hg l' g'. destruct (decide (l = l')) as [<-|Hne].
  - rewrite lookup_insert_eq. by intros [= <-].
  - rewrite lookup_insert_ne by done. apply Hm.
Qed.

Lemma covered_nil (f : WorkerPc → bool) : covered f [] ∅.
Proof.
  intros l. rewrite lookup_empty. split; [by intros [? ?]|].
  by intros (k & w & Hk & _).
Qed.

Lemma covered_snoc (f : WorkerPc → bool) (ws : list Worker)
    (m : gmap Labels Gauge) (w : Worker) :
  f (wpc w) = false → covered f ws m → covered f (ws ++ [w]) m.
Proof.
  intros Hw Hc l. rewrite (Hc l). split.
  - intros (k & w' & Hk & Hf & Hl). exists k, w'.
    split; [|done]. apply lookup_app_Some. by left.
  - intros (k & w' & Hk & Hf & Hl). exists k, w'. split; [|done].
    apply lookup_app_Some in Hk as [Hk|[_ Hk]]; [done|].
    apply list_lookup_singleton_Some in Hk as [_ <-]. congruence.
Qed.

Lemma covered_insert_same (f : WorkerPc → bool) (ws : list Worker)
    (m : gmap Labels Gauge) (k : nat) (w w' : Worker) :
  ws !! k = Some w → wcfg w' = wcfg w → f (wpc w') = f (wpc w) →
  covered f ws m → covered f (<[k := w']> ws) m.
Proof.
  intros Hk Hcfg Hf Hc l. rewrite (Hc l).
  pose proof (lookup_lt_Some _ _ _ Hk) as Hlt. split.
  - intros (k' & w'' & Hk' & Hf' & Hl). destruct (decide (k = k')) as [<-|Hne].
    + exists k, w'. rewrite list_lookup_insert_eq by done. simplify_eq.
      by rewrite Hf, Hcfg.
    + exists k', w''. by rewrite list_lookup_insert_ne.
  - intros (k' & w'' & Hk' & Hf' & Hl). destruct (decide (k = k')) as [<-|Hne].
    + rewrite list_lookup_insert_eq in Hk' by done. simplify_eq.
      exists k, w. by rewrite <- Hf, <- Hcfg.
    + rewrite list_lookup_insert_ne in Hk' by done. by exists k', w''.
Qed.

Lemma covered_insert_new (f : WorkerPc → bool) (ws : list Worker)
    (m : gmap Labels Gauge) (k : nat) (w w' : Worker) (g : Gauge) :
  ws !! k = Some w → wcfg w' = wcfg w → f (wpc w') = true →
  covered f ws m →
  covered f (<[k := w']> ws) (<[labelsOf (wcfg w) := g]> m).
Proof.
  intros Hk Hcfg Hf Hc l.
  pose proof (lookup_lt_Some _ _ _ Hk) as Hlt.
  destruct (decide (labelsOf (wcfg w) = l)) as [<-|Hl].
  - rewrite lookup_insert_eq. split; [|by eauto].
    intros _. exists k, w'. rewrite list_lookup_insert_eq by done.
    by rewrite Hcfg.
  - rewrite lookup_insert_ne by done. rewrite (Hc l). split.
    + intros (k' & w'' & Hk' & Hf' & Hl').
      destruct (decide (k = k')) as [<-|Hne]; [by simplify_eq|].
      exists k', w''. by rewrite list_lookup_insert_ne.
    + intros (k' & w'' & Hk' & Hf' & Hl').
      destruct (decide (k = k')) as [<-|Hne].
      * rewrite list_lookup_insert_eq in Hk' by done. simplify_eq.
        by rewrite Hcfg in Hl.
      * rewrite list_lookup_insert_ne in Hk' by done. by exists k', w''.
Qed.

Lemma covered_all (e : MultiMySQLExporter) (f : WorkerPc → bool)
    (ws : list Worker) (m : gmap Labels Gauge) :
  wcfg <$> ws = configs e →
  (∀ k w, ws !! k = Some w → f (wpc w) = true) →
  covered f ws m → oneEntryPerTarget e m.
Proof.
  intros Hcfg Hall Hc l. rewrite (Hc l), <- Hcfg. split.
  - intros (k & w & Hk & _ & Hl). exists (wcfg w). split; [|done].
    apply list_elem_of_fmap. exists w. split; [done|].
    by eapply list_elem_of_lookup_2.
  - intros (c & Hin & Hl). apply list_elem_of_fmap in Hin as (w & -> & Hw).
    apply list_elem_of_lookup in Hw as [k Hk]. exists k, w. eauto.
Qed.

Lemma wholeCycle_le (e : MultiMySQLExporter) (n' n'' : nat) (sc : Scrape) :
  n' ≤ n'' → wholeCycle e n' sc → wholeCycle e n'' sc.
Proof. intros Hle (m & Hm & H). exists m. split; [lia|done]. Qed.
End Gauges.

Section ExporterSteps.
Import types metrics publishing.

Variable e : MultiMySQLExporter.
Variable db : nat → nat → mysqlcheck.Driver.
Variable elapsed : nat → nat → Z.

Lemma readers_empty (s : State) : size (readers s) = 0 → readers s = ∅.
Proof. apply map_size_empty_iff. Qed.

Lemma reading_no_writer (s : State) j x :
  reading s → readers s !! j = Some x → writer s = false.
Proof.
  intros [Hw _] Hj. destruct (writer s); [|done].
  rewrite Hw in Hj by done. by rewrite lookup_empty in Hj.
Qed.

Lemma unlocked_published (ph : option ChecksPc) (s : State) :
  core e ph s → writer s = false → workers s = [] ∧ published e s.
Proof.
  destruct ph as [[]|]; simpl; intros H Hw; try (destruct H; congruence);
    by destruct H as (_ & ? & ?).
Qed.

Lemma reading_empty (s : State) : readers s = ∅ → reading s.
Proof.
  intros H. split; [done|]. intros j b p. by rewrite H, lookup_empty.
Qed.

(** One step of performChecks, for whichever thread runs it. *)
Lemma performChecks_step (c : ChecksPc) (s : State) c' s' :
  core e (Some c) s → reading s →
  performChecks e c s = Some (c', s') →
  core e c' s' ∧ reading s'
  ∧ main s' = main s ∧ loop s' = loop s ∧ readers s' = readers s
  ∧ scrapes s' = scrapes s ∧ ticker s' = ticker s
  ∧ (completed s' = completed s ∧ is_Some c'
     ∨ completed s' = S (completed s) ∧ c' = None).
Proof.
  intros Hcore Hread Hstep.
  destruct c as [| | |[|config rest]| |]; simpl in Hcore, Hstep.
  - (* Lock *)
    destruct Hcore as (Hw & Hws & Hpub). rewrite Hw in Hstep.
    case_decide as Hsize; simplify_eq. apply readers_empty in Hsize.
    simpl. split_and!; eauto. by apply reading_empty.
  - (* reset of the availability vector *)
    destruct Hcore as (Hw & Hws). simplify_eq. simpl.
    destruct Hread as [Hr _]. specialize (Hr Hw).
    split_and!; eauto. by apply reading_empty.
  - (* reset of the duration vector *)
    destruct Hcore as (Hw & Hws & Ha). simplify_eq. simpl.
    destruct Hread as [Hr _]. specialize (Hr Hw).
    unfold filling; simpl.
    split_and!; eauto using stamped_empty, covered_nil.
    + rewrite Ha. apply stamped_empty.
    + rewrite Ha. apply covered_nil.
    + by apply reading_empty.
  - (* the launch loop is left *)
    simplify_eq. destruct Hcore as (Hw & Hf). simpl. split_and!; eauto.
  - (* a worker is launched *)
    destruct Hcore as (Hw & Hcfg & Hsa & Hsd & Hca & Hcd). simplify_eq. simpl.
    destruct Hread as [Hr _]. specialize (Hr Hw).
    unfold filling; simpl.
    split_and!; eauto.
    + by rewrite fmap_app, <- app_assoc.
    + by apply covered_snoc.
    + by apply covered_snoc.
    + by apply reading_empty.
  - (* wg.Wait *)
    destruct (forallb _ _) eqn:Hall; simplify_eq.
    destruct Hcore as (Hw & Hf). simpl. split_and!; eauto.
    intros k w Hk. rewrite forallb_forall in Hall.
    specialize (Hall w). destruct (wpc w); try done; discriminate Hall;
      by eapply list_elem_of_In, list_elem_of_lookup_2.
  - (* Unlock *)
    destruct Hcore as (Hw & (Hcfg & Hsa & Hsd & Hca & Hcd) & Hdone).
    simplify_eq. simpl.
    destruct Hread as [Hr _]. specialize (Hr Hw).
    rewrite app_nil_r in Hcfg.
    unfold published, resultOf; simpl.
    split_and!; eauto.
    + eapply covered_all; [done| |done].
      intros k w Hk. by rewrite (Hdone _ _ Hk).
    + eapply covered_all; [done| |done].
      intros k w Hk. by rewrite (Hdone _ _ Hk).
    + by apply reading_empty.
Qed.

(** A worker's step keeps the vectors in step with the workers. *)
Lemma filling_worker (rest : list MysqlConfig) (k : nat) (s s' : State) :
  filling e rest s → workerStep db elapsed k s = Some s' →
  filling e rest s'
  ∧ main s' = main s ∧ loop s' = loop s ∧ readers s' = readers s
  ∧ scrapes s' = scrapes s ∧ ticker s' = ticker s
  ∧ completed s' = completed s ∧ writer s' = writer s.
Proof.
  intros (Hcfg & Hsa & Hsd & Hca & Hcd) Hstep. unfold workerStep in Hstep.
  destruct (workers s !! k) as [w|] eqn:Hk; [|done].
  assert (∀ p, wcfg <$> <[k := {| wcfg := wcfg w; wpc := p |}]> (workers s)
               = wcfg <$> workers s) as Hsame.
  { intros p. rewrite list_fmap_insert. simpl.
    apply list_insert_id. by rewrite list_lookup_fmap, Hk. }
  destruct (wpc w) as [|err d|d|] eqn:Hpc; simplify_eq; unfold filling; simpl;
    rewrite Hsame; split_and!; eauto.
  - eapply covered_insert_same; eauto. simpl. by rewrite Hpc.
  - eapply covered_insert_same; eauto. simpl. by rewrite Hpc.
  - by apply stamped_insert.
  - by eapply covered_insert_new.
  - eapply covered_insert_same; eauto. simpl. by rewrite Hpc.
  - by apply stamped_insert.
  - eapply covered_insert_same; eauto. simpl. by rewrite Hpc.
  - by eapply covered_insert_new.
Qed.

(** Workers move only while performChecks holds the write lock. *)
Lemma workerStep_step (ph : option ChecksPc) (k : nat) (s s' : State) :
  core e ph s → reading s → workerStep db elapsed k s = Some s' →
  writer s = true
  ∧ core e ph s' ∧ reading s'
  ∧ main s' = main s ∧ loop s' = loop s ∧ readers s' = readers s
  ∧ scrapes s' = scrapes s ∧ ticker s' = ticker s
  ∧ completed s' = completed s.
Proof.
  intros Hcore [Hr _] Hstep.
  assert (∃ w, workers s !! k = Some w ∧ wpc w ≠ WDone) as (w & Hk & Hw).
  { unfold workerStep in Hstep. destruct (workers s !! k) as [w|]; [|done].
    exists w. split; [done|]. intros Hd. by rewrite Hd in Hstep. }
  assert (∀ rest, writer s = true → filling e rest s →
            writer s' = true ∧ filling e rest s' ∧ reading s'
            ∧ main s' = main s ∧ loop s' = loop s ∧ readers s' = readers s
            ∧ scrapes s' = scrapes s ∧ ticker s' = ticker s
            ∧ completed s' = completed s) as Hfill.
  { intros rest Hwr Hf.
    destruct (filling_worker rest k s s' Hf Hstep)
      as (Hf' & ? & ? & Hrd & ? & ? & ? & Hwr').
    split_and!; try done; [congruence|].
    apply reading_empty. rewrite Hrd. by apply Hr. }
  destruct ph as [[| | |rest| |]|]; simpl in *.
  - destruct Hcore as (_ & Hws & _). by rewrite Hws in Hk.
  - destruct Hcore as (_ & Hws). by rewrite Hws in Hk.
  - destruct Hcore as (_ & Hws & _). by rewrite Hws in Hk.
  - destruct Hcore as (Hwr & Hf).
    destruct (Hfill _ Hwr Hf) as (? & ? & ? & ? & ? & ? & ? & ? & ?).
    by split_and!.
  - destruct Hcore as (Hwr & Hf).
    destruct (Hfill _ Hwr Hf) as (? & ? & ? & ? & ? & ? & ? & ? & ?).
    by split_and!.
  - destruct Hcore as (_ & _ & Hdone). by specialize (Hdone _ _ Hk).
  - destruct Hcore as (_ & Hws & _). by rewrite Hws in Hk.
Qed.

(** Collect leaves the vectors alone and delivers what a whole cycle
    left behind. *)
Lemma Collect_step (ph : option ChecksPc) (j : nat) (s s' : State) :
  core e ph s → reading s → scraped e s →
  (hasReturned (main s) = true → 1 ≤ completed s) →
  Collect j s = Some s' →
  writer s = false
  ∧ core e ph s' ∧ reading s' ∧ scraped e s'
  ∧ main s' = main s ∧ loop s' = loop s
  ∧ ticker s' = ticker s ∧ completed s' = completed s.
Proof.
  intros Hcore Hread Hsc Hret Hstep. unfold Collect in Hstep.
  assert (∀ rs sc, core e ph (setReaders s rs sc)) as Hcore'
    by by destruct ph as [[]|].
  destruct (readers s !! j) as [[b p]|] eqn:Hj.
  - pose proof (reading_no_writer _ _ _ Hread Hj) as Hw.
    destruct Hread as [Hr Hread]. destruct (Hread _ _ _ Hj) as [Hb Hp].
    destruct (unlocked_published _ _ Hcore Hw) as [_ [Hpa Hpd]].
    destruct p as [|a|a d]; simplify_eq; simpl;
      (split_and!; [done|done| | |done|done|done|done]).
    + split; simpl; [by rewrite Hw|]. intros j' b' p'.
      destruct (decide (j = j')) as [<-|Hne].
      * rewrite lookup_insert_eq. by intros [= <- <-].
      * rewrite lookup_insert_ne by done. apply Hread.
    + done.
    + split; simpl; [by rewrite Hw|]. intros j' b' p'.
      destruct (decide (j = j')) as [<-|Hne].
      * rewrite lookup_insert_eq. by intros [= <- <-].
      * rewrite lookup_insert_ne by done. apply Hread.
    + done.
    + split; simpl; [by rewrite Hw|]. intros j' b' p'.
      destruct (decide (j = j')) as [<-|Hne].
      * by rewrite lookup_delete_eq.
      * rewrite lookup_delete_ne by done. apply Hread.
    + intros sc [Hin|Hin]%elem_of_app; [by apply Hsc|].
      apply list_elem_of_singleton in Hin as ->. destruct Hp as [-> ->].
      exists (completed s). by split_and!.
  - destruct (writer s) eqn:Hw; simplify_eq; simpl.
    destruct Hread as [Hr Hread].
    split_and!; try done.
    split; simpl; [by rewrite Hw|]. intros j' b' p'.
    destruct (decide (j = j')) as [<-|Hne].
    + rewrite lookup_insert_eq. by intros [= <- <-].
    + rewrite lookup_insert_ne by done. apply Hread.
Qed.
End ExporterSteps.

Section ExporterInvariant.
Import types metrics publishing.

Variable e : MultiMySQLExporter.
Variable db : nat → nat → mysqlcheck.Driver.
Variable elapsed : nat → nat → Z.

Abbreviation step := (metrics.step e db elapsed).
Abbreviation exec := (metrics.exec e db elapsed).

Lemma invariant_init : invariant e init.
Proof.
  split; simpl.
  - split_and!; try done; split; try done; apply stamped_empty.
  - by apply reading_empty.
  - intros sc Hsc. by apply elem_of_nil in Hsc.
  - done.
  - split; [done|]. by intros p.
Qed.

Lemma scraped_le (s s' : State) :
  scrapes s' = scrapes s → completed s ≤ completed s' →
  scraped e s → scraped e s'.
Proof.
  intros Hs Hle H sc Hsc. rewrite Hs in Hsc.
  eapply wholeCycle_le; [exact Hle|by apply H].
Qed.

Lemma returned_completed (s : State) :
  threads s → hasReturned (main s) = true → 1 ≤ completed s.
Proof. unfold threads. destruct (main s); try done. by intros [_ ?]. Qed.

Lemma phase_before_go (s : State) :
  loop s = LNone →
  phase s = match main s with MChecks c => Some c | _ => None end.
Proof. unfold phase. intros ->. by destruct (main s). Qed.

Lemma phase_after_go (s : State) :
  threads s → loop s ≠ LNone →
  phase s = match loop s with LChecks c => Some c | _ => None end.
Proof.
  unfold threads, phase. destruct (main s); try done; by intros [? _] ?.
Qed.

Lemma Start_invariant (s s' : State) :
  invariant e s → Start e s = Some s' → invariant e s'.
Proof.
  intros [Hcore Hread Hsc Hth Htk] Hstep. unfold Start in Hstep.
  unfold threads in Hth.
  destruct (main s) as [|c| | |] eqn:Hmain.
  - (* Start is called *)
    simplify_eq. destruct Hth as [Hloop Hn].
    rewrite phase_before_go, Hmain in Hcore by done.
    split; done.
  - (* inside performChecks *)
    destruct Hth as [Hloop Hn].
    rewrite phase_before_go, Hmain in Hcore by done.
    destruct (performChecks e c s) as [[c' s1]|] eqn:Hpc; [|done].
    destruct (performChecks_step e c s c' s1 Hcore Hread Hpc)
      as (Hcore1 & Hread1 & Hm1 & Hl1 & Hr1 & Hs1 & Ht1 & Hn1).
    destruct c' as [c'|]; simplify_eq.
    + destruct Hn1 as [[Hn1 _]|[_ ?]]; [|done].
      split.
      * unfold phase; simpl. exact Hcore1.
      * exact Hread1.
      * apply (scraped_le s); [done|simpl; lia|done].
      * unfold threads; simpl. split; congruence.
      * destruct Htk as [Hp Ht]. split; simpl; rewrite ?Hl1, ?Ht1; done.
    + destruct Hn1 as [[_ [? ?]]|[Hn1 _]]; [done|].
      split.
      * unfold phase; simpl. rewrite Hl1, Hloop. exact Hcore1.
      * exact Hread1.
      * apply (scraped_le s); [done|simpl; lia|done].
      * unfold threads; simpl. split; [congruence|lia].
      * destruct Htk as [Hp Ht]. split; simpl; rewrite ?Hl1, ?Ht1; done.
  - (* the go statement *)
    simplify_eq. destruct Hth as [Hloop Hn].
    rewrite phase_before_go, Hmain in Hcore by done.
    split; try done.
    destruct Htk as [Hp Ht]. split; simpl; done.
  - (* Start returns *)
    simplify_eq. destruct Hth as [Hloop Hn].
    rewrite phase_after_go in Hcore by (unfold threads; by rewrite ?Hmain).
    split; done.
  - done.
Qed.

Lemma loopStep_invariant (s s' : State) :
  invariant e s → loopStep e s = Some s' → invariant e s'.
Proof.
  intros [Hcore Hread Hsc Hth Htk] Hstep. unfold loopStep in Hstep.
  assert (loop s ≠ LNone) as Hloop by (intros Hl; by rewrite Hl in Hstep).
  rewrite phase_after_go in Hcore by done.
  assert (∀ l, l ≠ LNone → threads (setLoop s l (ticker s))) as Hth'.
  { intros l Hl. unfold threads in *. simpl.
    destruct (main s); try done; by destruct Hth. }
  assert (∀ l t, l ≠ LNone → threads (setLoop s l t)) as Hth''
    by (intros l t; apply Hth').
  assert (main s = MRet ∨ main s = MReturned) as Hm0.
  { unfold threads in Hth. destruct (main s); try tauto; by destruct Hth. }
  destruct Htk as [Hp Ht].
  destruct (loop s) as [| | |c| |] eqn:Hl; try done.
  - (* time.NewTicker *)
    case_decide as Hiv; simplify_eq.
    + split; [|done|done|by apply Hth''|by split].
      unfold phase; simpl. by destruct Hm0 as [-> | ->].
    + split; [|done|done|by apply Hth''|].
      * unfold phase; simpl. by destruct Hm0 as [-> | ->].
      * split; simpl; [done|]. intros p [= <-]. split; [done|lia].
  - (* the select takes ctx.Done() *)
    destruct (cancelled s); simplify_eq.
    split; [|done|done|by apply Hth''|by split].
    unfold phase; simpl. by destruct Hm0 as [-> | ->].
  - (* inside performChecks *)
    destruct (performChecks e c s) as [[c' s1]|] eqn:Hpc; [|done].
    destruct (performChecks_step e c s c' s1 Hcore Hread Hpc)
      as (Hcore1 & Hread1 & Hm1 & Hl1 & Hr1 & Hs1 & Ht1 & Hn1).
    assert (completed s ≤ completed s1) as Hle by (destruct Hn1; lia).
    assert (∀ l, l ≠ LNone → threads (setLoop s1 l (ticker s1))) as Hth1.
    { intros l Hne. unfold threads in *. simpl. rewrite Hm1.
      destruct Hm0 as [Hm0|Hm0]; rewrite Hm0 in *;
        destruct Hth; split; try done; lia. }
    assert (main s1 = MRet ∨ main s1 = MReturned) as Hm
      by by rewrite Hm1.
    destruct c' as [c'|]; simplify_eq.
    + split.
      * unfold phase; simpl. by destruct Hm as [-> | ->].
      * exact Hread1.
      * by apply (scraped_le s).
      * by apply Hth1.
      * split; simpl; [done|]. by rewrite Ht1.
    + split.
      * unfold phase; simpl. by destruct Hm as [-> | ->].
      * exact Hread1.
      * by apply (scraped_le s).
      * by apply Hth1.
      * split; simpl; [done|]. by rewrite Ht1.
Qed.

Lemma tickStep_invariant (s s' : State) :
  invariant e s → tickStep s = Some s' → invariant e s'.
Proof.
  intros [Hcore Hread Hsc Hth Htk] Hstep. unfold tickStep in Hstep.
  destruct (loop s) eqn:Hl; simplify_eq.
  rewrite phase_after_go, Hl in Hcore by (by rewrite ?Hl). simpl in Hcore.
  assert (main s = MRet ∨ main s = MReturned) as Hm.
  { unfold threads in Hth. rewrite Hl in Hth.
    destruct (main s); try tauto; by destruct Hth. }
  split; try done.
  - unfold phase; simpl. by destruct Hm as [-> | ->].
  - unfold threads in *; simpl.
    destruct Hm as [Hm|Hm]; rewrite Hm in *; by destruct Hth.
  - destruct Htk as [Hp Ht]. split; simpl; done.
Qed.

Lemma workerStep_invariant (k : nat) (s s' : State) :
  invariant e s → workerStep db elapsed k s = Some s' → invariant e s'.
Proof.
  intros [Hcore Hread Hsc Hth Htk] Hstep.
  destruct (workerStep_step e db elapsed _ k s s' Hcore Hread Hstep)
    as (_ & Hcore1 & Hread1 & Hm1 & Hl1 & Hr1 & Hs1 & Ht1 & Hn1).
  split.
  - unfold phase. rewrite Hm1, Hl1. exact Hcore1.
  - exact Hread1.
  - apply (scraped_le s); [done|lia|done].
  - unfold threads. by rewrite Hm1, Hl1, Hn1.
  - unfold ticking. by rewrite Hl1, Ht1.
Qed.

Lemma Collect_invariant (j : nat) (s s' : State) :
  invariant e s → Collect j s = Some s' → invariant e s'.
Proof.
  intros [Hcore Hread Hsc Hth Htk] Hstep.
  destruct (Collect_step e _ j s s' Hcore Hread Hsc
              (returned_completed s Hth) Hstep)
    as (_ & Hcore1 & Hread1 & Hsc1 & Hm1 & Hl1 & Ht1 & Hn1).
  split.
  - unfold phase. rewrite Hm1, Hl1. exact Hcore1.
  - exact Hread1.
  - exact Hsc1.
  - unfold threads. by rewrite Hm1, Hl1, Hn1.
  - unfold ticking. by rewrite Hl1, Ht1.
Qed.

Lemma Stop_invariant (s s' : State) :
  invariant e s → Stop s = Some s' → invariant e s'.
Proof. intros [Hcore Hread Hsc Hth Htk] [= <-]. by split. Qed.

Lemma step_invariant (t : Thread) (s s' : State) :
  invariant e s → step t s = Some s' → invariant e s'.
Proof.
  intros Hinv. unfold metrics.step. destruct (hasPanicked (loop s)); [done|].
  destruct t.
  - by apply Start_invariant.
  - by apply loopStep_invariant.
  - by apply tickStep_invariant.
  - by apply workerStep_invariant.
  - by apply Collect_invariant.
  - by apply Stop_invariant.
Qed.

Lemma exec_step_invariant (sched : list Thread) (s : State) :
  invariant e s → invariant e (exec sched s).
Proof.
  revert s. induction sched as [|t sched IH]; intros s Hs; [done|].
  simpl. apply IH. destruct (step t s) as [s'|] eqn:Hstep; [|done].
  by eapply step_invariant.
Qed.

Lemma invariant_exec (sched : list Thread) : invariant e (exec sched init).
Proof. apply exec_step_invariant, invariant_init. Qed.
End ExporterInvariant.

(** ** Start returns *)

Section StartReturns.
Import types metrics publishing.

Variable e : MultiMySQLExporter.
Variable db : nat → nat → mysqlcheck.Driver.
Variable elapsed : nat → nat → Z.

Abbreviation step := (metrics.step e db elapsed).
Abbreviation exec := (metrics.exec e db elapsed).

Lemma run_app (sched1 sched2 : list Thread) (s : State) :
  exec (sched1 ++ sched2) s = exec sched2 (exec sched1 s).
Proof. apply foldl_app. Qed.

Lemma run_step (t : Thread) (sched : list Thread) (s s' : State) :
  step t s = Some s' → exec (t :: sched) s = exec sched s'.
Proof. intros H. simpl. by rewrite H. Qed.

(** The launch loop of performChecks runs to wg.Wait. *)
Lemma spawn_all (rest : list MysqlConfig) : ∀ s,
  main s = MChecks (CSpawn rest) → loop s = LNone →
  let s' := exec (replicate (S (length rest)) Caller) s in
  main s' = MChecks CWait ∧ loop s' = LNone
  ∧ completed s' = completed s
  ∧ workers s' = workers s ++ (fresh <$> rest).
Proof.
  induction rest as [|c rest IH]; intros s Hm Hl.
  - simpl. unfold metrics.step, Start. rewrite Hl, Hm. simpl.
    by rewrite app_nil_r.
  - change (replicate (S (length (c :: rest))) Caller)
      with (Caller :: replicate (S (length rest)) Caller).
    assert (∃ s1, step Caller s = Some s1 ∧ main s1 = MChecks (CSpawn rest)
                  ∧ loop s1 = LNone ∧ completed s1 = completed s
                  ∧ workers s1 = workers s ++ [fresh c])
      as (s1 & Hstep & Hm1 & Hl1 & Hn1 & Hw1).
    { eexists. unfold metrics.step, Start. rewrite Hl, Hm. simpl.
      split; [reflexivity|]. by split_and!. }
    rewrite (run_step _ _ _ _ Hstep).
    destruct (IH s1 Hm1 Hl1) as (H1 & H2 & H3 & H4).
    rewrite Hn1, Hw1 in *.
    split_and!; [exact H1|exact H2|exact H3|].
    rewrite H4. simpl. by rewrite <- app_assoc.
Qed.

(** A worker that is not through can take its next step. *)
Lemma worker_advances (k : nat) (w : Worker) (s : State) :
  loop s = LNone → workers s !! k = Some w → wpc w ≠ WDone →
  ∃ s' p,
    step (Prober k) s = Some s'
    ∧ main s' = main s ∧ loop s' = loop s ∧ completed s' = completed s
    ∧ workers s' = <[k := {| wcfg := wcfg w; wpc := p |}]> (workers s)
    ∧ match wpc w with
      | WProbe => ∃ err d, p = WSetA err d
      | WSetA _ d => p = WSetD d
      | WSetD _ => p = WDone
      | WDone => False
      end.
Proof.
  intros Hl Hk Hw. unfold metrics.step, workerStep. rewrite Hl, Hk. simpl.
  destruct (wpc w) as [|err d|d|]; [| | |done];
    eexists _, _; (split; [reflexivity|]); simpl; split_and!; eauto.
Qed.

(** A worker that has not begun is through after three steps. *)
Lemma worker_through (done rest : list MysqlConfig) (c : MysqlConfig)
    (s : State) :
  waiting done (c :: rest) s →
  waiting (done ++ [c]) rest
    (exec (replicate 3 (Prober (length done))) s).
Proof.
  intros (Hm & Hl & Hn & Hw).
  assert (length (finishedWorker <$> done) = length done) as Hlen
    by apply length_fmap.
  assert (∀ w, ((finishedWorker <$> done) ++ w :: (fresh <$> rest))
               !! length done = Some w) as Hk.
  { intros w. rewrite lookup_app_r by lia. by rewrite Hlen, Nat.sub_diag. }
  assert (∀ w w',
            <[length done := w']>
              ((finishedWorker <$> done) ++ w :: (fresh <$> rest))
            = (finishedWorker <$> done) ++ w' :: (fresh <$> rest)) as Hins.
  { intros w w'. rewrite insert_app_r_alt by lia.
    by rewrite Hlen, Nat.sub_diag. }
  simpl in Hw.
  destruct (worker_advances (length done) (fresh c) s)
    as (s1 & p1 & Hs1 & Hm1 & Hl1 & Hn1 & Hw1 & (err & d & ->));
    [done|by rewrite Hw|done|].
  rewrite Hw, Hins in Hw1. simpl in Hw1.
  destruct (worker_advances (length done) {| wcfg := c; wpc := WSetA err d |} s1)
    as (s2 & p2 & Hs2 & Hm2 & Hl2 & Hn2 & Hw2 & ->);
    [congruence|by rewrite Hw1|done|].
  rewrite Hw1, Hins in Hw2. simpl in Hw2.
  destruct (worker_advances (length done) {| wcfg := c; wpc := WSetD d |} s2)
    as (s3 & p3 & Hs3 & Hm3 & Hl3 & Hn3 & Hw3 & ->);
    [congruence|by rewrite Hw2|done|].
  rewrite Hw2, Hins in Hw3. simpl in Hw3.
  change (replicate 3 (Prober (length done)))
    with [Prober (length done); Prober (length done); Prober (length done)].
  rewrite (run_step _ _ _ _ Hs1), (run_step _ _ _ _ Hs2),
    (run_step _ _ _ _ Hs3).
  simpl. split_and!; [congruence|congruence|congruence|].
  rewrite Hw3, fmap_app, <- app_assoc. done.
Qed.

Lemma workers_through (rest : list MysqlConfig) : ∀ done s,
  waiting done rest s →
  waiting (done ++ rest) []
    (exec (seq (length done) (length rest) ≫= λ k, replicate 3 (Prober k)) s).
Proof.
  induction rest as [|c rest IH]; intros done s Hs.
  - simpl. by rewrite app_nil_r.
  - cbn [seq length]. rewrite bind_cons, run_app.
    apply worker_through in Hs. apply IH in Hs.
    rewrite length_app, Nat.add_1_r, <- app_assoc in Hs. exact Hs.
Qed.

(** Once the workers are through, Start leaves wg.Wait, unlocks, starts
    the loop and returns. *)
Lemma wait_to_return (s : State) :
  main s = MChecks CWait → loop s = LNone →
  forallb (λ w, isDone (wpc w)) (workers s) = true →
  let s' := exec (replicate 4 Caller) s in
  main s' = MReturned ∧ completed s' = S (completed s).
Proof.
  intros Hm Hl Hall.
  assert (∃ s1, step Caller s = Some s1 ∧ main s1 = MChecks CUnlock
                ∧ loop s1 = LNone ∧ completed s1 = completed s)
    as (s1 & Hs1 & Hm1 & Hl1 & Hn1).
  { eexists. unfold metrics.step, Start. rewrite Hl, Hm. simpl.
    rewrite Hall. split; [reflexivity|]. by split_and!. }
  assert (∃ s2, step Caller s1 = Some s2 ∧ main s2 = MGo
                ∧ loop s2 = LNone ∧ completed s2 = S (completed s))
    as (s2 & Hs2 & Hm2 & Hl2 & Hn2).
  { eexists. unfold metrics.step, Start. rewrite Hl1, Hm1. simpl.
    split; [reflexivity|]. simpl. split_and!; congruence. }
  assert (∃ s3, step Caller s2 = Some s3 ∧ main s3 = MRet
                ∧ loop s3 = LTicker ∧ completed s3 = S (completed s))
    as (s3 & Hs3 & Hm3 & Hl3 & Hn3).
  { eexists. unfold metrics.step, Start. rewrite Hl2, Hm2. simpl.
    split; [reflexivity|]. simpl. by split_and!. }
  assert (∃ s4, step Caller s3 = Some s4 ∧ main s4 = MReturned
                ∧ completed s4 = S (completed s))
    as (s4 & Hs4 & Hm4 & Hn4).
  { eexists. unfold metrics.step, Start. rewrite Hl3, Hm3. simpl.
    split; [reflexivity|]. simpl. by split_and!. }
  change (replicate 4 Caller) with [Caller; Caller; Caller; Caller].
  intros s'. subst s'.
  by rewrite (run_step _ _ _ _ Hs1), (run_step _ _ _ _ Hs2),
    (run_step _ _ _ _ Hs3), (run_step _ _ _ _ Hs4).
Qed.

(** Run alone, Start completes one cycle and returns. *)
Lemma start_returns :
  let s := exec (startAlone (length (configs e))) init in
  main s = MReturned ∧ completed s = 1.
Proof.
  cbv zeta. unfold startAlone.
  change (5 + length (configs e))
    with (4 + S (length (configs e))).
  rewrite replicate_add, !run_app.
  set (s4 := exec (replicate 4 Caller) init).
  destruct (spawn_all (configs e) s4) as (Hm & Hl & Hn & Hw); [done|done|].
  set (s5 := exec (replicate (S (length (configs e))) Caller) s4) in *.
  destruct (workers_through (configs e) [] s5) as (Hm6 & Hl6 & Hn6 & Hw6).
  { by split_and!. }
  simpl in Hw6. rewrite app_nil_r in Hw6.
  set (s6 := exec _ s5) in *.
  destruct (wait_to_return s6 Hm6 Hl6) as [Hm7 Hn7].
  { rewrite Hw6. apply forallb_forall.
    intros w Hin%list_elem_of_In%list_elem_of_fmap.
    by destruct Hin as (c & -> & _). }
  split; [exact Hm7|]. by rewrite Hn7, Hn6.
Qed.
End StartReturns.

Section ExporterClaims.
Import types metrics publishing.

Lemma workerStep_writer db elapsed (k : nat) (s s' : State) :
  workerStep db elapsed k s = Some s' → writer s' = writer s.
Proof.
  unfold workerStep. destruct (workers s !! k) as [w|]; [|done].
  destruct (wpc w); intros; by simplify_eq.
Qed.

Lemma oneEntryPerTarget_size (e : MultiMySQLExporter) (m : gmap Labels Gauge) :
  oneEntryPerTarget e m → NoDup (labelsOf <$> configs e) →
  size m = length (configs e).
Proof.
  intros Hm Hnd.
  assert (dom m = list_to_set (C := gset Labels) (labelsOf <$> configs e)) as Hdom.
  { apply set_eq. intros l.
    rewrite elem_of_dom, elem_of_list_to_set, list_elem_of_fmap, (Hm l).
    split; intros (c & H1 & H2); by exists c. }
  by rewrite <- size_dom, Hdom, size_list_to_set, length_fmap.
Qed.

(** C2, as amended.  Under every schedule the probing of a cycle is done
    inside the exclusive section: from the moment performChecks has
    taken the write lock until it returns, the lock is held; as long as
    a worker of the cycle has yet to probe or to store its values, the
    lock is held; every step of a worker, the CheckConnection call
    included, is taken with the lock held; and while it is held a
    Collect call cannot get past RLock.  A scrape that arrives during a
    cycle waits until the cycle is over. *)
Theorem probing_holds_write_lock (e : MultiMySQLExporter)
    (db : nat → nat → mysqlcheck.Driver) (elapsed : nat → nat → Z)
    (sched : list Thread) :
  let s := exec e db elapsed sched init in
  (∀ c, phase s = Some c → c ≠ CLock → writer s = true)
  ∧ (∀ k w, workers s !! k = Some w → wpc w ≠ WDone → writer s = true)
  ∧ (∀ k s', workerStep db elapsed k s = Some s' →
       writer s = true ∧ writer s' = true)
  ∧ (writer s = true → ∀ j, Collect j s = None).
Proof.
  intros s. destruct (invariant_exec e db elapsed sched)
    as [Hcore Hread _ _ _]. fold s in Hcore, Hread.
  assert (∀ k s', workerStep db elapsed k s = Some s' → writer s = true)
    as Hw.
  { intros k s' Hstep.
    by destruct (workerStep_step e db elapsed _ k s s' Hcore Hread Hstep). }
  split_and!.
  - intros c Hc Hne. rewrite Hc in Hcore.
    destruct c; simpl in Hcore; try done; by destruct Hcore.
  - intros k w Hk Hpc.
    destruct (workerStep db elapsed k s) as [s'|] eqn:Hstep; [by eapply Hw|].
    unfold workerStep in Hstep. rewrite Hk in Hstep. by destruct (wpc w).
  - intros k s' Hstep. split; [by eapply Hw|].
    rewrite (workerStep_writer _ _ _ _ _ Hstep). by eapply Hw.
  - intros Hwr j. destruct Hread as [Hr _]. unfold Collect.
    by rewrite (Hr Hwr), lookup_empty, Hwr.
Qed.


Lemma probing_holds_write_lock_witness :
  let s := exec (NewMultiMySQLExporter [props.target; props.other] 0)
             (λ _ _, props.serving) (λ _ _, 5%Z)
             firstWorkerLaunched init in
  writer s = true ∧ Collect 0 s = None.
Proof.
  intros s.
  destruct (probing_holds_write_lock
              (NewMultiMySQLExporter [props.target; props.other] 0)
              (λ _ _, props.serving) (λ _ _, 5%Z)
              firstWorkerLaunched) as (_ & H1 & _ & H3).
  fold s in H1, H3.
  assert (writer s = true) as Hw.
  { apply (H1 0 {| wcfg := props.target; wpc := WProbe |});
      [vm_compute; reflexivity|done]. }
  split; [exact Hw|]. by apply H3.
Defined.

(** C2 as stated fails.  Two targets; Start has taken the lock, reset
    the vectors and launched the first worker.  The worker's probe is
    then made with the write lock held, and a Collect call is blocked in
    RLock both before and after the probe. *)
Lemma probing_holds_write_lock_counterexample :
  let e := NewMultiMySQLExporter [props.target; props.other] 0 in
  let before := exec e (λ _ _, props.serving) (λ _ _, 5%Z)
                  firstWorkerLaunched init in
  let after := exec e (λ _ _, props.serving) (λ _ _, 5%Z) [Prober 0] before in
  probes before = 0 ∧ probes after = 1
  ∧ writer before = true ∧ writer after = true
  ∧ Collect 0 before = None ∧ Collect 0 after = None.
Proof. by vm_compute. Qed.

(** C3.  Under every schedule, what a finished Collect call has
    delivered is the result of one completed cycle: there is a cycle
    number n, not above the number of completed cycles, such that every
    gauge it read from either vector was written in cycle n and, for
    n >= 1, each vector as read holds a gauge for every configured
    target and for nothing else; for n = 0 (no cycle completed yet) both
    are empty.  No partly reset or partly refilled vector is read. *)
Theorem scrape_is_one_cycle (e : MultiMySQLExporter)
    (db : nat → nat → mysqlcheck.Driver) (elapsed : nat → nat → Z)
    (sched : list Thread) (sc : Scrape) :
  let s := exec e db elapsed sched init in
  sc ∈ scrapes s →
  ∃ n, n ≤ completed s
    ∧ resultOf e n (availability sc) ∧ resultOf e n (duration sc).
Proof.
  intros s Hsc. destruct (invariant_exec e db elapsed sched)
    as [_ _ Hscr _ _].
  destruct (Hscr sc Hsc) as (n & Hn & Ha & Hd & _). by exists n.
Qed.


Lemma scrape_is_one_cycle_witness :
  let e := NewMultiMySQLExporter [props.target; props.other] 0 in
  let s := exec e (λ _ _, props.serving) (λ _ _, 5%Z) startThenScrape init in
  ∃ sc n, scrapes s = [sc] ∧ n ≤ completed s
    ∧ resultOf e n (availability sc) ∧ resultOf e n (duration sc).
Proof.
  intros e s.
  assert (∃ sc, scrapes s = [sc]) as [sc Hsc].
  { eexists. vm_compute. reflexivity. }
  destruct (scrape_is_one_cycle e (λ _ _, props.serving) (λ _ _, 5%Z)
              startThenScrape sc) as (n & Hn & Ha & Hd).
  { fold s. rewrite Hsc. by left. }
  exists sc, n. exact (conj Hsc (conj Hn (conj Ha Hd))).
Defined.

(** C7.  Start, run alone, returns after one completed check cycle.
    Under every schedule: when Start has returned, a check cycle has
    been completed; the background loop exists only once a cycle has
    been completed; and every Collect call that takes the read lock
    after Start has returned delivers, in each vector, a gauge for every
    configured target and for nothing else -- as many gauges as targets
    when the targets' label triples are distinct. *)
Theorem start_completes_first_cycle (e : MultiMySQLExporter)
    (db : nat → nat → mysqlcheck.Driver) (elapsed : nat → nat → Z)
    (sched : list Thread) :
  let s := exec e db elapsed sched init in
  main (exec e db elapsed (startAlone (length (configs e))) init) = MReturned
  ∧ (main s = MReturned → 1 ≤ completed s)
  ∧ (loop s ≠ LNone → 1 ≤ completed s)
  ∧ (∀ sc, sc ∈ scrapes s → afterStart sc = true →
       oneEntryPerTarget e (availability sc)
       ∧ oneEntryPerTarget e (duration sc)
       ∧ (NoDup (labelsOf <$> configs e) →
            size (availability sc) = length (configs e)
            ∧ size (duration sc) = length (configs e))).
Proof.
  intros s. destruct (invariant_exec e db elapsed sched)
    as [_ _ Hscr Hth _]. fold s in Hscr, Hth. unfold threads in Hth.
  split_and!.
  - apply start_returns.
  - intros Hm. rewrite Hm in Hth. by destruct Hth.
  - intros Hl. destruct (main s); by destruct Hth.
  - intros sc Hsc Hafter.
    destruct (Hscr sc Hsc) as (n & Hn & [_ Ha] & [_ Hd] & Hpos).
    specialize (Hpos Hafter). destruct n as [|n]; [lia|].
    split_and!; [done|done|]. intros Hnd.
    split; by apply oneEntryPerTarget_size.
Qed.


Lemma start_completes_first_cycle_witness :
  let e := NewMultiMySQLExporter [props.target; props.other] 0 in
  let s := exec e (λ _ _, props.serving) (λ _ _, 5%Z) startThenScrape init in
  main s = MReturned ∧ 1 ≤ completed s
  ∧ ∃ sc, scrapes s = [sc] ∧ afterStart sc = true
      ∧ size (availability sc) = 2 ∧ size (duration sc) = 2.
Proof.
  intros e s.
  destruct (start_completes_first_cycle e (λ _ _, props.serving)
              (λ _ _, 5%Z) startThenScrape) as (_ & H1 & _ & H3).
  fold s in H1, H3.
  assert (main s = MReturned) as Hm by (vm_compute; reflexivity).
  assert (∃ sc, scrapes s = [sc] ∧ afterStart sc = true) as (sc & Hsc & Ha).
  { eexists. split; vm_compute; reflexivity. }
  destruct (H3 sc) as (_ & _ & Hsize); [rewrite Hsc; by left|exact Ha|].
  destruct Hsize as [Hsa Hsd].
  { assert (labelsOf props.target ≠ labelsOf props.other) as Hne by done.
    simpl. repeat constructor; [|by intros ?%elem_of_nil].
    by intros ?%list_elem_of_singleton. }
  exact (conj Hm (conj (H1 Hm) (ex_intro _ sc
           (conj Hsc (conj Ha (conj Hsa Hsd)))))).
Defined.

(** C9.  The exporter built with a zero interval keeps the default of
    30 seconds and the one built with a non-zero interval keeps that
    interval; under every schedule the ticker of the loop, once made,
    has the kept interval as its period, and with a zero argument
    time.NewTicker does not panic. *)
Theorem zero_interval_defaults (configs : list MysqlConfig) (d : Z)
    (db : nat → nat → mysqlcheck.Driver) (elapsed : nat → nat → Z)
    (sched : list Thread) :
  let e := NewMultiMySQLExporter configs d in
  let s := exec e db elapsed sched init in
  (d = 0%Z → checkInterval e = (30 * time.Second)%Z)
  ∧ (d ≠ 0%Z → checkInterval e = d)
  ∧ (∀ p, ticker s = Some p → p = checkInterval e)
  ∧ (d = 0%Z → loop s ≠ LPanic).
Proof.
  intros e s. destruct (invariant_exec e db elapsed sched)
    as [_ _ _ _ [Hp Ht]]. fold s in Hp, Ht.
  unfold e, NewMultiMySQLExporter in *. simpl in *.
  split_and!.
  - intros ->. done.
  - intros Hd. by rewrite decide_False.
  - intros p Hp'. by destruct (Ht p Hp').
  - intros -> Hl. specialize (Hp Hl). simpl in Hp. unfold time.Second in Hp.
    lia.
Qed.

Lemma zero_interval_defaults_witness :
  checkInterval (NewMultiMySQLExporter [props.target] 0) = 30000000000%Z
  ∧ checkInterval (NewMultiMySQLExporter [props.target] 5000000000)
    = 5000000000%Z.
Proof.
  destruct (zero_interval_defaults [props.target] 0 (λ _ _, props.serving)
              (λ _ _, 5%Z) []) as (H0 & _).
  destruct (zero_interval_defaults [props.target] 5000000000
              (λ _ _, props.serving) (λ _ _, 5%Z) []) as (_ & H1 & _).
  split; [by apply H0|by apply H1].
Defined.
End ExporterClaims.

(** ** The TLS configuration of a target *)

Section TLSClaims.
Import types util.

Variable parsePEM : string → list string.

Lemma mysqlTLSConfig_ret (capath : string) (reader : FileReader)
    (c : tls.Config) :
  mysqlTLSConfig parsePEM capath reader = Ret c →
  tls.InsecureSkipVerify c = true
  ∧ ∃ pem, reader capath = Ok pem ∧ parsePEM pem ≠ []
      ∧ tls.RootCAs c = Some (parsePEM pem).
Proof.
  unfold mysqlTLSConfig. destruct (reader capath) as [pem|err]; [|done].
  destruct (parsePEM pem) as [|cert certs] eqn:Hpem; [done|].
  intros [= <-]. split; [done|]. exists pem. by rewrite Hpem.
Qed.

(** Both ways of building a target from the environment take the TLS
    configuration of a TLS-enabled target from mysqlTLSConfig. *)
Lemma tls_target_config (env : gmap string string) (reader : FileReader)
    (cfg : MysqlConfig) :
  (getMysqlConfigFromEnvs parsePEM env reader = Ret cfg
   ∨ ∃ index,
       getMysqlConfigFromEnvsByIndex parsePEM env reader index = Ret (Ok cfg)) →
  TLS cfg = true →
  ∃ capath c,
    mysqlTLSConfig parsePEM capath reader = Ret c ∧ TLSConfig cfg = Some c.
Proof.
  intros [H|[index H]] Htls.
  - unfold getMysqlConfigFromEnvs in H.
    destruct (GetEnvBool env "MYSQL_TLS" false);
      [|by simplify_eq; simpl in *].
    destruct (mysqlTLSConfig parsePEM _ reader) as [c|code msg] eqn:Hc;
      simplify_eq. eauto.
  - unfold getMysqlConfigFromEnvsByIndex in H.
    destruct (GetEnvBool env _ false);
      [|case_bool_decide; by simplify_eq; simpl in *].
    destruct (mysqlTLSConfig parsePEM _ reader) as [c|code msg] eqn:Hc;
      [|done].
    case_bool_decide; simplify_eq. eauto.
Qed.

(** C6, evaluated on the code.  The configuration built for a
    TLS-enabled target carries the pool parsed from the CA file in
    RootCAs and has InsecureSkipVerify set; with that flag the handshake
    accepts every peer, whatever the pool: the host name is not
    verified, and neither is the certificate chain. *)
Theorem tls_config_accepts_any_peer (env : gmap string string)
    (reader : FileReader) (cfg : MysqlConfig) :
  (getMysqlConfigFromEnvs parsePEM env reader = Ret cfg
   ∨ ∃ index,
       getMysqlConfigFromEnvsByIndex parsePEM env reader index = Ret (Ok cfg)) →
  TLS cfg = true →
  ∃ c capath pem,
    TLSConfig cfg = Some c
    ∧ reader capath = Ok pem
    ∧ parsePEM pem ≠ []
    ∧ tls.RootCAs c = Some (parsePEM pem)
    ∧ tls.InsecureSkipVerify c = true
    ∧ ∀ system serverName peer,
        tls.verifyServerCertificate system serverName c peer = true.
Proof.
  intros Hcfg Htls.
  destruct (tls_target_config env reader cfg Hcfg Htls)
    as (capath & c & Hc & Hsome).
  apply mysqlTLSConfig_ret in Hc as (Hskip & pem & Hpem & Hne & Hroots).
  exists c, capath, pem. split_and!; try done.
  intros system serverName peer. unfold tls.verifyServerCertificate.
  by rewrite Hskip.
Qed.
End TLSClaims.

Section TLSWitness.
Import types util.

(** A TLS-enabled target, a CA file with one certificate, and a server
    whose certificate neither chains to that certificate nor names the
    host: the probe's handshake accepts it. *)
Lemma tls_config_accepts_any_peer_witness :
  let parsePEM := λ pem : string, [pem] in
  let env : gmap string string :=
    {[ "MYSQL_NAME" := "app"; "MYSQL_USER" := "checker";
       "MYSQL_PASS" := "secret"; "MYSQL_HOST" := "db.internal";
       "MYSQL_TLS" := "true"; "MYSQL_TLS_CA_FILE" := "/ca.pem" ]} in
  let reader : FileReader := λ _, Ok "internal-ca" in
  let stranger :=
    {| tls.chains_to := λ _, false; tls.valid_for := λ _, false |} in
  ∃ cfg c,
    getMysqlConfigFromEnvs parsePEM env reader = Ret cfg
    ∧ TLS cfg = true
    ∧ TLSConfig cfg = Some c
    ∧ tls.RootCAs c = Some ["internal-ca"]
    ∧ tls.chains_to stranger ["internal-ca"] = false
    ∧ tls.verifyServerCertificate [] "db.internal" c stranger = true.
Proof.
  intros parsePEM env reader stranger.
  assert (∃ cfg, getMysqlConfigFromEnvs parsePEM env reader = Ret cfg
                 ∧ TLS cfg = true) as (cfg & Hcfg & Htls).
  { eexists. split; vm_compute; reflexivity. }
  destruct (tls_config_accepts_any_peer parsePEM env reader cfg
              (or_introl Hcfg) Htls)
    as (c & capath & pem & Hc & Hpem & _ & Hroots & _ & Hany).
  exists cfg, c.
  assert (pem = "internal-ca") as -> by (vm_compute in Hpem; congruence).
  exact (conj Hcfg (conj Htls (conj Hc (conj Hroots
           (conj eq_refl (Hany [] "db.internal" stranger)))))).
Defined.
End TLSWitness.

(** * The probe *)

Section Substrings.
Import props.

Lemma length_append (s t : string) :
  String.length (s +:+ t) = (String.length s + String.length t)%nat.
Proof. induction s as [|a s IH]; simpl; [done|by rewrite IH]. Qed.

Lemma substring_prefix (s t : string) :
  String.substring 0 (String.length s) (s +:+ t) = s.
Proof. induction s as [|a s IH]; simpl; [by destruct t|by rewrite IH]. Qed.

Lemma substring_middle (pre s post : string) :
  String.substring (String.length pre) (String.length s)
                   (pre +:+ s +:+ post) = s.
Proof. induction pre as [|a pre IH]; [exact (substring_prefix s post)|by simpl]. Qed.

Lemma substring_head (n : nat) (s sub : string) :
  String.substring 0 n s = sub → String.length sub = n →
  ∃ post, s = sub +:+ post.
Proof.
  revert s sub. induction n as [|n IH]; intros s sub Hs Hn.
  { destruct sub; [|done]. by exists s. }
  destruct sub as [|a sub]; [done|]. simpl in Hn.
  destruct s as [|b s]; [done|]. simpl in Hs. simplify_eq.
  destruct (IH s _ eq_refl) as [post Hpost]; [congruence|].
  exists post. change (String a s = String a (sub +:+ post)). congruence.
Qed.

Lemma substring_split (i n : nat) (s sub : string) :
  String.substring i n s = sub → String.length sub = n →
  ∃ pre post, s = pre +:+ sub +:+ post.
Proof.
  revert s. induction i as [|i IH]; intros s Hs Hn.
  - destruct (substring_head n s sub Hs Hn) as [post ->]. by exists "", post.
  - destruct s as [|b s].
    + destruct n; simpl in Hs; subst sub; by exists "", "".
    + simpl in Hs. destruct (IH s Hs Hn) as (pre & post & ->).
      by exists (String b pre), post.
Qed.

Lemma contains_intro (pre sub post : string) :
  contains (pre +:+ sub +:+ post) sub = true.
Proof.
  unfold contains, findSubstring.
  rewrite !length_append.
  apply andb_true_iff. split; [apply Nat.leb_le; lia|].
  destruct (String.length sub) as [|n] eqn:Hlen.
  { apply orb_true_iff. left. apply orb_true_iff. by right. }
  apply orb_true_iff. right.
  apply andb_true_iff. split.
  { apply andb_true_iff. split; apply Nat.ltb_lt; lia. }
  destruct (Nat.ltb_spec (String.length pre + (S n + String.length post)) (S n));
    [lia|].
  apply existsb_exists. exists (String.length pre). split.
  - apply in_seq. lia.
  - apply bool_decide_eq_true. rewrite <- Hlen. apply substring_middle.
Qed.

Lemma contains_elim (s sub : string) :
  contains s sub = true → ∃ pre post, s = pre +:+ sub +:+ post.
Proof.
  unfold contains, findSubstring. intros H.
  apply andb_true_iff in H as [_ H].
  apply orb_true_iff in H as [H|H].
  - apply orb_true_iff in H as [H|H].
    + apply bool_decide_eq_true in H as ->. exists "", "".
      change (sub = sub +:+ ""). clear.
      induction sub as [|a sub IH]; [done|].
      change (String a sub = String a (sub +:+ "")). congruence.
    + apply Nat.eqb_eq in H. destruct sub; [|done]. by exists "", s.
  - apply andb_true_iff in H as [_ H].
    destruct (String.length s <? String.length sub)%nat; [done|].
    apply existsb_exists in H as (i & _ & H).
    apply bool_decide_eq_true in H. by eapply substring_split.
Qed.

(** X1. The tests' helper [contains s substr] answers true exactly when
    [substr] occurs in [s]: when [s] is some prefix, then [substr], then
    some suffix. *)
Theorem contains_iff (s substr : string) :
  contains s substr = true ↔ ∃ pre post, s = pre +:+ substr +:+ post.
Proof.
  split; [apply contains_elim|].
  intros (pre & post & ->). apply contains_intro.
Qed.
End Substrings.

Section Probe.
Import types mysqlcheck probing.

Lemma scanRows_ok (rows : list (result string)) (acc names : list string) :
  scanRows rows acc = Ok names ↔
  ∃ more, rows = Ok <$> more ∧ names = acc ++ more.
Proof.
  revert acc. induction rows as [|[table|err] rows IH]; intros acc; simpl.
  - split.
    + intros [= <-]. exists []. by rewrite app_nil_r.
    + intros (more & Hrows & ->). destruct more; [|done].
      by rewrite app_nil_r.
  - rewrite IH. split.
    + intros (more & -> & ->). exists (table :: more).
      by rewrite <- app_assoc.
    + intros (more & Hrows & ->). destruct more as [|t more]; [done|].
      simpl in Hrows. simplify_eq. exists more. by rewrite <- app_assoc.
  - split; [done|]. intros (more & Hrows & _). by destruct more.
Qed.

Lemma scanRows_err (rows : list (result string)) (acc : list string)
    (msg : string) :
  scanRows rows acc = Err msg →
  ∃ names rest err,
    rows = (Ok <$> names) ++ Err err :: rest ∧
    msg = errorFuncName +:+ ": for query '" +:+ query
          +:+ "', cannot read table. Error: " +:+ err.
Proof.
  revert acc. induction rows as [|[table|err] rows IH]; intros acc; simpl.
  - done.
  - intros (names & rest & err & -> & ->)%IH.
    by exists (table :: names), rest, err.
  - intros [= <-]. by exists [], rows, err.
Qed.

(** X2. [getSQLTables] returns the table names exactly when the query
    succeeds and every row scans; the names are then the rows in order. *)
Theorem getSQLTables_ok_iff (db : Driver) (names : list string) :
  getSQLTables db = Ok names ↔ QueryContext db query = Ok (Ok <$> names).
Proof.
  unfold getSQLTables. destruct (QueryContext db query) as [rows|err].
  - rewrite scanRows_ok. split.
    + by intros (more & -> & ->).
    + intros [= ->]. by exists names.
  - split; intros; done.
Qed.

(** X3. A probe succeeds exactly when every driver call it makes does:
    the TLS registration when the target uses TLS, the open of the data
    source name, and the table query with all of its rows. *)
Theorem CheckConnection_nil_iff (config : MysqlConfig) (db : Driver) :
  CheckConnection config db = None ↔
  (TLS config = true →
   RegisterTLSConfig db (tlsConfigName config) (TLSConfig config) = None) ∧
  Open db (dataSourceName config) = None ∧
  ∃ names, QueryContext db query = Ok (Ok <$> names).
Proof.
  unfold CheckConnection, dataSourceName.
  fold (connectString config). fold (tlsConfigName config).
  assert (∀ dsn,
    match Open db dsn with
    | Some err => Some ("error connect: " +:+ err)
    | None => match getSQLTables db with
              | Err err => Some ("error getting tables: " +:+ err)
              | Ok _ => None
              end
    end = None ↔
    Open db dsn = None ∧ ∃ names, QueryContext db query = Ok (Ok <$> names))
    as Hopen.
  { intros dsn. destruct (Open db dsn) as [err|].
    { split; [done|]. by intros [? _]. }
    destruct (getSQLTables db) as [names|err] eqn:Htables.
    - apply getSQLTables_ok_iff in Htables. split; [|done].
      intros _. split; [done|]. by exists names.
    - split; [done|]. intros [_ [names Hnames]].
      apply getSQLTables_ok_iff in Hnames. congruence. }
  destruct (TLS config).
  - destruct (RegisterTLSConfig db _ _) as [err|].
    + split; [done|]. intros [Hreg _]. by specialize (Hreg eq_refl).
    + rewrite Hopen. split; [intros [? ?]|intros (_ & ? & ?)]; done.
  - rewrite Hopen. split; [intros [? ?]|intros (_ & ? & ?)]; done.
Qed.

(** X4. The error of a failed probe ends with the error text of the
    first driver call that failed, so the tests' [contains] finds that
    text in it. *)
Theorem CheckConnection_error_cause (config : MysqlConfig) (db : Driver)
    (msg : string) :
  CheckConnection config db = Some msg →
  ∃ pre err,
    cause config db err ∧ msg = pre +:+ err ∧ props.contains msg err = true.
Proof.
  assert (∀ pre err, pre +:+ err = pre +:+ err +:+ "") as Hnil.
  { intros pre err. induction pre as [|a pre IH].
    - change (err = err +:+ ""). induction err as [|b err IH]; [done|].
      change (String b err = String b (err +:+ "")). congruence.
    - change (String a (pre +:+ err) = String a (pre +:+ err +:+ "")).
      congruence. }
  assert (∀ pre err, props.contains (pre +:+ err) err = true) as Hin.
  { intros pre err. rewrite Hnil. apply contains_intro. }
  unfold CheckConnection.
  fold (connectString config). fold (tlsConfigName config).
  assert (∀ dsn m,
    dsn = dataSourceName config →
    (TLS config = true →
     RegisterTLSConfig db (tlsConfigName config) (TLSConfig config) = None) →
    match Open db dsn with
    | Some err => Some ("error connect: " +:+ err)
    | None => match getSQLTables db with
              | Err err => Some ("error getting tables: " +:+ err)
              | Ok _ => None
              end
    end = Some m →
    ∃ pre err, cause config db err ∧ m = pre +:+ err
               ∧ props.contains m err = true) as Hopen.
  { intros dsn m -> Hreg.
    destruct (Open db (dataSourceName config)) as [err|] eqn:Ho.
    { intros [= <-]. exists "error connect: ", err.
      split_and!; [by apply open_failed|done|apply Hin]. }
    unfold getSQLTables.
    destruct (QueryContext db query) as [rows|err] eqn:Hq.
    - destruct (scanRows rows []) as [names|e] eqn:Hscan; [done|].
      intros [= <-].
      apply scanRows_err in Hscan as (names & rest & err & -> & ->).
      exists ("error getting tables: " +:+ errorFuncName
              +:+ ": for query '" +:+ query
              +:+ "', cannot read table. Error: "), err.
      split_and!; [by eapply scan_failed|done|].
      apply (Hin ("error getting tables: " +:+ errorFuncName
              +:+ ": for query '" +:+ query
              +:+ "', cannot read table. Error: ") err).
    - intros [= <-].
      exists ("error getting tables: " +:+ errorFuncName
              +:+ ": query: '" +:+ query +:+ "': "), err.
      split_and!; [by apply query_failed|done|].
      apply (Hin ("error getting tables: " +:+ errorFuncName
              +:+ ": query: '" +:+ query +:+ "': ") err). }
  destruct (TLS config) eqn:Htls.
  - destruct (RegisterTLSConfig db _ _) as [err|] eqn:Hreg.
    + intros [= <-].
      exists "cannot register TLS config for MySQL connection: ", err.
      split_and!; [by apply register_failed|done|apply Hin].
    + apply Hopen; [|done]. unfold dataSourceName. by rewrite Htls.
  - apply Hopen; [|done]. unfold dataSourceName. by rewrite Htls.
Qed.
End Probe.

(** * Discovery of the targets *)

Section Discovery.
Import types util discovery.
Local Open Scope Z_scope.

Variable parsePEM : string → list string.
Variable env : gmap string string.
Variable reader : FileReader.

Lemma port_default (key : string) : GetEnvString env key "3306" ≠ "".
Proof. unfold GetEnvString. by case_decide. Qed.

Lemma GetEnvString_empty (key : string) :
  GetEnvString env key "" = Getenv env key.
Proof. unfold GetEnvString. by case_decide. Qed.

(** What an index without TLS gives. *)
Lemma byIndex_plain (i : Z) :
  GetEnvBool env (indexedKey "MYSQL_TLS_" i) false = false →
  (present env i →
   ∃ c, getMysqlConfigFromEnvsByIndex parsePEM env reader i = Ret (Ok c))
  ∧ (¬ present env i →
     getMysqlConfigFromEnvsByIndex parsePEM env reader i
     = Ret (Err ("no MySQL config found for index " +:+ pretty i))).
Proof.
  unfold getMysqlConfigFromEnvsByIndex, present, indexedKey. intros ->.
  rewrite !GetEnvString_empty.
  pose proof (port_default ("MYSQL_PORT_" +:+ pretty i)) as Hport.
  case_bool_decide as Hgap; split.
  - intros (? & ? & ? & ?). by destruct Hgap as [?|[?|[?|[?|?]]]].
  - done.
  - by eexists.
  - intros Hno. destruct Hgap.
    destruct (decide (Getenv env ("MYSQL_NAME_" +:+ pretty i) = ""));
      [by left|].
    destruct (decide (Getenv env ("MYSQL_USER_" +:+ pretty i) = ""));
      [by right; left|].
    destruct (decide (Getenv env ("MYSQL_PASS_" +:+ pretty i) = ""));
      [by right; right; left|].
    destruct (decide (Getenv env ("MYSQL_HOST_" +:+ pretty i) = ""));
      [by right; right; right; left|].
    by destruct Hno.
Qed.

(** What a returned configuration tells about the variables. *)
Lemma byIndex_ok (i : Z) (c : MysqlConfig) :
  getMysqlConfigFromEnvsByIndex parsePEM env reader i = Ret (Ok c) →
  present env i ∧ complete c = true.
Proof.
  unfold getMysqlConfigFromEnvsByIndex, present, indexedKey, complete.
  rewrite !GetEnvString_empty.
  pose proof (port_default ("MYSQL_PORT_" +:+ pretty i)) as Hport.
  intros H.
  assert (∀ t b,
    (if bool_decide
          (Getenv env ("MYSQL_NAME_" +:+ pretty i) = ""
           ∨ Getenv env ("MYSQL_USER_" +:+ pretty i) = ""
           ∨ Getenv env ("MYSQL_PASS_" +:+ pretty i) = ""
           ∨ Getenv env ("MYSQL_HOST_" +:+ pretty i) = ""
           ∨ GetEnvString env ("MYSQL_PORT_" +:+ pretty i) "3306" = "")
     then Err ("no MySQL config found for index " +:+ pretty i)
     else Ok {| Name := Getenv env ("MYSQL_NAME_" +:+ pretty i);
                User := Getenv env ("MYSQL_USER_" +:+ pretty i);
                Pass := Getenv env ("MYSQL_PASS_" +:+ pretty i);
                Host := Getenv env ("MYSQL_HOST_" +:+ pretty i);
                Port := GetEnvString env ("MYSQL_PORT_" +:+ pretty i) "3306";
                TLS := b; TLSConfig := t |}) = Ok c →
    (Getenv env ("MYSQL_NAME_" +:+ pretty i) ≠ ""
     ∧ Getenv env ("MYSQL_USER_" +:+ pretty i) ≠ ""
     ∧ Getenv env ("MYSQL_PASS_" +:+ pretty i) ≠ ""
     ∧ Getenv env ("MYSQL_HOST_" +:+ pretty i) ≠ "")
    ∧ bool_decide (Name c ≠ "" ∧ User c ≠ "" ∧ Pass c ≠ ""
                   ∧ Host c ≠ "" ∧ Port c ≠ "") = true) as Hfinish.
  { intros t b. case_bool_decide as Hgap; [done|]. intros [= <-]. simpl.
    assert (Getenv env ("MYSQL_NAME_" +:+ pretty i) ≠ ""
            ∧ Getenv env ("MYSQL_USER_" +:+ pretty i) ≠ ""
            ∧ Getenv env ("MYSQL_PASS_" +:+ pretty i) ≠ ""
            ∧ Getenv env ("MYSQL_HOST_" +:+ pretty i) ≠ "") as Hall.
    { split_and!; intros Hempty; apply Hgap; auto. }
    split; [done|]. apply bool_decide_eq_true.
    destruct Hall as (? & ? & ? & ?). done. }
  destruct (GetEnvBool env ("MYSQL_TLS_" +:+ pretty i) false).
  - destruct (mysqlTLSConfig _ _ _) as [t|code msg]; [|done].
    injection H as H. by apply Hfinish in H.
  - injection H as H. by apply Hfinish in H.
Qed.

(** An index with TLS switched on and an unreadable CA file ends the
    process, whatever its other variables are. *)
Lemma byIndex_unreadable (i : Z) (err : string) :
  GetEnvBool env (indexedKey "MYSQL_TLS_" i) false = true →
  reader (capathOf env i) = Err err →
  getMysqlConfigFromEnvsByIndex parsePEM env reader i
  = Exit 1 ("Error reading CA file: " +:+ err +:+ newline).
Proof.
  unfold getMysqlConfigFromEnvsByIndex, capathOf, indexedKey, mysqlTLSConfig.
  by intros -> ->.
Qed.

(** The loop over a run of configured indices. *)
Lemma readIndexed_run (cs : list MysqlConfig) :
  ∀ (fuel : nat) (i : Z) (acc : list MysqlConfig),
    GoInt.min_int ≤ i → i + Z.of_nat (length cs) ≤ GoInt.max_int →
    (∀ k c, cs !! k = Some c →
       getMysqlConfigFromEnvsByIndex parsePEM env reader (i + Z.of_nat k)
       = Ret (Ok c)) →
    readIndexed parsePEM env reader (length cs + fuel) i acc
    = readIndexed parsePEM env reader fuel (i + Z.of_nat (length cs))
                  (acc ++ cs).
Proof.
  induction cs as [|c cs IH]; intros fuel i acc Hlo Hhi Hcs.
  { simpl. by rewrite Z.add_0_r, app_nil_r. }
  simpl length in *. cbn [Nat.add readIndexed].
  pose proof (Hcs 0%nat c eq_refl) as H0. rewrite Z.add_0_r in H0.
  rewrite H0, add_one by lia.
  rewrite IH; [|lia|lia|].
  - rewrite <- app_assoc. simpl. f_equal. lia.
  - intros k c' Hk. specialize (Hcs (S k) c' Hk).
    by replace (i + 1 + Z.of_nat k) with (i + Z.of_nat (S k)) by lia.
Qed.

Lemma readIndexed_stops (n : nat) :
  ∀ (fuel : nat) (i : Z) (acc : list MysqlConfig),
    GoInt.min_int ≤ i → i + Z.of_nat n ≤ GoInt.max_int →
    ¬ present env (i + Z.of_nat n) → (n < fuel)%nat →
    is_Some (readIndexed parsePEM env reader fuel i acc).
Proof.
  induction n as [|n IH]; intros fuel i acc Hlo Hhi Hgap Hfuel;
    (destruct fuel as [|fuel]; [lia|]); simpl;
    destruct (getMysqlConfigFromEnvsByIndex parsePEM env reader i)
      as [[c|msg]|code msg] eqn:Hi; try by eexists.
  - apply byIndex_ok in Hi as [Hp _]. by rewrite Z.add_0_r in Hgap.
  - rewrite add_one by lia. apply IH; [lia|lia| |lia].
    by replace (i + 1 + Z.of_nat n) with (i + Z.of_nat (S n)) by lia.
Qed.

Lemma readIndexed_complete :
  ∀ (fuel : nat) (i : Z) (acc found : list MysqlConfig),
    readIndexed parsePEM env reader fuel i acc = Some (Ret found) →
    Forall (λ c, complete c = true) acc →
    Forall (λ c, complete c = true) found.
Proof.
  induction fuel as [|fuel IH]; intros i acc found; [done|]. simpl.
  destruct (getMysqlConfigFromEnvsByIndex parsePEM env reader i)
    as [[c|msg]|code msg] eqn:Hi; [|by intros [= <-]|done].
  intros Hrun Hacc. apply (IH _ _ _ Hrun).
  apply Forall_app. split; [done|]. apply Forall_singleton.
  by apply byIndex_ok in Hi as [_ ?].
Qed.

(** Among the indices 0 .. size env one has no name variable. *)
Lemma some_index_absent :
  ∃ n : nat, (n ≤ size env)%nat
    ∧ env !! indexedKey "MYSQL_NAME_" (Z.of_nat n) = None.
Proof.
  set (keys := (λ n : nat, indexedKey "MYSQL_NAME_" (Z.of_nat n))
                 <$> seq 0 (S (size env))).
  destruct (decide (Forall (λ k, is_Some (env !! k)) keys)) as [Hall|Hnot].
  - exfalso.
    assert (NoDup keys) as Hdup.
    { apply NoDup_fmap_2_strong; [|apply NoDup_seq].
      intros a b _ _ Hab. unfold indexedKey in Hab.
      apply (inj (String.append _)) in Hab.
      apply (inj pretty) in Hab. lia. }
    assert ((list_to_set keys : gset string) ⊆ dom env) as Hsub.
    { intros k Hk%elem_of_list_to_set. apply elem_of_dom.
      by eapply Forall_forall in Hall. }
    apply subseteq_size in Hsub.
    rewrite size_list_to_set, size_dom in Hsub by done.
    unfold keys in Hsub. rewrite length_fmap, length_seq in Hsub. lia.
  - apply not_Forall_Exists in Hnot; [|solve_decision].
    apply Exists_exists in Hnot as (k & Hk & Hnone).
    apply list_elem_of_fmap in Hk as (n & -> & Hn).
    apply elem_of_seq in Hn. exists n. split; [lia|].
    by apply eq_None_not_Some.
Qed.

(** X5. The indexed targets are read from index 0 upwards and the
    reading stops at the first index that lacks one of its name, user,
    password and host variables: targets with higher indices are not
    read, whatever the environment holds for them.  The target of the
    plain variables comes last, when it is complete. *)
Theorem discovery_stops_at_first_gap (cs : list MysqlConfig)
    (b : MysqlConfig) (fuel : nat) :
  Z.of_nat (length cs) ≤ GoInt.max_int →
  (∀ k c, cs !! k = Some c →
     getMysqlConfigFromEnvsByIndex parsePEM env reader (Z.of_nat k)
     = Ret (Ok c)) →
  ¬ present env (Z.of_nat (length cs)) →
  GetEnvBool env (indexedKey "MYSQL_TLS_" (Z.of_nat (length cs))) false
  = false →
  getMysqlConfigFromEnvs parsePEM env reader = Ret b →
  (length cs < fuel)%nat →
  GetAllMysqlConfigsFromEnvs parsePEM env reader fuel
  = Some (Ret (cs ++ (if complete b then [b] else []),
               announce (cs ++ (if complete b then [b] else [])))).
Proof.
  intros Hmax Hcs Hgap Htls Hbase Hfuel. unfold GetAllMysqlConfigsFromEnvs.
  replace fuel with (length cs + S (fuel - S (length cs)))%nat by lia.
  rewrite readIndexed_run;
    [|unfold GoInt.min_int; lia|lia|intros k c Hk; by apply Hcs].
  cbn [readIndexed]. rewrite Z.add_0_l.
  rewrite (proj2 (byIndex_plain _ Htls) Hgap), Hbase. simpl.
  destruct (complete b); [done|]. by rewrite app_nil_r.
Qed.

(** X6. An index whose TLS variable is "true" and whose CA file cannot
    be read ends the process with status 1 as soon as the loop reaches
    it -- also when the index has no other variable and would have
    ended the loop. *)
Theorem discovery_exits_on_unreadable_ca (cs : list MysqlConfig)
    (err : string) (fuel : nat) :
  Z.of_nat (length cs) ≤ GoInt.max_int →
  (∀ k c, cs !! k = Some c →
     getMysqlConfigFromEnvsByIndex parsePEM env reader (Z.of_nat k)
     = Ret (Ok c)) →
  GetEnvBool env (indexedKey "MYSQL_TLS_" (Z.of_nat (length cs))) false
  = true →
  reader (capathOf env (Z.of_nat (length cs))) = Err err →
  (length cs < fuel)%nat →
  GetAllMysqlConfigsFromEnvs parsePEM env reader fuel
  = Some (Exit 1 ("Error reading CA file: " +:+ err +:+ newline)).
Proof.
  intros Hmax Hcs Htls Hread Hfuel. unfold GetAllMysqlConfigsFromEnvs.
  replace fuel with (length cs + S (fuel - S (length cs)))%nat by lia.
  rewrite readIndexed_run;
    [|unfold GoInt.min_int; lia|lia|intros k c Hk; by apply Hcs].
  cbn [readIndexed]. rewrite Z.add_0_l.
  by rewrite (byIndex_unreadable _ _ Htls Hread).
Qed.

(** X7. Every configuration that is returned has a non-empty name,
    user, password, host and port, and the list is announced on stdout
    exactly when it is not empty. *)
Theorem discovered_are_complete (fuel : nat) (found : list MysqlConfig)
    (out : list string) :
  GetAllMysqlConfigsFromEnvs parsePEM env reader fuel
  = Some (Ret (found, out)) →
  Forall (λ c, Name c ≠ "" ∧ User c ≠ "" ∧ Pass c ≠ "" ∧ Host c ≠ ""
               ∧ Port c ≠ "") found
  ∧ (found = [] ↔ out = []).
Proof.
  unfold GetAllMysqlConfigsFromEnvs.
  destruct (readIndexed parsePEM env reader fuel 0 [])
    as [[cs|code msg]|] eqn:Hrun; [|done..].
  apply readIndexed_complete in Hrun; [|by apply Forall_nil].
  destruct (getMysqlConfigFromEnvs parsePEM env reader)
    as [b|code msg]; [|done].
  cbv zeta. intros H. injection H as H1 H2. subst found out. split.
  - assert (Forall (λ c, complete c = true)
              (if complete b then cs ++ [b] else cs)) as Hall.
    { destruct (complete b) eqn:Hb; [|done].
      apply Forall_app. split; [done|]. by apply Forall_singleton. }
    eapply Forall_impl; [exact Hall|]. intros c Hc.
    by apply bool_decide_eq_true in Hc.
  - unfold announce.
    destruct (if complete b then cs ++ [b] else cs) as [|c l];
      destruct (decide _) as [Hlen|Hlen]; simpl in Hlen; [lia|done|done|lia].
Qed.

(** X8. The discovery returns or exits: the loop over the indices ends
    at an index not above the number of variables of the environment. *)
Theorem discovery_terminates (fuel : nat) :
  Z.of_nat (size env) ≤ GoInt.max_int →
  (size env < fuel)%nat →
  is_Some (GetAllMysqlConfigsFromEnvs parsePEM env reader fuel).
Proof.
  intros Hmax Hfuel. unfold GetAllMysqlConfigsFromEnvs.
  destruct some_index_absent as (n & Hn & Habsent).
  destruct (readIndexed_stops n fuel 0 []) as [r Hr];
    [unfold GoInt.min_int; lia|lia| |lia|].
  - rewrite Z.add_0_l. intros [Hname _]. apply Hname.
    unfold Getenv. by rewrite Habsent.
  - rewrite Hr. destruct r as [cs|code msg]; [|by eexists].
    destruct (getMysqlConfigFromEnvs parsePEM env reader); by eexists.
Qed.
End Discovery.

(** * What CheckConnections returns, and for which target *)

Section Provenance.
Import types mysqlcheck props coordination provenance.
Local Open Scope Z_scope.

Variable config : list MysqlConfig.
Variable tries : Z.
Variable db : nat → nat → Driver.

Lemma lostCount_app (l1 l2 : list Runner) :
  lostCount (l1 ++ l2) = (lostCount l1 + lostCount l2)%nat.
Proof. unfold lostCount. by rewrite filter_app, length_app. Qed.

Lemma lostCount_cons (r : Runner) (l : list Runner) :
  lostCount (r :: l) = ((if lost r then 1 else 0) + lostCount l)%nat.
Proof.
  unfold lostCount. rewrite filter_cons.
  destruct (lost r); case_decide; simpl; congruence.
Qed.

Lemma lostCount_insert (l : list Runner) (k : nat) (r r' : Runner) :
  l !! k = Some r → lost r = false →
  lostCount (<[k := r']> l)
  = (lostCount l + if lost r' then 1 else 0)%nat.
Proof.
  revert k. induction l as [|a l IH]; intros [|k] Hk Hr; simplify_eq/=.
  - rewrite !lostCount_cons, Hr. lia.
  - rewrite !lostCount_cons, (IH _ Hk Hr). lia.
Qed.

Lemma lostCount_zero (l : list Runner) (k : nat) (r : Runner) :
  lostCount l = 0%nat → l !! k = Some r → lost r = false.
Proof.
  revert k. induction l as [|a l IH]; intros [|k] H0 Hk; simplify_eq/=;
    rewrite lostCount_cons in H0.
  - destruct (lost r); [lia|done].
  - apply (IH k); [lia|done].
Qed.

Lemma doneCount_full (l : list Runner) (k : nat) (r : Runner) :
  doneCount l = length l → l !! k = Some r → isGoDone r = true.
Proof.
  revert k. induction l as [|a l IH]; intros [|k] Hfull Hk; simplify_eq/=;
    rewrite doneCount_cons in Hfull; pose proof (doneCount_le l).
  - destruct (isGoDone r); [done|lia].
  - apply (IH k); [|done]. destruct (isGoDone a); lia.
Qed.

Lemma doneCount_lookup_lt (l : list Runner) (k : nat) (r : Runner) :
  l !! k = Some r → isGoDone r = false → (doneCount l < length l)%nat.
Proof.
  intros Hk Hr. pose proof (doneCount_le l) as Hle.
  destruct (decide (doneCount l = length l)) as [Hfull|]; [|lia].
  rewrite (doneCount_full _ _ _ Hfull Hk) in Hr. done.
Qed.

Lemma failures_app (l1 l2 : list (option string)) :
  failures (l1 ++ l2) = (failures l1 + failures l2)%nat.
Proof. unfold failures. by rewrite filter_app, length_app. Qed.

Lemma failures_cons (m : option string) (l : list (option string)) :
  failures (m :: l)
  = ((match m with Some _ => 1 | None => 0 end) + failures l)%nat.
Proof.
  unfold failures. rewrite filter_cons.
  destruct m as [e|]; case_decide as H; simpl; try done.
  destruct H. by exists e.
Qed.

Lemma failures_replicate (n : nat) : failures (replicate n None) = 0%nat.
Proof. induction n as [|n IH]; [done|]. simpl. by rewrite failures_cons. Qed.

Section Step.
Hypothesis tries_range : 0 ≤ tries < GoInt.max_int.

(** One step of a goroutine keeps its story, and what it sends is nil
    after a success and the failure of its target otherwise. *)
Lemma story_step (k : nat) (r r' : Runner) (sent : list (option string)) :
  story tries (db k) r → gstep tries (db k) r = Some (r', sent) →
  story tries (db k) r'
  ∧ match pc r with
    | AtSend _ =>
        sent = [if won r then None else Some (attemptsFailed (cfg r))]
        ∧ won r' = won r
    | _ => sent = []
    end.
Proof.
  unfold story, gstep. intros (Hle & Hfail & Hpc).
  destruct (pc r) as [i|i|] eqn:Hr; [| |done].
  - intros [= <- <-]. split; [|done].
    destruct (won r) eqn:Hwon; [by destruct Hpc as (_ & _ & [?|?])|].
    destruct Hpc as [Hlast ->]. unfold iteration.
    destruct (Z.leb_spec (Z.of_nat (calls r) + 1) tries) as [Hi|Hi].
    + destruct (CheckConnection (cfg r) (db k (S (calls r))))
        as [err|] eqn:Hprobe; unfold won in *; simpl.
      * rewrite Hwon. split_and!; [lia| | |].
        -- intros n Hn. destruct (decide (n = calls r)) as [->|].
           ++ apply Hlast. lia.
           ++ apply Hfail. lia.
        -- intros _. unfold failsAt. rewrite Hprobe. by eexists.
        -- rewrite add_one by (unfold GoInt.min_int; lia). lia.
      * destruct (stdout r); [|done]. simpl. split_and!; [lia| |lia|done|].
        -- intros n Hn. destruct (decide (n = calls r)) as [->|].
           ++ apply Hlast. lia.
           ++ apply Hfail. lia.
        -- left. f_equal. lia.
    + unfold won in *. simpl. rewrite Hwon. split_and!; [done..|lia|lia].
  - intros [= <- <-]. unfold verdict, finished, won in *. simpl.
    destruct (stdout r) as [|line out] eqn:Hout.
    + destruct Hpc as [Hlast [-> Hcalls]].
      rewrite add_one by (unfold GoInt.min_int; lia).
      rewrite Z.eqb_refl. done.
    + destruct Hpc as (H1 & Hok & [Hpc|Hpc]); [|done].
      injection Hpc as ->.
      rewrite add_one by (unfold GoInt.min_int; lia).
      rewrite (proj2 (Z.eqb_neq _ _)) by lia.
      split_and!; try done. by right.
Qed.

Lemma honest_init : honest tries db (init config).
Proof.
  split; simpl; [done|done|]. intros e He. by apply elem_of_nil in He.
Qed.

Lemma honest_step (t : Thread) (s1 s2 : State) :
  honest tries db s1 → step config tries db t s1 = Some s2 →
  honest tries db s2.
Proof.
  intros [HS HF HN] Hstep. destruct t as [|k]; simpl in Hstep.
  - unfold coStep in Hstep.
    destruct (co s1) as [[|c rest]|[|c rest]|r] eqn:Hco; simplify_eq;
      try (split; simpl; done).
    + split; cbn [errChan received goroutines co].
      * intros k r [Hk|[_ Hr]]%lookup_app_Some; [by apply HS|].
        apply list_lookup_singleton_Some in Hr as [_ <-].
        unfold story, won. simpl. split_and!; try done; try lia.
      * rewrite lostCount_app, lostCount_cons.
        change (lostCount []) with 0%nat.
        change (lost (launch c)) with false. cbv iota. lia.
      * intros e He. destruct (HN e He) as (k & r & Hk & Hr).
        exists k, r. split; [|done]. by apply lookup_app_l_Some.
    + destruct (errChan s1) as [|err queue] eqn:Hch; simplify_eq.
      split; cbn [errChan received goroutines co]; [done| |].
      * rewrite <- HF.
        rewrite !failures_app, !failures_cons, ?failures_app.
        change (failures []) with 0%nat. destruct err; lia.
      * intros e He. apply HN.
        apply elem_of_app in He as [He|He].
        { apply elem_of_app. left. by apply elem_of_cons; right. }
        apply elem_of_app in He as [He|He].
        { apply elem_of_app. by right. }
        apply list_elem_of_singleton in He as <-.
        apply elem_of_app. left. by apply elem_of_cons; left.
  - unfold goStep in Hstep.
    destruct (goroutines s1 !! k) as [r|] eqn:Hk; [|done].
    destruct (gstep tries (db k) r) as [[r' sent]|] eqn:Hg; [|done].
    case_bool_decide; simplify_eq.
    destruct (story_step k r r' sent (HS _ _ Hk) Hg) as [Hstory Hsent].
    destruct (gstep_sent _ _ _ _ _ _ Hg) as [Hnot Hlen].
    assert (lost r = false) as Hlost by (unfold lost; by rewrite Hnot).
    split; cbn [errChan received goroutines co].
    + intros k' r0 Hk'. destruct (decide (k' = k)) as [->|Hne].
      * rewrite list_lookup_insert_eq in Hk' by by eapply lookup_lt_Some.
        by simplify_eq.
      * rewrite list_lookup_insert_ne in Hk' by done. by apply HS.
    + rewrite (lostCount_insert _ _ _ _ Hk Hlost), <- HF.
      rewrite !failures_app. unfold lost.
      unfold gstep in Hg. destruct (pc r) as [i|i|] eqn:Hr; [| |done].
      * simplify_eq.
        assert (isGoDone (iteration tries (db k) i r) = false) as ->.
        { unfold isGoDone, iteration. destruct (i <=? tries); [|done].
          by destruct (CheckConnection _ _). }
        change (failures []) with 0%nat. simpl. lia.
      * destruct Hsent as [-> Hwon]. simplify_eq. rewrite Hwon.
        unfold isGoDone. simpl. rewrite failures_cons.
        change (failures []) with 0%nat. destruct (won r); simpl; lia.
    + intros e He.
      assert (Some e ∈ errChan s1 ++ received s1 ∨ Some e ∈ sent)
        as [Hold|Hnew].
      { apply elem_of_app in He as [He|He]; [|left; apply elem_of_app; by right].
        apply elem_of_app in He as [He|He]; [|by right].
        left. apply elem_of_app. by left. }
      * destruct (HN e Hold) as (k0 & r0 & Hk0 & Hr0 & ->).
        exists k0, r0. split; [|done].
        rewrite list_lookup_insert_ne; [done|]. intros <-.
        simplify_eq. congruence.
      * exists k, r'. unfold gstep in Hg.
        rewrite list_lookup_insert_eq by by eapply lookup_lt_Some.
        destruct (pc r) as [i|i|] eqn:Hr; [| |done].
        { subst sent. by apply elem_of_nil in Hnew. }
        destruct Hsent as [-> Hwon]. simplify_eq.
        apply list_elem_of_singleton in Hnew.
        destruct (won r) eqn:Hw; [done|]. simplify_eq.
        split_and!; [done| |done].
        unfold lost. by rewrite Hwon.
Qed.

Lemma honest_exec (sched : list Thread) :
  honest tries db (exec config tries db sched (init config)).
Proof.
  apply exec_invariant; [apply honest_init|].
  intros t s1 s2. apply honest_step.
Qed.
End Step.

Lemma booked_step (t : Thread) (s1 s2 : State) :
  booked config s1 → step config tries db t s1 = Some s2 →
  booked config s2.
Proof.
  intros [HL HA HR] Hstep.
  assert (readsSoFar config s2) as HR2 by by eapply readsSoFar_step.
  destruct t as [|k]; simpl in Hstep.
  - unfold coStep in Hstep. unfold pending in *.
    destruct (co s1) as [[|c rest]|[|c rest]|r] eqn:Hco; simplify_eq; simpl.
    + split; simpl; done.
    + split; simpl; try done.
      * by rewrite fmap_app, <- app_assoc.
      * by rewrite doneCount_app, doneCount_cons, Nat.add_0_r.
    + split; simpl; done.
    + destruct (errChan s1) as [|err queue] eqn:Hch; simplify_eq.
      split; simpl; try done.
      * by destruct err.
      * rewrite length_app. simpl in *. lia.
  - unfold goStep in Hstep.
    destruct (goroutines s1 !! k) as [r|] eqn:Hk; [|done].
    destruct (gstep tries (db k) r) as [[r' sent]|] eqn:Hg; [|done].
    case_bool_decide; simplify_eq.
    destruct (gstep_sent _ _ _ _ _ _ Hg) as [Hr Hsent].
    split; simpl; try done.
    + rewrite list_fmap_insert, (gstep_cfg _ _ _ _ _ _ Hg).
      rewrite list_insert_id; [done|]. by rewrite list_lookup_fmap, Hk.
    + rewrite (doneCount_insert _ _ _ _ Hk Hr), length_app. lia.
Qed.

Lemma booked_exec (sched : list Thread) :
  booked config (exec config tries db sched (init config)).
Proof.
  apply exec_invariant; [by split|].
  intros t s1 s2. apply booked_step.
Qed.

(** The goroutines launched are those of the first targets, in order. *)
Lemma launched_lookup (sched : list Thread) (k : nat) (r : Runner) :
  goroutines (exec config tries db sched (init config)) !! k = Some r →
  config !! k = Some (cfg r).
Proof.
  intros Hk. destruct (booked_exec sched) as [HL _ _].
  rewrite <- HL. apply lookup_app_l_Some.
  by rewrite list_lookup_fmap, Hk.
Qed.

Lemma launched_length (sched : list Thread) :
  (length (goroutines (exec config tries db sched (init config)))
   ≤ length config)%nat.
Proof.
  destruct (booked_exec sched) as [HL _ _].
  apply (f_equal length) in HL. rewrite length_app, length_fmap in HL. lia.
Qed.

(** X12. The channel never blocks a send: in every state that
    CheckConnections reaches -- also after it has returned on the first
    failure -- every goroutine that has not returned can take its next
    step, so none is left waiting on its send. *)
Theorem sends_never_block (sched : list Thread) (k : nat) (r : Runner) :
  let s := exec config tries db sched (init config) in
  goroutines s !! k = Some r → isGoDone r = false →
  is_Some (step config tries db (Goroutine k) s).
Proof.
  intros s Hk Hr. simpl. unfold goStep. rewrite Hk.
  destruct (gstep tries (db k) r) as [[r' sent]|] eqn:Hg.
  - destruct (gstep_sent _ _ _ _ _ _ Hg) as [_ Hlen].
    destruct (booked_exec sched) as [_ HA _].
    pose proof (doneCount_lookup_lt _ _ _ Hk Hr) as Hlt.
    pose proof (launched_length sched) as Hle. fold s in HA, Hle.
    rewrite bool_decide_eq_true_2; [by eexists|].
    unfold capacity. destruct (isGoDone r'); lia.
  - unfold gstep, isGoDone in *. by destruct (pc r).
Qed.

Section Verdicts.
Hypothesis tries_range : 0 ≤ tries < GoInt.max_int.

Lemma nil_all_won (sched : list Thread) (k : nat) (c : MysqlConfig) :
  CheckConnections config tries db sched = Some None →
  config !! k = Some c →
  ∃ r, goroutines (exec config tries db sched (init config)) !! k = Some r
    ∧ cfg r = c ∧ won r = true.
Proof.
  unfold CheckConnections, returned.
  set (s := exec config tries db sched (init config)).
  intros Hret Hc.
  destruct (booked_exec sched) as [HL HA HR].
  destruct (honest_exec tries_range sched) as [_ HF _].
  fold s in HL, HA, HR, HF. unfold readsSoFar, pending in *.
  destruct (co s) as [| |[e|]] eqn:Hco; simplify_eq.
  rewrite app_nil_r in HL.
  assert (length (goroutines s) = length config) as Hlen
    by by rewrite <- HL, length_fmap.
  pose proof (doneCount_le (goroutines s)) as Hle.
  rewrite HR, length_replicate in HA.
  assert (errChan s = []) as Hch by (apply length_zero_iff_nil; lia).
  rewrite Hch, HR in HF. simpl in HF. rewrite failures_replicate in HF.
  destruct (goroutines s !! k) as [r|] eqn:Hk.
  - exists r. split; [done|]. split.
    + assert (config !! k = Some (cfg r)) as Hcfg
        by by apply (launched_lookup sched).
      congruence.
    + assert (isGoDone r = true) as Hdone
        by (apply (doneCount_full (goroutines s) k); [lia|done]).
      assert (lost r = false) as Hlost
        by by apply (lostCount_zero (goroutines s) k).
      unfold lost in Hlost. rewrite Hdone in Hlost.
      by destruct (won r).
  - apply lookup_ge_None in Hk. apply lookup_lt_Some in Hc. lia.
Qed.

Lemma error_exhausted (sched : list Thread) (e : string) :
  CheckConnections config tries db sched = Some (Some e) →
  ∃ k r, goroutines (exec config tries db sched (init config)) !! k
         = Some r
    ∧ e = attemptsFailed (cfg r) ∧ Z.of_nat (calls r) = tries
    ∧ ∀ n, (1 ≤ n)%nat → Z.of_nat n ≤ tries → failsAt (db k) (cfg r) n.
Proof.
  unfold CheckConnections, returned.
  set (s := exec config tries db sched (init config)).
  intros Hret.
  destruct (booked_exec sched) as [_ _ HR].
  destruct (honest_exec tries_range sched) as [HS _ HN].
  fold s in HR, HS, HN. unfold readsSoFar in HR.
  destruct (co s) as [| |[e'|]] eqn:Hco; simplify_eq.
  destruct HR as (m & _ & HR).
  destruct (HN e) as (k & r & Hk & Hlost & ->).
  { rewrite HR. apply elem_of_app. right. apply elem_of_app. right.
    by apply list_elem_of_singleton. }
  exists k, r. split; [done|]. split; [done|].
  destruct (HS k r Hk) as (Hle & Hfail & Hpc).
  unfold lost in Hlost. apply andb_true_iff in Hlost as [Hdone Hwon].
  destruct (won r); [done|]. destruct Hpc as [Hlast Hpc].
  unfold isGoDone in Hdone. destruct (pc r); try done.
  split; [done|]. intros n H1 Hn.
  destruct (decide (n = calls r)) as [->|]; [by apply Hlast|].
  apply Hfail. lia.
Qed.

(** X9. CheckConnections returns nil only when every target has
    answered: under every schedule, when nil is returned the
    goroutine of each target has made between 1 and [tries] probes,
    the last of which succeeded and all earlier ones failed. *)
Theorem nil_means_every_target_answered (sched : list Thread) (k : nat)
    (c : MysqlConfig) :
  CheckConnections config tries db sched = Some None →
  config !! k = Some c →
  ∃ r, goroutines (exec config tries db sched (init config)) !! k = Some r
    ∧ (1 ≤ calls r)%nat ∧ Z.of_nat (calls r) ≤ tries
    ∧ succeedsAt (db k) c (calls r)
    ∧ ∀ n, (1 ≤ n < calls r)%nat → failsAt (db k) c n.
Proof.
  intros Hret Hc.
  destruct (nil_all_won sched k c Hret Hc) as (r & Hk & <- & Hwon).
  exists r. split; [done|].
  destruct (honest_exec tries_range sched) as [HS _ _].
  destruct (HS k r Hk) as (Hle & Hfail & Hpc). rewrite Hwon in Hpc.
  destruct Hpc as (H1 & Hok & _). done.
Qed.

(** X10. A failure returned by CheckConnections is that of a target
    whose probe failed on every one of its [tries] attempts: under
    every schedule the returned error is [attemptsFailed c] for a
    configured target [c] whose goroutine made exactly [tries] probes,
    all of them failing. *)
Theorem error_names_exhausted_target (sched : list Thread) (e : string) :
  CheckConnections config tries db sched = Some (Some e) →
  ∃ k c, config !! k = Some c ∧ e = attemptsFailed c
    ∧ (∀ n, (1 ≤ n)%nat → Z.of_nat n ≤ tries → failsAt (db k) c n)
    ∧ ∃ r, goroutines (exec config tries db sched (init config)) !! k
           = Some r
        ∧ Z.of_nat (calls r) = tries.
Proof.
  intros Hret.
  destruct (error_exhausted sched e Hret) as (k & r & Hk & -> & Hn & Hall).
  exists k, (cfg r). split; [by apply (launched_lookup sched)|].
  split; [done|]. split; [done|]. by exists r.
Qed.

(** X11. When every target answers one of its first [tries] probes,
    CheckConnections never returns a failure, whatever the schedule,
    and from every state it reaches it can go on to return nil. *)
Theorem reachable_targets_pass (sched : list Thread) :
  (∀ k c, config !! k = Some c →
     ∃ n, (1 ≤ n)%nat ∧ Z.of_nat n ≤ tries ∧ succeedsAt (db k) c n) →
  (∀ e, CheckConnections config tries db sched ≠ Some (Some e))
  ∧ ∃ sched', CheckConnections config tries db (sched ++ sched')
              = Some None.
Proof.
  intros Hreach.
  assert (∀ sched0 e,
    CheckConnections config tries db sched0 ≠ Some (Some e)) as Hnever.
  { intros sched0 e Hret.
    destruct (error_exhausted sched0 e Hret) as (k & r & Hk & _ & _ & Hall).
    destruct (Hreach k (cfg r)) as (n & H1 & Hn & Hok);
      [by apply (launched_lookup sched0)|].
    destruct (Hall n H1 Hn) as [err Herr].
    unfold succeedsAt in Hok. congruence. }
  split; [apply Hnever|].
  destruct (can_return config tries db (proj2 tries_range) sched)
    as [sched' Hret].
  exists sched'. specialize (Hnever (sched ++ sched')).
  unfold CheckConnections in *.
  destruct (returned _) as [[e|]|]; [by destruct (Hnever e)|done|done].
Qed.

(** X13. No target is probed more than [tries] times: under every
    schedule the probes made by all goroutines together number at
    most [tries] per target. *)
Theorem probes_bounded (sched : list Thread) :
  Z.of_nat (probeCalls (exec config tries db sched (init config)))
  ≤ Z.of_nat (length config) * tries.
Proof.
  pose proof (launched_length sched) as Hlen.
  destruct (honest_exec tries_range sched) as [HS _ _].
  unfold probeCalls.
  set (l := goroutines (exec config tries db sched (init config))) in *.
  assert (Z.of_nat (sum_list (calls <$> l)) ≤ Z.of_nat (length l) * tries);
    [|nia].
  assert (∀ r, r ∈ l → Z.of_nat (calls r) ≤ tries) as Hall.
  { intros r [k Hk]%list_elem_of_lookup_1.
    by destruct (HS k r Hk) as [? _]. }
  clear -Hall. induction l as [|r l IH]; [simpl; lia|].
  assert (Z.of_nat (calls r) ≤ tries) as Hr by (apply Hall; by left).
  assert (Z.of_nat (sum_list (calls <$> l)) ≤ Z.of_nat (length l) * tries)
    as Hl by (apply IH; intros; apply Hall; by right).
  cbn -[Z.of_nat Z.mul]. rewrite Nat2Z.inj_add, Nat2Z.inj_succ. lia.
Qed.
End Verdicts.
End Provenance.

(** * What the exporter publishes *)

Section Auditing.
Import types metrics publishing auditing.

Variable e : MultiMySQLExporter.
Variable db : nat → nat → mysqlcheck.Driver.
Variable elapsed : nat → nat → Z.

Lemma probedNow_cons (w : Worker) (ws : list Worker) :
  probedNow (w :: ws)
  = ((if pastProbe (wpc w) then 1 else 0) + probedNow ws)%nat.
Proof.
  unfold probedNow. rewrite filter_cons.
  destruct (pastProbe (wpc w)); case_decide; simpl; congruence.
Qed.

Lemma probedNow_app (ws1 ws2 : list Worker) :
  probedNow (ws1 ++ ws2) = (probedNow ws1 + probedNow ws2)%nat.
Proof. unfold probedNow. by rewrite filter_app, length_app. Qed.

Lemma probedNow_insert (ws : list Worker) (k : nat) (w w' : Worker) :
  ws !! k = Some w →
  (probedNow (<[k := w']> ws) + (if pastProbe (wpc w) then 1 else 0)
   = probedNow ws + (if pastProbe (wpc w') then 1 else 0))%nat.
Proof.
  revert k. induction ws as [|a ws IH]; intros [|k] Hk; simplify_eq/=.
  - rewrite !probedNow_cons. lia.
  - rewrite !probedNow_cons. specialize (IH _ Hk). lia.
Qed.

Lemma probedNow_done (ws : list Worker) :
  (∀ k w, ws !! k = Some w → wpc w = WDone) → probedNow ws = length ws.
Proof.
  induction ws as [|a ws IH]; intros Hall; [done|].
  rewrite probedNow_cons, IH; [|intros k w Hk; by apply (Hall (S k))].
  by rewrite (Hall 0%nat a eq_refl).
Qed.

Lemma probedNow_le (ws : list Worker) : (probedNow ws ≤ length ws)%nat.
Proof.
  induction ws as [|a ws IH]; [done|]. rewrite probedNow_cons. simpl.
  destruct (pastProbe (wpc a)); lia.
Qed.

Lemma truthful_insert (m : gmap Labels Gauge) (k : nat) (c : MysqlConfig)
    (g : Gauge) :
  truthful e db m → configs e !! k = Some c →
  value g = outcome db (stamp g) k c →
  truthful e db (<[labelsOf c := g]> m).
Proof.
  intros Hm Hk Hg l g' Hl.
  destruct (decide (labelsOf c = l)) as [<-|Hne].
  - rewrite lookup_insert_eq in Hl. simplify_eq. by exists k, c.
  - rewrite lookup_insert_ne in Hl by done. by apply Hm.
Qed.

Lemma timed_insert (m : gmap Labels Gauge) (k : nat) (c : MysqlConfig)
    (g : Gauge) :
  timed e elapsed m → configs e !! k = Some c →
  value g = elapsed (stamp g) k →
  timed e elapsed (<[labelsOf c := g]> m).
Proof.
  intros Hm Hk Hg l g' Hl.
  destruct (decide (labelsOf c = l)) as [<-|Hne].
  - rewrite lookup_insert_eq in Hl. simplify_eq. by exists k, c.
  - rewrite lookup_insert_ne in Hl by done. by apply Hm.
Qed.

Lemma audited_init : audited e db elapsed (init).
Proof.
  split; simpl.
  - done.
  - intros k w Hk. by destruct k.
  - intros l g Hl. by rewrite lookup_empty in Hl.
  - intros l g Hl. by rewrite lookup_empty in Hl.
  - intros sc Hsc. by apply elem_of_nil in Hsc.
Qed.

(** One step of performChecks keeps the audit. *)
Lemma performChecks_audited (c : ChecksPc) (s : State)
    (c' : option ChecksPc) (s' : State) :
  core e (Some c) s → audited e db elapsed s →
  performChecks e c s = Some (c', s') →
  audited e db elapsed s'
  ∧ cancelled s' = cancelled s ∧ probes s' = probes s.
Proof.
  intros Hcore [HC HM HA HD HS] Hstep.
  destruct c as [| | |[|config rest]| |]; simpl in Hcore, Hstep.
  - destruct (writer s); [done|]. case_decide; simplify_eq.
    split; [|done]. by split.
  - simplify_eq. split; [|done]. split; simpl; try done.
    all: try by (intros l g Hl; rewrite lookup_empty in Hl).
  - simplify_eq. destruct Hcore as (_ & Hws & _). rewrite Hws in HC.
    split; [|done]. split; simpl; try done.
    all: try by (intros k w Hk; destruct k).
    all: try by (intros l g Hl; rewrite lookup_empty in Hl).
  - simplify_eq. by split.
  - simplify_eq. destruct Hcore as (_ & Hcfg & _).
    split; [|done]. split; simpl; try done.
    + rewrite probedNow_app, probedNow_cons. simpl.
      change (probedNow []) with 0%nat. lia.
    + intros k w [Hk|[Hlen Hk]]%lookup_app_Some; [by apply HM|].
      apply list_lookup_singleton_Some in Hk as [Hk <-]. simpl.
      split; [|done]. rewrite <- Hcfg.
      rewrite lookup_app_r by (rewrite length_fmap; lia).
      rewrite length_fmap.
      replace (k - length (workers s))%nat with 0%nat by lia. done.
  - destruct (forallb _ _); simplify_eq. by split.
  - simplify_eq. destruct Hcore as (_ & (Hcfg & _) & Hdone).
    split; [|done]. split; simpl; try done.
    + rewrite HC, (probedNow_done _ Hdone).
      rewrite app_nil_r in Hcfg. rewrite <- Hcfg, length_fmap.
      change (probedNow []) with 0%nat. lia.
Qed.

Lemma audited_setMain (s : State) (m : MainPc) :
  audited e db elapsed s → audited e db elapsed (setMain s m).
Proof. intros [? ? ? ? ?]. by split. Qed.

Lemma audited_setLoop (s : State) (l : LoopPc) (t : option Z) :
  audited e db elapsed s → audited e db elapsed (setLoop s l t).
Proof. intros [? ? ? ? ?]. by split. Qed.

Lemma workerStep_audited (k : nat) (s s' : State) :
  audited e db elapsed s → workerStep db elapsed k s = Some s' →
  audited e db elapsed s'.
Proof.
  intros [HC HM HA HD HS] Hstep. unfold workerStep in Hstep.
  destruct (workers s !! k) as [w|] eqn:Hk; [|done].
  destruct (HM k w Hk) as [Hcfg Hw].
  assert (∀ p,
    (match p with
     | WSetA err d =>
         err = mysqlcheck.CheckConnection (wcfg w) (db (S (completed s)) k)
         ∧ d = elapsed (S (completed s)) k
     | WSetD d => d = elapsed (S (completed s)) k
     | _ => True
     end) →
    ∀ a d n,
      measured e db elapsed
        (setWorker s a d k {| wcfg := wcfg w; wpc := p |} n)) as Hmeasured.
  { intros p Hp a d n k' w' Hk'. simpl in Hk'.
    destruct (decide (k' = k)) as [->|Hne].
    - rewrite list_lookup_insert_eq in Hk' by by eapply lookup_lt_Some.
      by simplify_eq.
    - rewrite list_lookup_insert_ne in Hk' by done. by apply HM. }
  destruct (wpc w) as [|err d|d|] eqn:Hpc; simplify_eq.
  - split; simpl; try done; [|by apply Hmeasured].
    pose proof (probedNow_insert (workers s) k w
      {| wcfg := wcfg w;
         wpc := WSetA (mysqlcheck.CheckConnection (wcfg w)
                         (db (S (completed s)) k))
                      (elapsed (S (completed s)) k) |} Hk) as Hins.
    rewrite Hpc in Hins. simpl in Hins. lia.
  - destruct Hw as [-> ->]. split; simpl; try done.
    + pose proof (probedNow_insert (workers s) k w
        {| wcfg := wcfg w; wpc := WSetD (elapsed (S (completed s)) k) |} Hk)
        as Hins.
      rewrite Hpc in Hins. simpl in Hins. lia.
    + by apply Hmeasured.
    + by apply (truthful_insert _ k).
  - split; simpl; try done.
    + pose proof (probedNow_insert (workers s) k w
        {| wcfg := wcfg w; wpc := WDone |} Hk) as Hins.
      rewrite Hpc in Hins. simpl in Hins. lia.
    + by apply Hmeasured.
    + by apply (timed_insert _ k).
Qed.

Lemma Collect_audited (j : nat) (s s' : State) :
  reading s → audited e db elapsed s → Collect j s = Some s' →
  audited e db elapsed s'.
Proof.
  intros [_ Hread] [HC HM HA HD HS] Hstep. unfold Collect in Hstep.
  destruct (readers s !! j) as [[b p]|] eqn:Hj.
  - destruct (Hread _ _ _ Hj) as [_ Hp].
    destruct p as [|a|a d]; simplify_eq; try by split.
    destruct Hp as [-> ->]. split; simpl; try done.
    intros sc [Hsc|Hsc]%elem_of_app; [by apply HS|].
    apply list_elem_of_singleton in Hsc as ->. done.
  - destruct (writer s); simplify_eq. by split.
Qed.

Lemma step_audited (t : Thread) (s s' : State) :
  invariant e s → audited e db elapsed s →
  step e db elapsed t s = Some s' → audited e db elapsed s'.
Proof.
  intros [Hcore Hread _ Hth _] Haud. unfold metrics.step.
  destruct (hasPanicked (loop s)); [done|]. destruct t; simpl.
  - unfold Start. destruct (main s) as [|c| | |] eqn:Hmain;
      intros Hstep; simplify_eq;
      try by (repeat first [apply audited_setMain|apply audited_setLoop]).
    unfold phase in Hcore. rewrite Hmain in Hcore.
    destruct (performChecks e c s) as [[c' s1]|] eqn:Hpc; [|done].
    destruct (performChecks_audited c s c' s1 Hcore Haud Hpc) as [H1 _].
    destruct c'; simplify_eq; by apply audited_setMain.
  - unfold loopStep. destruct (loop s) as [| | |c| |] eqn:Hloop;
      intros Hstep; try done.
    + case_decide; simplify_eq; by apply audited_setLoop.
    + destruct (cancelled s); simplify_eq. by apply audited_setLoop.
    + rewrite phase_after_go, Hloop in Hcore by (by rewrite ?Hloop).
      destruct (performChecks e c s) as [[c' s1]|] eqn:Hpc; [|done].
      destruct (performChecks_audited c s c' s1 Hcore Haud Hpc) as [H1 _].
      destruct c'; simplify_eq; by apply audited_setLoop.
  - unfold tickStep. destruct (loop s); intros; simplify_eq.
    by apply audited_setLoop.
  - by apply workerStep_audited.
  - by apply Collect_audited.
  - unfold Stop. intros [= <-]. destruct Haud. by split.
Qed.

Lemma audited_from (sched : list Thread) :
  ∀ s, invariant e s → audited e db elapsed s →
    audited e db elapsed (exec e db elapsed sched s).
Proof.
  induction sched as [|t sched IH]; intros s Hinv Haud; [done|].
  simpl. destruct (step e db elapsed t s) as [s'|] eqn:Hstep; simpl.
  - apply IH; [by eapply step_invariant|by eapply step_audited].
  - by apply IH.
Qed.

Lemma audited_exec (sched : list Thread) :
  audited e db elapsed (exec e db elapsed sched init).
Proof. apply audited_from; [apply invariant_init|apply audited_init]. Qed.

(** X14. What a scrape delivers reports the probes: under every
    schedule, each availability gauge handed out by a finished Collect
    call is 1 or 0 according to whether the probe of a configured target
    with the gauge's labels returned nil in the cycle that wrote the
    gauge, and each duration gauge is the time such a probe took. *)
Theorem gauges_report_the_probes (sched : list Thread) (sc : Scrape)
    (l : Labels) (g : Gauge) :
  sc ∈ scrapes (exec e db elapsed sched init) →
  (availability sc !! l = Some g →
     ∃ k c, configs e !! k = Some c ∧ labelsOf c = l
       ∧ value g
         = match mysqlcheck.CheckConnection c (db (stamp g) k) with
           | Some _ => 0%Z
           | None => 1%Z
           end)
  ∧ (duration sc !! l = Some g →
       ∃ k c, configs e !! k = Some c ∧ labelsOf c = l
         ∧ value g = elapsed (stamp g) k).
Proof.
  intros Hsc. destruct (audited_exec sched) as [_ _ _ _ HS].
  destruct (HS sc Hsc) as [Ha Hd]. split; intros Hl.
  - by apply Ha.
  - by apply Hd.
Qed.

(** X15. A cycle probes each target once: under every schedule the
    number of CheckConnection calls made so far is the number of
    completed cycles times the number of targets, plus the workers of
    the running cycle that have probed -- so it is exactly that product
    whenever no cycle is running. *)
Theorem one_probe_per_target_per_cycle (sched : list Thread) :
  let s := exec e db elapsed sched init in
  probes s
  = (completed s * length (configs e) + probedNow (workers s))%nat
  ∧ (probedNow (workers s) ≤ length (configs e))%nat
  ∧ (phase s = None → probes s = (completed s * length (configs e))%nat).
Proof.
  intros s. destruct (audited_exec sched) as [HC HM _ _ _]. fold s in HC, HM.
  split; [done|]. split.
  - pose proof (probedNow_le (workers s)) as Hle.
    assert (length (workers s) ≤ length (configs e))%nat; [|lia].
    destruct (workers s !! (length (workers s) - 1)%nat) as [w|] eqn:Hlast.
    + destruct (HM _ w Hlast) as [Hk _]. apply lookup_lt_Some in Hk. lia.
    + apply lookup_ge_None in Hlast. lia.
  - intros Hph. destruct (invariant_exec e db elapsed sched) as [Hcore _ _ _ _].
    fold s in Hcore. rewrite Hph in Hcore.
    destruct Hcore as (_ & Hws & _). rewrite HC, Hws.
    change (probedNow []) with 0%nat. lia.
Qed.

Lemma performChecks_frame (c : ChecksPc) (s : State)
    (c' : option ChecksPc) (s' : State) :
  performChecks e c s = Some (c', s') →
  cancelled s' = cancelled s ∧ loop s' = loop s ∧ main s' = main s
  ∧ ticker s' = ticker s
  ∧ (completed s' = completed s ∧ is_Some c'
     ∨ completed s' = S (completed s) ∧ c' = None).
Proof.
  destruct c as [| | |[|config rest]| |]; simpl; intros Hstep.
  - destruct (writer s); [done|]. case_decide; simplify_eq.
    split_and!; try done. left. by split.
  - simplify_eq. split_and!; try done. left. by split.
  - simplify_eq. split_and!; try done. left. by split.
  - simplify_eq. split_and!; try done. left. by split.
  - simplify_eq. split_and!; try done. left. by split.
  - destruct (forallb _ _); simplify_eq. split_and!; try done.
    left. by split.
  - simplify_eq. split_and!; try done. by right.
Qed.

Lemma workerStep_frame (k : nat) (s s' : State) :
  workerStep db elapsed k s = Some s' →
  cancelled s' = cancelled s ∧ loop s' = loop s ∧ main s' = main s
  ∧ ticker s' = ticker s ∧ completed s' = completed s.
Proof.
  unfold workerStep. destruct (workers s !! k) as [w|]; [|done].
  destruct (wpc w); intros; by simplify_eq.
Qed.

Lemma Collect_frame (j : nat) (s s' : State) :
  Collect j s = Some s' →
  cancelled s' = cancelled s ∧ loop s' = loop s ∧ main s' = main s
  ∧ ticker s' = ticker s ∧ completed s' = completed s
  ∧ probes s' = probes s
  ∧ availabilityMetric s' = availabilityMetric s
  ∧ durationMetric s' = durationMetric s.
Proof.
  unfold Collect. destruct (readers s !! j) as [[b [|a|a d]]|].
  - intros; by simplify_eq.
  - intros; by simplify_eq.
  - intros; by simplify_eq.
  - destruct (writer s); intros; by simplify_eq.
Qed.

(** The loop returns only after Stop. *)
Lemma exited_cancelled (sched : list Thread) :
  let s := exec e db elapsed sched init in
  loop s = LExit → cancelled s = true.
Proof.
  cbv zeta.
  assert (∀ s, (loop s = LExit → cancelled s = true) →
            loop (exec e db elapsed sched s) = LExit →
            cancelled (exec e db elapsed sched s) = true) as Hall;
    [|by apply Hall].
  induction sched as [|t sched IH]; intros s Hs; [done|].
  simpl. apply IH.
  destruct (step e db elapsed t s) as [s'|] eqn:Hstep; [|done]. simpl.
  unfold metrics.step in Hstep.
  destruct (hasPanicked (loop s)); [done|]. destruct t; simpl in Hstep.
  - unfold Start in Hstep. destruct (main s) as [|c| | |]; simplify_eq;
      simpl; try done.
    + destruct (performChecks e c s) as [[c' s1]|] eqn:Hpc; [|done].
      destruct (performChecks_frame _ _ _ _ Hpc) as (Hc & Hl & _).
      destruct c'; simplify_eq; simpl; by rewrite Hc, Hl.
  - unfold loopStep in Hstep. destruct (loop s) as [| | |c| |] eqn:Hloop;
      try done.
    + case_decide; by simplify_eq.
    + destruct (cancelled s) eqn:Hc; by simplify_eq.
    + destruct (performChecks e c s) as [[c' s1]|] eqn:Hpc; [|done].
      destruct c'; by simplify_eq.
  - unfold tickStep in Hstep. destruct (loop s); by simplify_eq.
  - destruct (workerStep_frame _ _ _ Hstep) as (Hc & Hl & _).
    by rewrite Hc, Hl.
  - destruct (Collect_frame _ _ _ Hstep) as (Hc & Hl & _).
    by rewrite Hc, Hl.
  - unfold Stop in Hstep. by simplify_eq.
Qed.

(** Once the loop has returned, a step changes neither the cycles, nor
    the probes, nor the vectors. *)
Lemma frozen_step (t : Thread) (s0 s s' : State) :
  invariant e s → frozen s0 s → step e db elapsed t s = Some s' →
  frozen s0 s'.
Proof.
  intros [Hcore _ _ Hth _] (Hl & Hc & Hn & Hp & Ha & Hd).
  unfold metrics.step. rewrite Hl. simpl.
  assert (main s = MRet ∨ main s = MReturned) as Hmain.
  { unfold threads in Hth. rewrite Hl in Hth.
    destruct (main s); try (by destruct Hth); auto. }
  assert (workers s = []) as Hws.
  { unfold phase in Hcore. rewrite Hl in Hcore.
    destruct Hmain as [Hm|Hm]; rewrite Hm in Hcore;
      by destruct Hcore as (_ & ? & _). }
  destruct t; simpl.
  - unfold Start. destruct Hmain as [-> | ->]; intros; by simplify_eq.
  - unfold loopStep. by rewrite Hl.
  - unfold tickStep. by rewrite Hl.
  - unfold workerStep. by rewrite Hws.
  - intros Hstep.
    destruct (Collect_frame _ _ _ Hstep)
      as (Hc' & Hl' & _ & _ & Hn' & Hp' & Ha' & Hd').
    unfold frozen. rewrite Hc', Hl', Hn', Hp', Ha', Hd'. done.
  - unfold Stop. intros [= <-]. done.
Qed.

Lemma frozen_from (sched : list Thread) :
  ∀ s0 s1, invariant e s1 → frozen s0 s1 →
    frozen s0 (exec e db elapsed sched s1).
Proof.
  induction sched as [|t sched IH]; intros s0 s1 Hinv Hfr; [done|].
  simpl. destruct (step e db elapsed t s1) as [s2|] eqn:Hstep; simpl.
  - apply IH; [by eapply step_invariant|by eapply frozen_step].
  - by apply IH.
Qed.

(** X16. Stop ends the probing for good once the loop has seen it: the
    loop returns only after Stop was called, and from a state in which
    it has returned no schedule leads to another cycle, another probe
    or a change of either vector. *)
Theorem stopped_loop_probes_no_more (sched sched' : list Thread) :
  let s := exec e db elapsed sched init in
  let s' := exec e db elapsed (sched ++ sched') init in
  loop s = LExit →
  loop s' = LExit ∧ cancelled s = true
  ∧ completed s' = completed s ∧ probes s' = probes s
  ∧ availabilityMetric s' = availabilityMetric s
  ∧ durationMetric s' = durationMetric s.
Proof.
  intros s s' Hl. pose proof (exited_cancelled sched Hl) as Hc.
  assert (frozen s s') as (? & ? & ? & ? & ? & ?); [|done].
  unfold s'. rewrite run_app. fold s.
  apply frozen_from; [apply invariant_exec|done].
Qed.

Section NoTicker.
Hypothesis nonpositive : (checkInterval e ≤ 0)%Z.

Lemma tickless_step (t : Thread) (s s' : State) :
  invariant e s → tickless s → step e db elapsed t s = Some s' →
  tickless s'.
Proof.
  intros [_ _ _ Hth _] (Hl & Ht & Hle & Hm). unfold metrics.step.
  destruct (hasPanicked (loop s)); [done|]. destruct t; simpl.
  - unfold Start. unfold threads in Hth.
    destruct (main s) as [|c| | |] eqn:Hmain; intros Hstep;
      simplify_eq; try done.
    + destruct (performChecks e c s) as [[c' s1]|] eqn:Hpc; [|done].
      destruct (performChecks_frame _ _ _ _ Hpc)
        as (_ & Hl1 & _ & Ht1 & Hn1).
      destruct Hth as [_ H0].
      destruct c'; simplify_eq; unfold tickless; simpl;
        rewrite Hl1, Ht1; destruct Hn1 as [[-> ?]|[-> ?]];
        try done; split_and!; try done; lia.
    + unfold tickless. simpl. split_and!; auto.
  - unfold loopStep. destruct Hl as [Hl|[Hl|Hl]]; rewrite Hl; try done.
    case_decide; [|lia]. intros [= <-]. unfold tickless. simpl.
    split_and!; auto.
  - unfold tickStep. by destruct Hl as [Hl|[Hl|Hl]]; rewrite Hl.
  - intros Hstep.
    destruct (workerStep_frame _ _ _ Hstep) as (_ & Hl' & Hm' & Ht' & Hn').
    unfold tickless. by rewrite Hl', Hm', Ht', Hn'.
  - intros Hstep.
    destruct (Collect_frame _ _ _ Hstep)
      as (_ & Hl' & Hm' & Ht' & Hn' & _).
    unfold tickless. by rewrite Hl', Hm', Ht', Hn'.
  - unfold Stop. intros [= <-]. done.
Qed.

Lemma tickless_exec (sched : list Thread) :
  tickless (exec e db elapsed sched init).
Proof.
  assert (∀ s, invariant e s → tickless s →
            tickless (exec e db elapsed sched s)) as Hall.
  { induction sched as [|t sched IH]; intros s Hinv Hs; [done|].
    simpl. destruct (step e db elapsed t s) as [s'|] eqn:Hstep; simpl.
    - apply IH; [by eapply step_invariant|by eapply tickless_step].
    - by apply IH. }
  apply Hall; [apply invariant_init|].
  unfold tickless. simpl. split_and!; auto.
Qed.

(** X17. With an interval that is not positive the goroutine of Start
    never waits for a tick: under every schedule it has not started,
    is about to create its ticker, or has panicked in time.NewTicker;
    no ticker exists and no cycle but the first is ever run.  When it
    is about to create the ticker its next step is the panic, after
    which no thread takes a step. *)
Theorem nonpositive_interval_panics (sched : list Thread) :
  let s := exec e db elapsed sched init in
  (loop s = LNone ∨ loop s = LTicker ∨ loop s = LPanic)
  ∧ ticker s = None
  ∧ (completed s ≤ 1)%nat
  ∧ (loop s = LTicker →
       ∃ s', step e db elapsed Loop s = Some s' ∧ loop s' = LPanic
         ∧ ∀ t, step e db elapsed t s' = None).
Proof.
  intros s. destruct (tickless_exec sched) as (Hl & Ht & Hle & _).
  fold s in Hl, Ht, Hle. split_and!; try done.
  intros Hloop. exists (setLoop s LPanic None).
  unfold metrics.step. rewrite Hloop. simpl.
  unfold loopStep. rewrite Hloop. by case_decide.
Qed.
End NoTicker.
End Auditing.

(** * The verdict of a goroutine run alone *)

Section Verdict.
Import types mysqlcheck props.
Local Open Scope Z_scope.

Variable tries : Z.
Variable db : nat → Driver.
Variable c : MysqlConfig.

(** Among the first [m] probes either all fail or there is a first one
    that succeeds. *)
Lemma first_success (m : nat) :
  (∀ n, (1 ≤ n ≤ m)%nat → failsAt db c n)
  ∨ ∃ k, (1 ≤ k ≤ m)%nat ∧ succeedsAt db c k
      ∧ ∀ n, (1 ≤ n < k)%nat → failsAt db c n.
Proof.
  induction m as [|m [IH|(k & Hk & Hok & Hbefore)]].
  - left. intros n Hn. lia.
  - destruct (CheckConnection c (db (S m))) as [err|] eqn:Hprobe.
    + left. intros n Hn. destruct (decide (n = S m)) as [->|].
      * unfold failsAt. rewrite Hprobe. by eexists.
      * apply IH. lia.
    + right. exists (S m). split; [lia|]. split; [done|].
      intros n Hn. apply IH. lia.
  - right. exists k. split; [lia|]. by split.
Qed.

(** X18. Run alone, the goroutine of a target returns within
    [tries + 2] steps whatever the probes answer, after at most [tries]
    probes; it sends nil exactly when one of the first [tries] probes
    succeeds and the failure of its target otherwise; and it has slept
    once after every probe but a successful one. *)
Theorem goroutine_verdict :
  0 ≤ tries < GoInt.max_int →
  ∃ r v,
    goroutine tries db (Z.to_nat tries + 2) (launch c) = Some (r, v)
    ∧ (v = None ↔ ∃ n, (1 ≤ n)%nat ∧ Z.of_nat n ≤ tries ∧ succeedsAt db c n)
    ∧ (v ≠ None → v = Some (attemptsFailed c))
    ∧ Z.of_nat (calls r) ≤ tries
    ∧ calls r = (length (sleeps r) + length (stdout r))%nat.
Proof.
  intros Htries.
  destruct (first_success (Z.to_nat tries))
    as [Hall|(k & Hk & Hok & Hbefore)].
  - pose proof (exhausted_run c tries db 0 Htries Hall) as Hrun.
    rewrite Nat.add_0_r in Hrun. rewrite Hrun.
    eexists _, _. split; [done|]. split_and!; try done.
    + split; [done|]. intros (n & H1 & Hn & Hsucc).
      destruct (Hall n) as [err Herr]; [lia|].
      unfold succeedsAt in Hsucc. congruence.
    + simpl. lia.
    + simpl. rewrite length_backoffs. lia.
  - assert (goroutine tries db (Z.to_nat tries + 2) (launch c)
            = Some (succeeded tries db c (Z.to_nat (Z.of_nat k - 1)), None))
      as Hrun2.
    { replace (Z.to_nat tries + 2)%nat
        with (Z.to_nat (Z.of_nat k - 1)
              + (2 + (Z.to_nat tries - k + 1)))%nat by lia.
      pose proof (succeeded_run c tries db (Z.of_nat k)
                    (Z.to_nat tries - k + 1)) as H.
      rewrite Nat2Z.id in H. apply H; [lia|lia| |done].
      intros n Hn. apply Hbefore. lia. }
    rewrite Hrun2. eexists _, _. split; [done|]. split_and!; try done.
    + split; [|done]. intros _. exists k. split; [lia|]. split; [lia|done].
    + simpl. lia.
    + simpl. rewrite length_backoffs. lia.
Qed.
End Verdict.

(** * The command *)

Section MongoLoop.
Import types util command.
Local Open Scope Z_scope.

Variable w : World.
Variable mongoUri : string.
Variable tries : Z.
Variable u : url.URL.

Hypothesis tries_range : 0 ≤ tries < GoInt.max_int.
Hypothesis parsed : Parse w mongoUri = Ok u.
Hypothesis has_path : url.Path u ≠ "".
Hypothesis connects : ∀ n, Connect w n = None.

(** The loop from its [n+1]-th iteration on, with [m] iterations left. *)
Lemma mongo_from (m : nat) :
  ∀ (n : nat) (l : Log),
    Z.of_nat n + Z.of_nat m = tries →
    ∃ e l',
      mongoLoop w mongoUri tries (S m) (Z.of_nat n + 1) n l = Some (e, l')
      ∧ (length (sleeps l') + length (stdout l') + contacts l
         = length (sleeps l) + length (stdout l) + contacts l')%nat
      ∧ (contacts l ≤ contacts l' ≤ contacts l + m)%nat
      ∧ ((e = Returned
          ∧ ∃ j, (n < j ≤ n + m)%nat ∧ answers w mongoUri u j)
         ∨ (e = Exited 2
            ∧ (contacts l' = contacts l + m)%nat
            ∧ ∀ j, (n < j ≤ n + m)%nat → ¬ answers w mongoUri u j)).
Proof.
  induction m as [|m IH]; intros n l Hn.
  - cbn [mongoLoop].
    destruct (Z.leb_spec (Z.of_nat n + 1) tries) as [?|_]; [lia|].
    unfold afterLoop. rewrite add_one by (unfold GoInt.min_int; lia).
    rewrite (proj2 (Z.eqb_eq _ _)) by lia.
    eexists _, _. split; [done|]. simpl. split; [lia|]. split; [lia|].
    right. split; [done|]. split; [lia|]. intros j Hj. lia.
  - remember (S m) as fuel eqn:Hfuel. cbn [mongoLoop]. subst fuel.
    destruct (Z.leb_spec (Z.of_nat n + 1) tries) as [_|?]; [|lia].
    rewrite parsed. unfold answers, dbNameOf in *.
    destruct (url.Path u) as [|c rest] eqn:Hpath; [done|].
    rewrite add_one by (unfold GoInt.min_int; lia).
    assert (Z.of_nat n + 1 + 1 = Z.of_nat (S n) + 1) as Hnext by lia.
    assert (Z.of_nat (S n) + Z.of_nat m = tries) as Hrest by lia.
    destruct (NewClient w (S n) mongoUri) as [err|] eqn:Hclient.
    { rewrite Hnext.
      match goal with
      | |- ∃ e l', mongoLoop _ _ _ _ _ _ ?l0 = _ ∧ _ =>
          destruct (IH (S n) l0 Hrest) as (e & l' & Hrun & Hlen & Hc & Hres)
      end.
      exists e, l'. split; [exact Hrun|]. simpl in Hlen, Hc.
      rewrite length_app in Hlen. simpl in Hlen.
      split; [lia|]. split; [lia|].
      destruct Hres as [[-> (j & Hj & Hans)]|[-> [Hcount Hnone]]].
      - left. split; [done|]. exists j. split; [lia|done].
      - right. split; [done|]. simpl in Hcount. split; [lia|].
        intros j Hj. destruct (decide (j = S n)) as [->|].
        + intros [Hnew _]. congruence.
        + apply Hnone. lia. }
    rewrite connects.
    destruct (ListCollectionNames w (S n)
                (if decide (c = slash) then rest else String c rest))
      as [err|] eqn:Hlist.
    { rewrite Hnext.
      match goal with
      | |- ∃ e l', mongoLoop _ _ _ _ _ _ ?l0 = _ ∧ _ =>
          destruct (IH (S n) l0 Hrest) as (e & l' & Hrun & Hlen & Hc & Hres)
      end.
      exists e, l'. split; [exact Hrun|]. simpl in Hlen, Hc.
      rewrite length_app in Hlen. simpl in Hlen.
      split; [lia|]. split; [lia|].
      destruct Hres as [[-> (j & Hj & Hans)]|[-> [Hcount Hnone]]].
      - left. split; [done|]. exists j. split; [lia|done].
      - right. split; [done|]. simpl in Hcount. split; [lia|].
        intros j Hj. destruct (decide (j = S n)) as [->|].
        + intros [_ Hl]. congruence.
        + apply Hnone. lia. }
    unfold afterLoop. rewrite add_one by (unfold GoInt.min_int; lia).
    rewrite (proj2 (Z.eqb_neq _ _)) by lia.
    eexists _, _. split; [done|]. simpl. rewrite length_app. simpl.
    split; [lia|]. split; [lia|]. left. split; [done|].
    exists (S n). split; [lia|]. by split.
Qed.

(** X19. When the URI parses to a path that is not empty and
    client.Connect does not fail, the MongoDB loop ends within
    [tries + 1] passes of its test: main returns exactly when one of
    the first [tries] iterations creates a client and lists the
    collections, and exits with status 2 otherwise, after [tries]
    iterations.  Every iteration but a successful one is followed by a
    sleep. *)
Theorem mongo_verdict :
  ∃ e l,
    mongoLoop w mongoUri tries (Z.to_nat tries + 1) 1 0 quiet = Some (e, l)
    ∧ (e = Returned ↔
         ∃ j, (1 ≤ j)%nat ∧ Z.of_nat j ≤ tries ∧ answers w mongoUri u j)
    ∧ (e ≠ Returned → e = Exited 2 ∧ Z.of_nat (contacts l) = tries)
    ∧ Z.of_nat (contacts l) ≤ tries
    ∧ contacts l = (length (sleeps l) + length (stdout l))%nat.
Proof.
  destruct (mongo_from (Z.to_nat tries) 0 quiet)
    as (e & l & Hrun & Hlen & Hc & Hres); [lia|].
  exists e, l. rewrite Nat.add_1_r. split; [exact Hrun|].
  simpl in Hlen, Hc.
  destruct Hres as [[-> (j & Hj & Hans)]|[-> [Hcount Hnone]]].
  - split_and!; [|done|lia|lia].
    split; [|done]. intros _. exists j. split; [lia|]. split; [lia|done].
  - split_and!; [|intros _; split; [done|simpl in Hcount; lia]|lia|lia].
    split; [done|]. intros (j & H1 & Hj & Hans).
    destruct (Hnone j); [lia|done].
Qed.
End MongoLoop.

Section Command.
Import types util command.
Local Open Scope Z_scope.

Variable parsePEM : string → list string.
Variable env : gmap string string.
Variable reader : FileReader.
Variable w : World.
Variable db : nat → nat → mysqlcheck.Driver.








(** X20. What ends the MongoDB loop in its first iteration, with at
    least one try: a URI that does not parse exits with status 1; a URI
    whose path is empty panics on [dbName[0]] before any client is
    made; an error of client.Connect exits with status 1 at once, with
    no sleep and no second attempt. *)
Theorem mongo_fatal_errors (uri : string) (tries : Z) (fuel : nat) :
  1 ≤ tries →
  (∀ err, Parse w uri = Err err →
     mongoLoop w uri tries (S fuel) 1 0 quiet
     = Some (Exited 1,
             complain quiet
               ("Error: cannot get db from uri: " +:+ err +:+ newline)))
  ∧ (∀ u, Parse w uri = Ok u → url.Path u = "" →
       mongoLoop w uri tries (S fuel) 1 0 quiet = Some (Panicked, quiet))
  ∧ (∀ u err, Parse w uri = Ok u → url.Path u ≠ "" →
       NewClient w 1 uri = None → Connect w 1 = Some err →
       ∃ l, mongoLoop w uri tries (S fuel) 1 0 quiet = Some (Exited 1, l)
         ∧ sleeps l = [] ∧ contacts l = 1%nat).
Proof.
  intros Htries. cbn [mongoLoop].
  rewrite (proj2 (Z.leb_le 1 tries)) by done. split_and!.
  - by intros err ->.
  - by intros u -> ->.
  - intros u err -> Hpath Hclient Hconnect.
    destruct (url.Path u) as [|c rest]; [done|].
    rewrite Hclient, Hconnect. by eexists.
Qed.

(** With a negative [tries] every value a goroutine sends is nil. *)
Lemma nil_when_negative (configs : list MysqlConfig) (tries : Z)
    (sched : list mysqlcheck.Thread) (r : option string) :
  GoInt.min_int ≤ tries < 0 →
  mysqlcheck.CheckConnections configs tries db sched = Some r → r = None.
Proof.
  intros Htries. unfold mysqlcheck.CheckConnections, mysqlcheck.returned.
  assert (tries ≤ 0) as Hle by lia.
  pose proof (untried_exec configs tries db Hle sched) as (_ & Hm & _).
  destruct (booked_exec configs tries db sched) as [_ _ Hr].
  unfold coordination.readsSoFar in Hr.
  destruct (mysqlcheck.co _) as [| |[e|]]; intros; simplify_eq; [|done].
  destruct Hr as (m & _ & Hr).
  destruct (Hm (Some e)) as (c & Hc & He).
  { rewrite Hr. apply elem_of_app. right. apply elem_of_app. right.
    by apply list_elem_of_singleton. }
  unfold mysqlcheck.verdict in He.
  rewrite add_one in He by (unfold GoInt.max_int; lia).
  destruct (Z.eqb_spec 1 (tries + 1)); [lia|done].
Qed.

(** X22. With a negative TRIES the command reports success without a
    single probe: when the exporter is off and the targets have been
    read, under every schedule no CheckConnection call is made, main
    has either not finished or has returned (exit status 0) -- for
    MongoDB too, whose server is never contacted -- and every schedule
    can be continued to that return. *)
Theorem negative_tries_pass_unprobed (fuel : nat)
    (sched : list mysqlcheck.Thread) (configs : list MysqlConfig)
    (out : list string) (tries : Z) :
  discovery.GetAllMysqlConfigsFromEnvs parsePEM env reader fuel
  = Some (Ret (configs, out)) →
  GetEnvBool env "EXPORTER" false = false →
  ¬ (Getenv env "MONGODB_URI" = ""
     ∧ GetEnvString env "DB_TYPE" "mysql" = "mongodb") →
  GetEnvNumber env w "TRIES" 10 = Ret tries →
  GoInt.min_int ≤ tries < 0 →
  (main parsePEM env reader w db fuel sched = Some (Running, quiet)
   ∨ main parsePEM env reader w db fuel sched = Some (Returned, quiet))
  ∧ mysqlcheck.probeCalls
      (mysqlcheck.exec configs tries db sched (mysqlcheck.init configs))
    = 0%nat
  ∧ ∃ sched',
      main parsePEM env reader w db fuel (sched ++ sched')
      = Some (Returned, quiet).
Proof.
  intros Hfound Hexp Huri Htries Hneg.
  assert (∀ sched0 r,
    mysqlcheck.CheckConnections configs tries db sched0 = Some r →
    main parsePEM env reader w db fuel sched0 = Some (Returned, quiet))
    as Hdone.
  { intros sched0 r Hret.
    pose proof (nil_when_negative _ _ _ _ Hneg Hret) as ->.
    unfold main. rewrite Hfound, Htries, Hexp, Hret.
    rewrite bool_decide_eq_false_2 by done.
    case_decide; [|done].
    destruct fuel as [|fuel']; [done|]. cbn [mongoLoop].
    rewrite (proj2 (Z.leb_gt 1 tries)) by lia. unfold afterLoop.
    rewrite add_one by (unfold GoInt.max_int; lia).
    by rewrite (proj2 (Z.eqb_neq 1 (tries + 1))) by lia. }
  split; [|split].
  - destruct (mysqlcheck.CheckConnections configs tries db sched)
      as [r|] eqn:Hret; [right; by eapply Hdone|].
    left. unfold main. rewrite Hfound, Htries, Hexp, Hret.
    by rewrite bool_decide_eq_false_2 by done.
  - apply untried_probeCalls with (config := configs) (tries := tries).
    apply untried_exec. lia.
  - assert (tries < GoInt.max_int) as Hmax by (unfold GoInt.max_int; lia).
    destruct (can_return configs tries db Hmax sched) as [sched' Hret].
    exists sched'.
    destruct (mysqlcheck.CheckConnections configs tries db (sched ++ sched'))
      as [r|] eqn:Hr; [by eapply Hdone|].
    by unfold mysqlcheck.CheckConnections in Hr.
Qed.

(** X23. A negative CHECK_INTERVAL (down to -9223372036 seconds) is
    handed to the exporter as it is: main serves an exporter over the
    targets found whose interval is that many seconds, and under every
    schedule of that exporter the goroutine of Start never waits for a
    tick and no check cycle follows the first. *)
Theorem negative_check_interval (fuel : nat)
    (sched : list mysqlcheck.Thread) (configs : list MysqlConfig)
    (out : list string) (tries secs : Z)
    (xdb : nat → nat → mysqlcheck.Driver) (elapsed : nat → nat → Z)
    (xsched : list metrics.Thread) :
  discovery.GetAllMysqlConfigsFromEnvs parsePEM env reader fuel
  = Some (Ret (configs, out)) →
  ¬ (Getenv env "MONGODB_URI" = ""
     ∧ GetEnvString env "DB_TYPE" "mysql" = "mongodb") →
  GetEnvNumber env w "TRIES" 10 = Ret tries →
  GetEnvBool env "EXPORTER" false = true →
  GetEnvNumber env w "CHECK_INTERVAL" 30 = Ret secs →
  -9223372036 ≤ secs < 0 →
  ListenAndServe w (":" +:+ GetEnvString env "EXPORTER_PORT" "38080")
  = None →
  ∃ e,
    main parsePEM env reader w db fuel sched
    = Some (Serving e (":" +:+ GetEnvString env "EXPORTER_PORT" "38080"),
            quiet)
    ∧ metrics.configs e = configs
    ∧ metrics.checkInterval e = secs * time.Second
    ∧ let s := metrics.exec e xdb elapsed xsched metrics.init in
      metrics.loop s ≠ metrics.LSelect
      ∧ metrics.ticker s = None
      ∧ (metrics.completed s ≤ 1)%nat.
Proof.
  intros Hfound Huri Htries Hexp Hsecs Hneg Hserve.
  assert (time.seconds secs = secs * time.Second) as Hd.
  { unfold time.seconds, GoInt.mul. apply wrap_id.
    unfold GoInt.in_range, GoInt.min_int, GoInt.max_int, time.Second. lia. }
  exists (metrics.NewMultiMySQLExporter configs (time.seconds secs)).
  split; [|split; [done|split]].
  - unfold main. rewrite Hfound, Htries, Hexp, Hsecs, Hserve.
    by rewrite bool_decide_eq_false_2 by done.
  - unfold metrics.NewMultiMySQLExporter. simpl. rewrite Hd.
    case_decide; [unfold time.Second in *; lia|done].
  - cbv zeta.
    assert (metrics.checkInterval
              (metrics.NewMultiMySQLExporter configs (time.seconds secs))
            ≤ 0) as Hnonpos.
    { unfold metrics.NewMultiMySQLExporter. simpl. rewrite Hd.
      case_decide; unfold time.Second in *; lia. }
    destruct (tickless_exec _ xdb elapsed Hnonpos xsched)
      as (Hl & Ht & Hle & _).
    split_and!; [|done|done].
    destruct Hl as [Hl|[Hl|Hl]]; by rewrite Hl.
Qed.
End Command.

(** * Concrete runs *)

Section ProbeRuns.
Import types mysqlcheck props probing.

Lemma CheckConnection_nil_iff_witness :
  CheckConnection target serving = None.
Proof.
  apply (CheckConnection_nil_iff target serving).
  split; [intros H; discriminate H|].
  split; [reflexivity|]. exists ["users"; "orders"]. reflexivity.
Defined.

Lemma CheckConnection_error_cause_witness :
  ∃ msg pre err,
    CheckConnection target refusing = Some msg
    ∧ cause target refusing err ∧ msg = pre +:+ err
    ∧ contains msg err = true.
Proof.
  destruct (CheckConnection_error_cause target refusing
              (default "" (CheckConnection target refusing)) eq_refl)
    as (pre & err & Hcause & Hmsg & Hin).
  exists (default "" (CheckConnection target refusing)), pre, err.
  exact (conj eq_refl (conj Hcause (conj Hmsg Hin))).
Defined.
End ProbeRuns.

Section DiscoveryRuns.
Import types util discovery samples.
Local Open Scope Z_scope.

Lemma gapEnv_first (k : nat) (c : MysqlConfig) :
  [first] !! k = Some c →
  getMysqlConfigFromEnvsByIndex noCerts gapEnv noFiles (Z.of_nat k)
  = Ret (Ok c).
Proof.
  destruct k as [|k]; intros Hk.
  - injection Hk as <-. vm_compute. reflexivity.
  - destruct k; discriminate Hk.
Defined.

(** Index 2 of [gapEnv] is configured and is not read. *)
Lemma discovery_stops_at_first_gap_witness :
  present gapEnv 2
  ∧ GetAllMysqlConfigsFromEnvs noCerts gapEnv noFiles 2
    = Some (Ret ([first], announce [first])).
Proof.
  split.
  - unfold present. split_and!; intros H; vm_compute in H; discriminate H.
  - apply (discovery_stops_at_first_gap noCerts gapEnv noFiles
             [first] unnamed 2).
    + vm_compute. intros H; discriminate H.
    + exact gapEnv_first.
    + intros [H _]. apply H. vm_compute. reflexivity.
    + vm_compute. reflexivity.
    + vm_compute. reflexivity.
    + simpl. lia.
Defined.

(** An environment with nothing but MYSQL_TLS_0=true ends the process. *)
Lemma discovery_exits_on_unreadable_ca_witness :
  ¬ present tlsOnlyEnv 0
  ∧ GetAllMysqlConfigsFromEnvs noCerts tlsOnlyEnv noFiles 1
    = Some (Exit 1 ("Error reading CA file: "
                    +:+ "open: no such file or directory" +:+ newline)).
Proof.
  split.
  - intros [H _]. apply H. vm_compute. reflexivity.
  - apply (discovery_exits_on_unreadable_ca noCerts tlsOnlyEnv noFiles
             [] "open: no such file or directory" 1).
    + vm_compute. intros H; discriminate H.
    + intros k c Hk. destruct k; discriminate Hk.
    + vm_compute. reflexivity.
    + vm_compute. reflexivity.
    + simpl. lia.
Defined.

Lemma discovered_are_complete_witness :
  Forall (λ c, Name c ≠ "" ∧ User c ≠ "" ∧ Pass c ≠ "" ∧ Host c ≠ ""
               ∧ Port c ≠ "") [first]
  ∧ ([first] = [] ↔ announce [first] = []).
Proof.
  apply (discovered_are_complete noCerts gapEnv noFiles 2).
  vm_compute. reflexivity.
Defined.

Lemma discovery_terminates_witness :
  is_Some (GetAllMysqlConfigsFromEnvs noCerts gapEnv noFiles 9).
Proof.
  apply (discovery_terminates noCerts gapEnv noFiles 9).
  - vm_compute. intros H; discriminate H.
  - vm_compute. lia.
Defined.
End DiscoveryRuns.

Section CoordinationRuns.
Import types mysqlcheck props coordination provenance.
Local Open Scope Z_scope.

Lemma one_try : 0 ≤ 1 < GoInt.max_int.
Proof. unfold GoInt.max_int. lia. Defined.

Lemma two_tries : 0 ≤ 2 < GoInt.max_int.
Proof. unfold GoInt.max_int. lia. Defined.

Lemma sends_never_block_witness :
  is_Some (step [target; other] 1 (λ _ _, refusing) (Goroutine 0)
             (exec [target; other] 1 (λ _ _, refusing) [Coordinator]
                (init [target; other]))).
Proof.
  apply (sends_never_block [target; other] 1 (λ _ _, refusing)
           [Coordinator] 0 (launch target)); reflexivity.
Defined.

Lemma nil_means_every_target_answered_witness :
  ∃ r, goroutines (exec [target] 1 (λ _ _, serving) (inTurn [target] 2)
                     (init [target])) !! 0%nat = Some r
    ∧ (1 ≤ calls r)%nat ∧ Z.of_nat (calls r) ≤ 1
    ∧ succeedsAt (λ _, serving) target (calls r)
    ∧ ∀ n, (1 ≤ n < calls r)%nat → failsAt (λ _, serving) target n.
Proof.
  apply (nil_means_every_target_answered [target] 1 (λ _ _, serving)
           one_try (inTurn [target] 2) 0 target).
  - vm_compute. reflexivity.
  - reflexivity.
Defined.

Lemma error_names_exhausted_target_witness :
  ∃ k c, [target] !! k = Some c
    ∧ attemptsFailed target = attemptsFailed c
    ∧ (∀ n, (1 ≤ n)%nat → Z.of_nat n ≤ 1 → failsAt (λ _, refusing) c n)
    ∧ ∃ r, goroutines (exec [target] 1 (λ _ _, refusing)
                         (firstOnly [target] 3) (init [target])) !! k
           = Some r
        ∧ Z.of_nat (calls r) = 1.
Proof.
  apply (error_names_exhausted_target [target] 1 (λ _ _, refusing)
           one_try (firstOnly [target] 3) (attemptsFailed target)).
  vm_compute. reflexivity.
Defined.

Lemma reachable_targets_pass_witness :
  (∀ e, CheckConnections [target; other] 2 (λ _, servingFrom 2) []
        ≠ Some (Some e))
  ∧ ∃ sched', CheckConnections [target; other] 2 (λ _, servingFrom 2)
                ([] ++ sched')
              = Some None.
Proof.
  apply (reachable_targets_pass [target; other] 2 (λ _, servingFrom 2)
           two_tries []).
  intros k c Hc. exists 2%nat. split; [lia|]. split; [lia|].
  apply servingFrom_succeeds. lia.
Defined.

Lemma probes_bounded_witness :
  Z.of_nat (probeCalls (exec [target] 1 (λ _ _, serving)
                          (inTurn [target] 2) (init [target])))
  ≤ Z.of_nat (length [target]) * 1.
Proof.
  apply (probes_bounded [target] 1 (λ _ _, serving) one_try
           (inTurn [target] 2)).
Defined.

Lemma goroutine_verdict_witness :
  ∃ r v,
    goroutine 2 (servingFrom 2) (Z.to_nat 2 + 2) (launch target)
    = Some (r, v)
    ∧ (v = None ↔
         ∃ n, (1 ≤ n)%nat ∧ Z.of_nat n ≤ 2
              ∧ succeedsAt (servingFrom 2) target n)
    ∧ (v ≠ None → v = Some (attemptsFailed target))
    ∧ Z.of_nat (calls r) ≤ 2
    ∧ calls r = (length (sleeps r) + length (stdout r))%nat.
Proof.
  apply (goroutine_verdict 2 (servingFrom 2) target two_tries).
Defined.
End CoordinationRuns.

Section ExporterRuns.
Import types metrics publishing auditing samples.

Lemma gauges_report_the_probes_witness :
  let e := NewMultiMySQLExporter [props.target; props.other] 0 in
  let db := λ (_ k : nat),
    match k with O => props.serving | _ => props.refusing end in
  let s := exec e db (λ _ _, 5%Z) startThenScrape init in
  ∃ sc g,
    scrapes s = [sc]
    ∧ availability sc !! labelsOf props.other = Some g
    ∧ value g = 0%Z
    ∧ ∃ k c, configs e !! k = Some c ∧ labelsOf c = labelsOf props.other
        ∧ value g
          = match mysqlcheck.CheckConnection c (db (stamp g) k) with
            | Some _ => 0%Z
            | None => 1%Z
            end.
Proof.
  intros e db s.
  assert (∃ sc g, scrapes s = [sc]
            ∧ availability sc !! labelsOf props.other = Some g
            ∧ value g = 0%Z) as (sc & g & Hsc & Hg & Hv).
  { eexists _, _. split; [vm_compute; reflexivity|].
    split; vm_compute; reflexivity. }
  destruct (gauges_report_the_probes e db (λ _ _, 5%Z) startThenScrape sc
              (labelsOf props.other) g) as [Ha _].
  { fold s. rewrite Hsc. by left. }
  exists sc, g. exact (conj Hsc (conj Hg (conj Hv (Ha Hg)))).
Defined.

Lemma one_probe_per_target_per_cycle_witness :
  let e := NewMultiMySQLExporter [props.target; props.other] 0 in
  let s := exec e (λ _ _, props.serving) (λ _ _, 5%Z) startThenScrape init in
  phase s = None ∧ completed s = 1%nat ∧ probes s = 2%nat
  ∧ probes s = (completed s * length (configs e))%nat.
Proof.
  intros e s.
  destruct (one_probe_per_target_per_cycle e (λ _ _, props.serving)
              (λ _ _, 5%Z) startThenScrape) as (_ & _ & Hidle).
  assert (phase s = None) as Hph by (vm_compute; reflexivity).
  assert (completed s = 1%nat) as Hn by (vm_compute; reflexivity).
  assert (probes s = 2%nat) as Hp by (vm_compute; reflexivity).
  exact (conj Hph (conj Hn (conj Hp (Hidle Hph)))).
Defined.

Lemma stopped_loop_probes_no_more_witness :
  let e := NewMultiMySQLExporter [props.target; props.other] 0 in
  let run := exec e (λ _ _, props.serving) (λ _ _, 5%Z) in
  let s := run startThenStop init in
  let s' := run (startThenStop ++ [Tick; Loop; Prober 0; Caller]) init in
  loop s = LExit
  ∧ loop s' = LExit ∧ cancelled s = true
  ∧ completed s' = completed s ∧ probes s' = probes s
  ∧ availabilityMetric s' = availabilityMetric s
  ∧ durationMetric s' = durationMetric s.
Proof.
  intros e run s s'.
  assert (loop s = LExit) as Hl by (vm_compute; reflexivity).
  exact (conj Hl
           (stopped_loop_probes_no_more e (λ _ _, props.serving)
              (λ _ _, 5%Z) startThenStop [Tick; Loop; Prober 0; Caller]
              Hl)).
Defined.

Lemma nonpositive_interval_panics_witness :
  let e := NewMultiMySQLExporter [props.target] (-5) in
  let s := exec e (λ _ _, props.serving) (λ _ _, 5%Z) (startAlone 1) init in
  loop s = LTicker
  ∧ ∃ s', step e (λ _ _, props.serving) (λ _ _, 5%Z) Loop s = Some s'
      ∧ loop s' = LPanic
      ∧ ∀ t, step e (λ _ _, props.serving) (λ _ _, 5%Z) t s' = None.
Proof.
  intros e s.
  assert (checkInterval e ≤ 0)%Z as Hd
    by (vm_compute; intros H; discriminate H).
  assert (loop s = LTicker) as Hl by (vm_compute; reflexivity).
  destruct (nonpositive_interval_panics e (λ _ _, props.serving)
              (λ _ _, 5%Z) Hd (startAlone 1)) as (_ & _ & _ & Hpanic).
  exact (conj Hl (Hpanic Hl)).
Defined.
End ExporterRuns.

Section CommandRuns.
Import types util command samples.
Local Open Scope Z_scope.

Lemma mongo_verdict_witness :
  ∃ e l,
    mongoLoop world "mongodb://db.internal/app" 2 (Z.to_nat 2 + 1) 1 0 quiet
    = Some (e, l)
    ∧ (e = Returned ↔
         ∃ j, (1 ≤ j)%nat ∧ Z.of_nat j ≤ 2
              ∧ answers world "mongodb://db.internal/app" appUrl j)
    ∧ (e ≠ Returned → e = Exited 2 ∧ Z.of_nat (contacts l) = 2)
    ∧ Z.of_nat (contacts l) ≤ 2
    ∧ contacts l = (length (sleeps l) + length (stdout l))%nat.
Proof.
  apply (mongo_verdict world "mongodb://db.internal/app" 2 appUrl two_tries).
  - reflexivity.
  - intros H. discriminate H.
  - intros n. reflexivity.
Defined.

Lemma mongo_fatal_errors_witness :
  mongoLoop world "mongodb://db.internal" 1 1 1 0 quiet
  = Some (Panicked, quiet)
  ∧ ∃ l, mongoLoop refused "mongodb://db.internal/app" 1 1 1 0 quiet
         = Some (Exited 1, l)
      ∧ sleeps l = [] ∧ contacts l = 1%nat.
Proof.
  assert (1 ≤ 1) as Hone by lia. split.
  - destruct (mongo_fatal_errors world "mongodb://db.internal" 1 0 Hone)
      as (_ & Hpanic & _).
    apply (Hpanic {| url.Path := ""; url.Host := "db.internal" |});
      reflexivity.
  - destruct (mongo_fatal_errors refused "mongodb://db.internal/app" 1 0 Hone)
      as (_ & _ & Hconnect).
    apply (Hconnect appUrl "connection refused"); try reflexivity.
    intros H. discriminate H.
Defined.


Lemma negative_tries_pass_unprobed_witness :
  mysqlcheck.probeCalls
    (mysqlcheck.exec [first] (-1) (λ _ _, props.refusing) []
       (mysqlcheck.init [first]))
  = 0%nat
  ∧ ∃ sched',
      main noCerts negativeTriesEnv noFiles world (λ _ _, props.refusing) 1
           ([] ++ sched')
      = Some (Returned, quiet).
Proof.
  destruct (negative_tries_pass_unprobed noCerts negativeTriesEnv noFiles
              world (λ _ _, props.refusing) 1 [] [first]
              (discovery.announce [first]) (-1))
    as (_ & Hnone & Hret).
  - vm_compute. reflexivity.
  - vm_compute. reflexivity.
  - intros [H _]. vm_compute in H. discriminate H.
  - vm_compute. reflexivity.
  - unfold GoInt.min_int. lia.
  - exact (conj Hnone Hret).
Defined.

Lemma negative_check_interval_witness :
  ∃ e,
    main noCerts negativeIntervalEnv noFiles world (λ _ _, props.serving) 1 []
    = Some (Serving e ":38080", quiet)
    ∧ metrics.configs e = [first]
    ∧ metrics.checkInterval e = -5 * time.Second
    ∧ let s := metrics.exec e (λ _ _, props.serving) (λ _ _, 5)
                 (publishing.startAlone 1 ++ [metrics.Loop; metrics.Tick])
                 metrics.init in
      metrics.loop s ≠ metrics.LSelect
      ∧ metrics.ticker s = None
      ∧ (metrics.completed s ≤ 1)%nat.
Proof.
  apply (negative_check_interval noCerts negativeIntervalEnv noFiles world
           (λ _ _, props.serving) 1 [] [first]
           (discovery.announce [first]) 10 (-5)).
  - vm_compute. reflexivity.
  - intros [_ H]. vm_compute in H. discriminate H.
  - vm_compute. reflexivity.
  - vm_compute. reflexivity.
  - vm_compute. reflexivity.
  - lia.
  - vm_compute. reflexivity.
Defined.
End CommandRuns.
